(** * Labyrinth: maze generation, BFS / DFS / A* solving and rendering

    A shallow embedding of [app.py] (the maze core of the Streamlit
    application) and the verification of its specification.

    Python dictionaries are [gmap]s, Python sets are [gset]s, Python
    integers are [Z].  A cell is a pair of integers; the maze maps cells to
    the strings [WALL] and [EMPTY].  Every function that may raise returns a
    [result]; every [while] loop and the recursion of [visit] carry a fuel
    argument, and the theorems give the fuel that is enough. *)

From stdpp Require Import gmap list strings sorting.
From Stdlib Require Import ZArith Lia.

Open Scope Z_scope.

Set Warnings "-clear-no-such-hyp".

(** ** Results of Python computations *)

Inductive exn : Type := KeyError | ValueError | IndexError.

Inductive result (A : Type) : Type :=
  | Ok (a : A)
  | Raise (e : exn)
  | OutOfFuel.

Arguments Ok {A} a.
Arguments Raise {A} e.
Arguments OutOfFuel {A}.

#[global] Instance result_ret : MRet result := fun A a => Ok a.

#[global] Instance result_bind : MBind result := fun A B f m =>
  match m with
  | Ok a => f a
  | Raise e => Raise e
  | OutOfFuel => OutOfFuel
  end.

Definition is_Ok {A} (r : result A) : Prop := exists a, r = Ok a.

(** [for a in l: body] over a state [S], stopping at the first exception. *)
Fixpoint for_each {A S : Type} (l : list A) (body : A -> S -> result S) (s : S)
  : result S :=
  match l with
  | [] => Ok s
  | a :: l' => s' ← body a s; for_each l' body s'
  end.

(** ** The grid *)

Abbreviation Cell := (Z * Z)%type.
Abbreviation Grid := (gmap (Z * Z) string).

Definition EMPTY : string := "⬜".
Definition WALL : string := "⬛".
Definition START : string := "🚩".
Definition END : string := "🏁".
Definition PATH : string := "🟩".

(** [d[k]]: a lookup that raises [KeyError] on a missing key. *)
Definition getitem {V : Type} (d : gmap (Z * Z) V) (k : Cell) : result V :=
  match d !! k with
  | Some v => Ok v
  | None => Raise KeyError
  end.

(** [range(n)] as a list of integers. *)
Definition range (n : Z) : list Z := seqZ 0 n.

(** The keys of the comprehension [for x in range(width) for y in range(height)]. *)
Definition cells (width height : Z) : list Cell :=
  x ← range width; y ← range height; [(x, y)].

(** [0 <= nx < width and 0 <= ny < height] *)
Definition in_bounds (width height : Z) (c : Cell) : bool :=
  (0 <=? c.1) && (c.1 <? width) && (0 <=? c.2) && (c.2 <? height).

(** The neighbour offsets, in the order of the source. *)
Definition dirs : list (Z * Z) := [(1, 0); (-1, 0); (0, 1); (0, -1)].

(** ** Python's [random] module

    The generator of the standard library is a parameter: a state, the
    reseeding [random.seed(n)] and the primitive [_randbelow(n)], which
    returns an integer in [[0, n)].  [choice] and [randrange] are built from
    it the way CPython builds them. *)

Class PyRandom : Type := {
  rng_state : Type;
  seed_state : Z -> rng_state;
  randbelow : rng_state -> Z -> Z * rng_state;
  randbelow_range : forall r n, 0 < n -> 0 <= (randbelow r n).1 < n
}.

Section Random.
Context `{PyRandom}.

(** [random.choice(seq)] *)
Definition choice {A : Type} (r : rng_state) (seq : list A)
  : result (A * rng_state) :=
  match seq with
  | [] => Raise IndexError
  | _ =>
    let '(i, r') := randbelow r (Z.of_nat (length seq)) in
    match seq !! Z.to_nat i with
    | Some a => Ok (a, r')
    | None => Raise IndexError
    end
  end.

(** [random.randrange(start, stop)] *)
Definition randrange (r : rng_state) (start stop : Z) : result (Z * rng_state) :=
  if bool_decide (0 < stop - start)
  then let '(i, r') := randbelow r (stop - start) in Ok (start + i, r')
  else Raise ValueError.
End Random.

(** ** Maze generation *)

Section Generator.
Context `{PyRandom}.

(** The variables shared by [generate_maze] and its closure [visit], and
    the state of the global generator. *)
Record gen_state : Type := GenState {
  g_maze : gmap (Z * Z) string;
  g_visited : gset (Z * Z);
  g_rng : rng_state
}.

(** [{(x, y): WALL for x in range(width) for y in range(height)}] *)
Definition all_wall (width height : Z) : gmap (Z * Z) string :=
  foldl (fun m c => <[c := WALL]> m) ∅ (cells width height).

(** The list [neighbors] built by the four [if]s of [visit]: the rooms two
    steps away that are not visited, each with the wall cell in between. *)
Definition neighbors_of (width height x y : Z) (visited : gset (Z * Z))
  : list (Z * Z * Z * Z) :=
  (if bool_decide (y > 1) && bool_decide ((x, y - 2) ∉ visited)
   then [(x, y - 2, x, y - 1)] else []) ++
  (if bool_decide (y < height - 2) && bool_decide ((x, y + 2) ∉ visited)
   then [(x, y + 2, x, y + 1)] else []) ++
  (if bool_decide (x > 1) && bool_decide ((x - 2, y) ∉ visited)
   then [(x - 2, y, x - 1, y)] else []) ++
  (if bool_decide (x < width - 2) && bool_decide ((x + 2, y) ∉ visited)
   then [(x + 2, y, x + 1, y)] else []).

(** [visit(x, y)] and its [while True] loop.  One unit of fuel is spent on
    each call and on each iteration. *)
Fixpoint visit (fuel : nat) (width height x y : Z) (s : gen_state)
  : result gen_state :=
  match fuel with
  | O => OutOfFuel
  | S fuel' =>
    visit_while fuel' width height x y
      (GenState (<[(x, y) := EMPTY]> (g_maze s)) (g_visited s) (g_rng s))
  end
with visit_while (fuel : nat) (width height x y : Z) (s : gen_state)
  : result gen_state :=
  match fuel with
  | O => OutOfFuel
  | S fuel' =>
    let neighbors := neighbors_of width height x y (g_visited s) in
    match neighbors with
    | [] => Ok s
    | _ =>
      '(nx, ny, wx, wy, r) ← choice (g_rng s) neighbors;
      s' ← visit fuel' width height nx ny
             (GenState (<[(wx, wy) := EMPTY]> (g_maze s))
                       ({[(nx, ny)]} ∪ g_visited s) r);
      visit_while fuel' width height x y s'
    end
  end.

(** The carving phase: seeding, the all-[WALL] grid and [visit(1, 1)].
    [r0] is the state of the global generator when the call starts. *)
Definition carve (fuel : nat) (width height seed : Z) (r0 : rng_state)
  : result gen_state :=
  let r := seed_state seed in
  let maze := all_wall width height in
  visit fuel width height 1 1 (GenState maze {[(1, 1)]} r).

(** One iteration of [for _ in range(loops)]. *)
Definition add_loop (width height : Z) (s : gen_state) : result gen_state :=
  '(x, r1) ← randrange (g_rng s) 1 (width - 1);
  '(y, r2) ← randrange r1 1 (height - 1);
  v ← getitem (g_maze s) (x, y);
  if bool_decide (v = WALL)
  then Ok (GenState (<[(x, y) := EMPTY]> (g_maze s)) (g_visited s) r2)
  else Ok (GenState (g_maze s) (g_visited s) r2).

(** The loop-injection phase, [n] iterations. *)
Fixpoint add_loops (n : nat) (width height : Z) (s : gen_state)
  : result gen_state :=
  match n with
  | O => Ok s
  | S n' => s' ← add_loop width height s; add_loops n' width height s'
  end.

(** [generate_maze(width, height, seed, loops)]: the returned maze, and the
    state in which the call leaves the global generator. *)
Definition generate_maze (fuel : nat) (width height seed loops : Z)
    (r0 : rng_state) : result (gmap (Z * Z) string * rng_state) :=
  s ← carve fuel width height seed r0;
  s' ← add_loops (Z.to_nat loops) width height s;
  Ok (g_maze s', g_rng s').
End Generator.

(** ** Path reconstruction, shared by the three solvers

    [while node: path.append(node); node = parents.get(node)] then
    [path[::-1]].  A cell is a non-empty tuple and so is true; [None] is the
    only false node. *)
Definition parents_get (parents : gmap (Z * Z) (option Cell)) (node : Cell)
  : option Cell :=
  match parents !! node with
  | Some p => p
  | None => None
  end.

Fixpoint backtrack (fuel : nat) (parents : gmap (Z * Z) (option Cell))
    (node : option Cell) (path : list Cell) : result (list Cell) :=
  match node with
  | None => Ok path
  | Some c =>
    match fuel with
    | O => OutOfFuel
    | S fuel' => backtrack fuel' parents (parents_get parents c) (path ++ [c])
    end
  end.

Definition reconstruct (fuel : nat) (parents : gmap (Z * Z) (option Cell))
    (goal : Cell) : result (list Cell) :=
  path ← backtrack fuel parents (Some goal) [];
  Ok (reverse path).

(** ** BFS and DFS *)

(** The objects a solver works on: the maze it was given, its frontier
    (the deque of [bfs], the stack of [dfs]) and the predecessor map. *)
Record search_state : Type := SearchState {
  s_maze : gmap (Z * Z) string;
  s_frontier : list Cell;
  s_parents : gmap (Z * Z) (option Cell)
}.

(** The body of [for dx, dy in ...] in [bfs] and [dfs]; both append the new
    cell at the right end of the frontier. *)
Definition expand (width height x y : Z) (d : Z * Z) (st : search_state)
  : result search_state :=
  let nx := x + d.1 in
  let ny := y + d.2 in
  if in_bounds width height (nx, ny) then
    v ← getitem (s_maze st) (nx, ny);
    if bool_decide (v ≠ WALL) && bool_decide (s_parents st !! (nx, ny) = None)
    then Ok (SearchState (s_maze st) (s_frontier st ++ [(nx, ny)])
                         (<[(nx, ny) := Some (x, y)]> (s_parents st)))
    else Ok st
  else Ok st.

(** [queue.popleft()] *)
Definition popleft (q : list Cell) : option (Cell * list Cell) :=
  match q with
  | [] => None
  | c :: q' => Some (c, q')
  end.

(** [stack.pop()] *)
Definition pop (stack : list Cell) : option (Cell * list Cell) :=
  match reverse stack with
  | [] => None
  | c :: r => Some (c, reverse r)
  end.

Fixpoint bfs_loop (fuel : nat) (width height : Z) (goal : Cell)
    (st : search_state) : result search_state :=
  match fuel with
  | O => OutOfFuel
  | S fuel' =>
    match popleft (s_frontier st) with
    | None => Ok st
    | Some ((x, y), q) =>
      let st1 := SearchState (s_maze st) q (s_parents st) in
      if bool_decide ((x, y) = goal) then Ok st1
      else st2 ← for_each dirs (expand width height x y) st1;
           bfs_loop fuel' width height goal st2
    end
  end.

(** [bfs(maze, start, goal, width, height)]: the returned path, and the maze
    object as the call leaves it. *)
Definition bfs (fuel : nat) (maze : gmap (Z * Z) string) (start goal : Cell)
    (width height : Z) : result (list Cell * gmap (Z * Z) string) :=
  st ← bfs_loop fuel width height goal
         (SearchState maze [start] {[start := None]});
  path ← reconstruct fuel (s_parents st) goal;
  Ok (path, s_maze st).

Fixpoint dfs_loop (fuel : nat) (width height : Z) (goal : Cell)
    (st : search_state) : result search_state :=
  match fuel with
  | O => OutOfFuel
  | S fuel' =>
    match pop (s_frontier st) with
    | None => Ok st
    | Some ((x, y), stack) =>
      let st1 := SearchState (s_maze st) stack (s_parents st) in
      if bool_decide ((x, y) = goal) then Ok st1
      else st2 ← for_each dirs (expand width height x y) st1;
           dfs_loop fuel' width height goal st2
    end
  end.

Definition dfs (fuel : nat) (maze : gmap (Z * Z) string) (start goal : Cell)
    (width height : Z) : result (list Cell * gmap (Z * Z) string) :=
  st ← dfs_loop fuel width height goal
         (SearchState maze [start] {[start := None]});
  path ← reconstruct fuel (s_parents st) goal;
  Ok (path, s_maze st).

(** ** A* *)

(** Python's [heapq] on a list of tuples [(f, (x, y))]: [heappush] adds an
    entry, [heappop] removes and returns the least entry in the
    lexicographic order of tuples. *)
Definition entry_lt (a b : Z * Cell) : bool :=
  (a.1 <? b.1) ||
  ((a.1 =? b.1) &&
   ((a.2.1 <? b.2.1) || ((a.2.1 =? b.2.1) && (a.2.2 <? b.2.2)))).

Fixpoint heap_min (m : Z * Cell) (l : list (Z * Cell)) : Z * Cell :=
  match l with
  | [] => m
  | e :: l' => heap_min (if entry_lt e m then e else m) l'
  end.

Fixpoint remove_one (e : Z * Cell) (l : list (Z * Cell)) : list (Z * Cell) :=
  match l with
  | [] => []
  | a :: l' => if bool_decide (a = e) then l' else a :: remove_one e l'
  end.

Definition heappop (h : list (Z * Cell)) : option ((Z * Cell) * list (Z * Cell)) :=
  match h with
  | [] => None
  | e :: l => let m := heap_min e l in Some (m, remove_one m h)
  end.

Definition heappush (h : list (Z * Cell)) (e : Z * Cell) : list (Z * Cell) :=
  h ++ [e].

Record astar_state : Type := AstarState {
  a_maze : gmap (Z * Z) string;
  a_open : list (Z * Cell);
  a_g : gmap (Z * Z) Z;
  a_parents : gmap (Z * Z) (option Cell)
}.

(** The body of [for dx, dy in ...] in [astar]. *)
Definition relax (width height : Z) (goal current : Cell) (d : Z * Z)
    (st : astar_state) : result astar_state :=
  let nx := current.1 + d.1 in
  let ny := current.2 + d.2 in
  if in_bounds width height (nx, ny) then
    v ← getitem (a_maze st) (nx, ny);
    if bool_decide (v ≠ WALL) then
      gc ← getitem (a_g st) current;
      let new_cost := gc + 1 in
      if match a_g st !! (nx, ny) with
         | None => true
         | Some old => new_cost <? old
         end
      then
        let f := new_cost + Z.abs (nx - goal.1) + Z.abs (ny - goal.2) in
        Ok (AstarState (a_maze st)
                       (heappush (a_open st) (f, (nx, ny)))
                       (<[(nx, ny) := new_cost]> (a_g st))
                       (<[(nx, ny) := Some current]> (a_parents st)))
      else Ok st
    else Ok st
  else Ok st.

Fixpoint astar_loop (fuel : nat) (width height : Z) (goal : Cell)
    (st : astar_state) : result astar_state :=
  match fuel with
  | O => OutOfFuel
  | S fuel' =>
    match heappop (a_open st) with
    | None => Ok st
    | Some ((_, current), open') =>
      let st1 := AstarState (a_maze st) open' (a_g st) (a_parents st) in
      if bool_decide (current = goal) then Ok st1
      else st2 ← for_each dirs (relax width height goal current) st1;
           astar_loop fuel' width height goal st2
    end
  end.

Definition astar (fuel : nat) (maze : gmap (Z * Z) string) (start goal : Cell)
    (width height : Z) : result (list Cell * gmap (Z * Z) string) :=
  st ← astar_loop fuel width height goal
         (AstarState maze [(0, start)] {[start := 0]} {[start := None]});
  path ← reconstruct fuel (a_parents st) goal;
  Ok (path, a_maze st).

(** ** Rendering *)

(** The text built so far and the maze object being read. *)
Record render_state : Type := RenderState {
  r_maze : gmap (Z * Z) string;
  r_grid : string
}.

(** [path and (x, y) in path]: [None] and the empty list are false. *)
Definition on_path (path : option (list Cell)) (c : Cell) : bool :=
  match path with
  | None => false
  | Some [] => false
  | Some p => bool_decide (c ∈ p)
  end.

(** The [if]/[elif] chain of the inner loop. *)
Definition render_cell (path : option (list Cell)) (start goal : option Cell)
    (y x : Z) (st : render_state) : result render_state :=
  if on_path path (x, y)
     && negb (bool_decide (Some (x, y) = start) || bool_decide (Some (x, y) = goal))
  then Ok (RenderState (r_maze st) (r_grid st +:+ PATH))
  else if bool_decide (Some (x, y) = start)
  then Ok (RenderState (r_maze st) (r_grid st +:+ START))
  else if bool_decide (Some (x, y) = goal)
  then Ok (RenderState (r_maze st) (r_grid st +:+ END))
  else
    v ← getitem (r_maze st) (x, y);
    if bool_decide (v = WALL)
    then Ok (RenderState (r_maze st) (r_grid st +:+ WALL))
    else Ok (RenderState (r_maze st) (r_grid st +:+ EMPTY)).

(** The body of [for y in range(height)]. *)
Definition render_row (width : Z) (path : option (list Cell))
    (start goal : option Cell) (y : Z) (st : render_state)
  : result render_state :=
  st' ← for_each (range width) (render_cell path start goal y) st;
  Ok (RenderState (r_maze st') (r_grid st' +:+ "
")).

(** [render_maze(maze, width, height, path, start, goal)]: the text, and the
    maze object as the call leaves it. *)
Definition render_maze (maze : gmap (Z * Z) string) (width height : Z)
    (path : option (list Cell)) (start goal : option Cell)
  : result (string * gmap (Z * Z) string) :=
  st ← for_each (range height) (render_row width path start goal)
         (RenderState maze "");
  Ok (r_grid st, r_maze st).

(** ** A concrete generator

    A linear congruential generator, to run the maze generator on concrete
    inputs. *)
Definition lcg_next (r : Z) : Z := (r * 1103515245 + 12345) mod 2147483648.

Definition lcg_randbelow (r n : Z) : Z * Z :=
  let r' := lcg_next r in ((r' / 65536) mod n, r').

Lemma lcg_randbelow_range (r n : Z) : 0 < n -> 0 <= (lcg_randbelow r n).1 < n.
Proof. intros Hn. unfold lcg_randbelow. simpl. apply Z.mod_pos_bound. lia. Qed.

#[global] Instance lcg_random : PyRandom := {|
  rng_state := Z;
  seed_state := fun seed => seed;
  randbelow := lcg_randbelow;
  randbelow_range := lcg_randbelow_range
|}.

(** * Vocabulary of the specification *)

(** A grid is dense over the rectangle when every cell of the rectangle has
    one of the two states. *)
Definition dense (maze : gmap (Z * Z) string) (width height : Z) : Prop :=
  forall c, in_bounds width height c = true ->
    maze !! c = Some WALL \/ maze !! c = Some EMPTY.

(** The weaker fact the solvers rely on: no lookup inside the rectangle fails. *)
Definition covered (maze : gmap (Z * Z) string) (width height : Z) : Prop :=
  forall c, in_bounds width height c = true -> is_Some (maze !! c).

(** Cells the solvers may enter: inside the rectangle and not [WALL]. *)
Definition passable (maze : gmap (Z * Z) string) (width height : Z) (c : Cell)
  : Prop :=
  in_bounds width height c = true /\ exists v, maze !! c = Some v /\ v <> WALL.

(** 4-directional adjacency. *)
Definition adjacent (c c' : Cell) : Prop :=
  exists d, d ∈ dirs /\ c' = (c.1 + d.1, c.2 + d.2).

(** One move of a solver. *)
Definition step (maze : gmap (Z * Z) string) (width height : Z) (c c' : Cell)
  : Prop :=
  adjacent c c' /\ passable maze width height c'.

(** Consecutive cells of a list are related by [R]. *)
Fixpoint linked (R : Cell -> Cell -> Prop) (p : list Cell) : Prop :=
  match p with
  | c :: (c' :: _) as t => R c c' /\ linked R t
  | _ => True
  end.

(** A path from [start] to [goal]: every move enters a cell of the rectangle
    that is not [WALL]. *)
Definition valid_path (maze : gmap (Z * Z) string) (width height : Z)
    (start goal : Cell) (p : list Cell) : Prop :=
  head p = Some start /\ last p = Some goal /\ linked (step maze width height) p.

Definition reachable (maze : gmap (Z * Z) string) (width height : Z)
    (start goal : Cell) : Prop :=
  exists p, valid_path maze width height start goal p.

(** No cell of the path is [WALL]. *)
Definition wall_free (maze : gmap (Z * Z) string) (p : list Cell) : Prop :=
  forall c, c ∈ p -> maze !! c <> Some WALL.

(** Walks counted by their number of moves. *)
Inductive walk (maze : gmap (Z * Z) string) (width height : Z) (start : Cell)
  : Cell -> nat -> Prop :=
  | walk_here : walk maze width height start start 0
  | walk_more c c' n :
      walk maze width height start c n ->
      step maze width height c c' ->
      walk maze width height start c' (S n).

(** The Manhattan distance of the A* heuristic. *)
Definition manhattan (c goal : Cell) : Z :=
  Z.abs (c.1 - goal.1) + Z.abs (c.2 - goal.2).

(** Fuel that is enough for [bfs] and [dfs], and for [astar]. *)
Definition search_fuel (width height : Z) : nat :=
  (Z.to_nat width * Z.to_nat height + 2)%nat.

Definition astar_fuel (width height : Z) : nat :=
  ((Z.to_nat width * Z.to_nat height + 2) *
   (Z.to_nat width * Z.to_nat height + 2))%nat.

(** *** Rendering, following the words of the specification *)

(** The symbol of a cell in the words of the specification, highest
    precedence first: start marker, goal marker, path marker, wall marker,
    empty marker. *)
Definition in_path (path : option (list Cell)) (c : Cell) : bool :=
  match path with
  | Some p => bool_decide (c ∈ p)
  | None => false
  end.

Definition spec_symbol (maze : gmap (Z * Z) string) (path : option (list Cell))
    (start goal : option Cell) (c : Cell) : string :=
  if bool_decide (Some c = start) then START
  else if bool_decide (Some c = goal) then END
  else if in_path path c then PATH
  else if bool_decide (maze !! c = Some WALL) then WALL
  else EMPTY.

(** The symbols of the grid, line by line. *)
Definition spec_rows (maze : gmap (Z * Z) string) (width height : Z)
    (path : option (list Cell)) (start goal : option Cell) : list (list string) :=
  (fun y => (fun x => spec_symbol maze path start goal (x, y)) <$> range width)
    <$> range height.

(** The text of a list of lines: the symbols of each line, then a newline. *)
Definition text_of_rows (rows : list (list string)) : string :=
  foldr (fun row text => foldr String.append "" row +:+ "
" +:+ text) "" rows.

(** *** Maze generation *)

(** Rooms are the cells of the rectangle with both coordinates odd. *)
Definition is_room (c : Cell) : bool := Z.odd c.1 && Z.odd c.2.

Definition rooms (width height : Z) : list Cell :=
  filter (fun c => is_room c = true) (cells width height).

(** The carved connectors: the [EMPTY] cells of the rectangle that are not
    rooms. *)
Definition connectors (maze : gmap (Z * Z) string) (width height : Z)
  : list Cell :=
  filter (fun c => is_room c = false /\ maze !! c = Some EMPTY)
         (cells width height).

(** Interior cells: [1 <= x <= width - 2] and [1 <= y <= height - 2]. *)
Definition interior (width height : Z) (c : Cell) : Prop :=
  1 <= c.1 <= width - 2 /\ 1 <= c.2 <= height - 2.

(** The cells on which two grids differ. *)
Definition changed_cells (maze maze' : gmap (Z * Z) string) (width height : Z)
  : list Cell :=
  filter (fun c => maze !! c <> maze' !! c) (cells width height).

(** ** Auxiliary definitions of the proofs *)

(** The cells of the rectangle as a finite set. *)
Definition cellset (width height : Z) : gset (Z * Z) :=
  list_to_set (cells width height).

(** [chain parents c l]: [l] lists [c], its predecessor, the predecessor of
    that, ..., down to a cell whose predecessor is [None]. *)
Inductive chain (parents : gmap (Z * Z) (option Cell)) : Cell -> list Cell -> Prop :=
  | chain_root c : parents !! c = Some None -> chain parents c [c]
  | chain_link c p l :
      parents !! c = Some (Some p) -> chain parents p l ->
      chain parents c (c :: l).

(** The loop of [bfs] and [dfs], over the way the frontier is popped. *)
Fixpoint search_loop (take : list Cell -> option (Cell * list Cell))
    (fuel : nat) (width height : Z) (goal : Cell) (st : search_state)
  : result search_state :=
  match fuel with
  | O => OutOfFuel
  | S fuel' =>
    match take (s_frontier st) with
    | None => Ok st
    | Some (c, rest) =>
      let st1 := SearchState (s_maze st) rest (s_parents st) in
      if bool_decide (c = goal) then Ok st1
      else st2 ← for_each dirs (expand width height c.1 c.2) st1;
           search_loop take fuel' width height goal st2
    end
  end.

(** What the proofs need of a way to pop: it removes one element. *)
Definition take_ok (take : list Cell -> option (Cell * list Cell)) : Prop :=
  forall l, match take l with
            | None => l = []
            | Some (c, rest) => l ≡ₚ c :: rest
            end.

(** A ghost level function updated at a new cell. *)
Definition set_level (lv : Cell -> nat) (n : Cell) (k : nat) : Cell -> nat :=
  fun c => if decide (c = n) then k else lv c.

(** The extra invariant of [dfs]: none. *)
Definition no_extra (lv : Cell -> nat) (done : Cell -> Prop) (cur : option Cell)
    (st : search_state) : Prop := True.

(** The cost recorded for a cell, or the bound [D] when there is none. *)
Definition pot (D : Z) (g : gmap (Z * Z) Z) (c : Cell) : Z :=
  default D (g !! c).

(** The sum of the recorded costs over a list of cells. *)
Definition potential (D : Z) (g : gmap (Z * Z) Z) (l : list Cell) : Z :=
  foldr (fun c acc => pot D g c + acc) 0 l.

(** The cells that can ever get a cost: the rectangle and the start. *)
Definition universe (width height : Z) (start : Cell) : gset (Z * Z) :=
  {[start]} ∪ cellset width height.

(** The rank that makes the predecessor map of [astar] well founded. *)
Definition cost_rank (g : gmap (Z * Z) Z) (c : Cell) : nat :=
  Z.to_nat (default 0 (g !! c)).

(** Executable checks of density and of path validity, for concrete grids. *)
Definition denseb (maze : gmap (Z * Z) string) (width height : Z) : bool :=
  forallb (fun c => bool_decide (maze !! c = Some WALL)
                    || bool_decide (maze !! c = Some EMPTY))
          (cells width height).

Definition stepb (maze : gmap (Z * Z) string) (width height : Z) (c c' : Cell)
  : bool :=
  bool_decide ((c'.1 - c.1, c'.2 - c.2) ∈ dirs) && in_bounds width height c'
  && match maze !! c' with
     | Some v => bool_decide (v <> WALL)
     | None => false
     end.

Fixpoint linkedb (R : Cell -> Cell -> bool) (p : list Cell) : bool :=
  match p with
  | c :: (c' :: _) as t => R c c' && linkedb R t
  | _ => true
  end.

Definition valid_pathb (maze : gmap (Z * Z) string) (width height : Z)
    (start goal : Cell) (p : list Cell) : bool :=
  bool_decide (head p = Some start) && bool_decide (last p = Some goal)
  && linkedb (stepb maze width height) p.

(** A 3 x 3 grid: the start in one corner, the goal in the opposite corner,
    and [WALL] everywhere else. *)
Definition walled_goal : gmap (Z * Z) string :=
  <[(2, 2) := EMPTY]> (<[(0, 0) := EMPTY]> (all_wall 3 3)).

(** A 3 x 3 grid without walls. *)
Definition open_grid : gmap (Z * Z) string :=
  foldl (fun m c => <[c := EMPTY]> m) ∅ (cells 3 3).

(** The 9 x 9 grid carved with seed 1 under the concrete generator. *)
Definition carved_grid : gmap (Z * Z) string :=
  match generate_maze 32 9 9 1 0 (0 : Z) with
  | Ok (maze, _) => maze
  | _ => ∅
  end.

(** What one run of the loop-injection phase does to the maze. *)
Definition only_opens (width height : Z) (maze maze' : gmap (Z * Z) string)
  : Prop :=
  (forall c, maze !! c = Some EMPTY -> maze' !! c = Some EMPTY) /\
  (forall c, maze' !! c <> maze !! c ->
     interior width height c /\
     maze !! c = Some WALL /\ maze' !! c = Some EMPTY).

(** The rooms inside the border. *)
Definition room_in (width height : Z) (c : Cell) : Prop :=
  Z.odd c.1 = true /\ Z.odd c.2 = true /\
  1 <= c.1 <= width - 2 /\ 1 <= c.2 <= height - 2.

(** [n] is the room two steps away from [c], and [w] the cell in between. *)
Definition two_apart (c n w : Cell) : Prop :=
  (n = (c.1, c.2 - 2) /\ w = (c.1, c.2 - 1)) \/
  (n = (c.1, c.2 + 2) /\ w = (c.1, c.2 + 1)) \/
  (n = (c.1 - 2, c.2) /\ w = (c.1 - 1, c.2)) \/
  (n = (c.1 + 2, c.2) /\ w = (c.1 + 1, c.2)).

(** Fuel that is enough for the carving phase: two units per room. *)
Definition carve_fuel (width height : Z) : nat :=
  (2 * length (rooms width height))%nat.

(** The rooms as a finite set. *)
Definition roomset (width height : Z) : gset (Z * Z) :=
  list_to_set (rooms width height).

(** *** Further vocabulary of the generator *)

(** The keys of a grid lie in the rectangle. *)
Definition keys_inside (maze : gmap (Z * Z) string) (width height : Z) : Prop :=
  forall c, is_Some (maze !! c) -> in_bounds width height c = true.

(** The cells of the outer border of the rectangle. *)
Definition on_border (width height : Z) (c : Cell) : Prop :=
  in_bounds width height c = true /\
  (c.1 = 0 \/ c.1 = width - 1 \/ c.2 = 0 \/ c.2 = height - 1).

(** *** Further vocabulary of the renderer *)

(** The cells whose state [render_maze] looks up in the maze: those that are
    not the start, not the goal and not on the path. *)
Definition looked_up (path : option (list Cell)) (start goal : option Cell)
    (c : Cell) : Prop :=
  Some c <> start /\ Some c <> goal /\ in_path path c = false.

(** ** The page

    The elements that the script writes to the page: [st.subheader] and
    [st.text]. *)
Inductive element : Type :=
  | Subheader (body : string)
  | Text (body : string).

Section Page.
Context `{PyRandom}.

(** The body of [if st.button("Generate & Solve Maze"):] for the values
    [width], [height], [loops] and [seed] of the input widgets: the elements
    written to the page in their order, and the state in which the run leaves
    the global generator.  The three solvers are handed the same maze object
    one after the other; each rendering works on a copy of it. *)
Definition generate_and_solve (fuel : nat) (width height loops seed : Z)
    (r0 : rng_state) : result (list element * rng_state) :=
  '(maze, r) ← generate_maze fuel width height seed loops r0;
  let start := (1, 1) in
  let goal := (width - 2, height - 2) in
  '(bfs_path, maze) ← bfs fuel maze start goal width height;
  '(dfs_path, maze) ← dfs fuel maze start goal width height;
  '(astar_path, maze) ← astar fuel maze start goal width height;
  '(dfs_text, _) ← render_maze maze width height (Some dfs_path)
                      (Some start) (Some goal);
  '(bfs_text, _) ← render_maze maze width height (Some bfs_path)
                      (Some start) (Some goal);
  '(astar_text, _) ← render_maze maze width height (Some astar_path)
                        (Some start) (Some goal);
  Ok ([Subheader "🟠 DFS Solution"; Text dfs_text;
       Subheader "🔵 BFS Solution"; Text bfs_text;
       Subheader "🟢 A* Solution"; Text astar_text], r).
End Page.

(** [st.slider(label, min_value, max_value, value, step)] returns one of
    [min_value], [min_value + step], ... up to [max_value]. *)
Definition slider_value (min_value max_value step v : Z) : Prop :=
  min_value <= v <= max_value /\ (v - min_value) mod step = 0.

(** The text shown for a path. *)
Definition solution_text (maze : gmap (Z * Z) string) (width height : Z)
    (p : list Cell) : string :=
  text_of_rows (spec_rows maze width height (Some p) (Some (1, 1))
                          (Some (width - 2, height - 2))).

(** The 9 x 9 grid generated with seed 1 and 40 loops under the concrete
    generator. *)
Definition looped_grid : gmap (Z * Z) string :=
  match generate_maze 32 9 9 1 40 (0 : Z) with
  | Ok (maze, _) => maze
  | _ => ∅
  end.

(** *** Paths without repeated cells *)

Definition simple_path (maze : gmap (Z * Z) string) (width height : Z)
    (a b : Cell) (p : list Cell) : Prop :=
  valid_path maze width height a b p /\ NoDup p.

(** Between two cells there is at most one path without repeated cells. *)
Definition unique_paths (maze : gmap (Z * Z) string) (width height : Z) : Prop :=
  forall a b p q, passable maze width height a ->
    simple_path maze width height a b p ->
    simple_path maze width height a b q -> p = q.

(** * Proofs *)

(** ** The result monad and [for_each] *)

Lemma bind_Ok {A B} (m : result A) (f : A -> result B) (b : B) :
  m ≫= f = Ok b -> exists a, m = Ok a /\ f a = Ok b.
Proof. destruct m as [a| |]; simpl; intros Hb; try discriminate. eauto. Qed.

(** A loop invariant indexed by the items already processed. *)
Lemma for_each_inv {A S} (P : list A -> S -> Prop) (body : A -> S -> result S)
    (l : list A) (s : S) :
  P [] s ->
  (forall pre a post s1, l = pre ++ a :: post -> P pre s1 ->
     exists s2, body a s1 = Ok s2 /\ P (pre ++ [a]) s2) ->
  exists s', for_each l body s = Ok s' /\ P l s'.
Proof.
  intros H0 Hstep.
  cut (forall post pre s1, l = pre ++ post -> P pre s1 ->
         exists s', for_each post body s1 = Ok s' /\ P l s').
  { intros Hc. apply (Hc l [] s); auto. }
  induction post as [|a post IH]; intros pre s1 Hl Hp.
  - rewrite app_nil_r in Hl. subst pre. simpl. eauto.
  - destruct (Hstep pre a post s1 Hl Hp) as (s2 & Hb & Hp2).
    simpl. rewrite Hb. simpl. apply (IH (pre ++ [a])); auto.
    rewrite <- app_assoc. exact Hl.
Qed.

(** ** Rendering *)

Lemma in_bounds_spec (width height : Z) (c : Cell) :
  in_bounds width height c = true <-> 0 <= c.1 < width /\ 0 <= c.2 < height.
Proof. unfold in_bounds. rewrite !andb_true_iff. lia. Qed.

Lemma dense_covered maze width height :
  dense maze width height -> covered maze width height.
Proof. intros Hd c Hc. destruct (Hd c Hc) as [E|E]; rewrite E; eauto. Qed.

Lemma on_path_in_path path c : on_path path c = in_path path c.
Proof.
  destruct path as [[|a p]|]; simpl; auto.
Qed.

Lemma render_cell_spec maze width height path start goal x y st :
  covered maze width height ->
  in_bounds width height (x, y) = true ->
  r_maze st = maze ->
  render_cell path start goal y x st =
    Ok (RenderState maze (r_grid st +:+ spec_symbol maze path start goal (x, y))).
Proof.
  intros Hcov Hin Hm. unfold render_cell, spec_symbol.
  rewrite on_path_in_path, Hm.
  destruct (bool_decide (Some (x, y) = start)) eqn:Es; simpl.
  { rewrite andb_false_r. reflexivity. }
  destruct (bool_decide (Some (x, y) = goal)) eqn:Eg; simpl.
  { rewrite andb_false_r. reflexivity. }
  rewrite andb_true_r.
  destruct (in_path path (x, y)); [reflexivity|].
  destruct (Hcov _ Hin) as [v Hv]. unfold getitem. rewrite Hv. simpl.
  destruct (decide (v = WALL)) as [->|Hne].
  - rewrite !bool_decide_eq_true_2 by done. reflexivity.
  - rewrite (bool_decide_eq_false_2 (v = WALL)) by done.
    rewrite bool_decide_eq_false_2 by congruence. reflexivity.
Qed.

Lemma string_app_assoc (a b c : string) : (a +:+ b) +:+ c = a +:+ (b +:+ c).
Proof.
  induction a as [|x a IH]; [reflexivity|].
  change (String x ((a +:+ b) +:+ c) = String x (a +:+ (b +:+ c))).
  by rewrite IH.
Qed.

Lemma string_app_nil_r (a : string) : a +:+ "" = a.
Proof.
  induction a as [|x a IH]; [reflexivity|].
  change (String x (a +:+ "") = String x a). by rewrite IH.
Qed.

Lemma render_cells_spec maze width height path start goal y xs :
  covered maze width height ->
  (forall x, x ∈ xs -> in_bounds width height (x, y) = true) ->
  forall st, r_maze st = maze ->
  for_each xs (render_cell path start goal y) st =
    Ok (RenderState maze
          (r_grid st +:+
           foldr String.append ""
             ((fun x => spec_symbol maze path start goal (x, y)) <$> xs))).
Proof.
  intros Hcov. induction xs as [|x xs IH]; intros Hin st Hm.
  - simpl. rewrite string_app_nil_r. destruct st; simpl in *; by subst.
  - simpl. rewrite (render_cell_spec maze width height) by (auto; apply Hin; left).
    simpl. rewrite IH; [|intros; apply Hin; by right|done].
    simpl. by rewrite string_app_assoc.
Qed.

Lemma render_row_spec maze width height path start goal y st :
  covered maze width height ->
  0 <= y < height ->
  r_maze st = maze ->
  render_row width path start goal y st =
    Ok (RenderState maze
          (r_grid st +:+
           foldr String.append ""
             ((fun x => spec_symbol maze path start goal (x, y)) <$> range width)
           +:+ "
")).
Proof.
  intros Hcov Hy Hm. unfold render_row.
  rewrite (render_cells_spec maze width height); auto.
  - simpl. by rewrite string_app_assoc.
  - intros x Hx. apply in_bounds_spec. simpl.
    apply elem_of_seqZ in Hx. lia.
Qed.

Lemma render_rows_spec maze width height path start goal ys :
  covered maze width height ->
  (forall y, y ∈ ys -> 0 <= y < height) ->
  forall st, r_maze st = maze ->
  for_each ys (render_row width path start goal) st =
    Ok (RenderState maze
          (r_grid st +:+
           text_of_rows
             ((fun y => (fun x => spec_symbol maze path start goal (x, y))
                          <$> range width) <$> ys))).
Proof.
  intros Hcov. induction ys as [|y ys IH]; intros Hin st Hm.
  - simpl. rewrite string_app_nil_r. destruct st; simpl in *; by subst.
  - cbn [for_each].
    rewrite (render_row_spec maze width height) by (auto; apply Hin; left).
    cbn [mbind result_bind].
    rewrite IH; [|intros; apply Hin; by right|done].
    cbn [r_grid fmap list_fmap text_of_rows foldr].
    by rewrite !string_app_assoc.
Qed.

(** C7.  For a dense grid, [render_maze] returns the text of [height] lines
    of [width] symbols each, every line followed by a newline, where the
    symbol of a cell is chosen by the precedence of the specification: start
    marker, goal marker, path marker (a cell of the path that is neither
    start nor goal), wall marker, empty marker. *)
Theorem render_maze_spec maze width height path start goal :
  dense maze width height ->
  exists rows,
    render_maze maze width height path start goal =
      Ok (text_of_rows rows, maze) /\
    rows = spec_rows maze width height path start goal /\
    length rows = Z.to_nat height /\
    Forall (fun row => length row = Z.to_nat width) rows /\
    forall x y, 0 <= x < width -> 0 <= y < height ->
      exists row, rows !! Z.to_nat y = Some row /\
        row !! Z.to_nat x = Some (spec_symbol maze path start goal (x, y)).
Proof.
  intros Hd. exists (spec_rows maze width height path start goal).
  split; [|split; [reflexivity|split; [|split]]].
  - unfold render_maze.
    rewrite (render_rows_spec maze width height); [reflexivity|..].
    + by apply dense_covered.
    + intros y Hy. apply elem_of_seqZ in Hy. lia.
    + reflexivity.
  - unfold spec_rows, range. by rewrite length_fmap, length_seqZ.
  - unfold spec_rows. apply Forall_fmap, Forall_forall. intros y _. simpl.
    unfold range. by rewrite length_fmap, length_seqZ.
  - intros x y Hx Hy. unfold spec_rows, range.
    eexists. rewrite list_lookup_fmap, lookup_seqZ_lt by lia. simpl.
    split; [reflexivity|].
    rewrite list_lookup_fmap, lookup_seqZ_lt by lia. simpl.
    do 3 f_equal; lia.
Qed.


(** ** The cells of the rectangle *)

Lemma elem_of_cells (width height : Z) (c : Cell) :
  c ∈ cells width height <-> in_bounds width height c = true.
Proof.
  rewrite in_bounds_spec. unfold cells, range. destruct c as [x y]. simpl.
  rewrite list_elem_of_bind. split.
  - intros (x' & Hy & Hx). apply list_elem_of_bind in Hy as (y' & Hc & Hy).
    apply list_elem_of_singleton in Hc. injection Hc as -> ->.
    apply elem_of_seqZ in Hx, Hy. lia.
  - intros [Hx Hy]. exists x. split; [|apply elem_of_seqZ; lia].
    apply list_elem_of_bind. exists y. split; [by left|apply elem_of_seqZ; lia].
Qed.

Lemma length_bind_const {A B} (f : A -> list B) (k : nat) (l : list A) :
  (forall x, length (f x) = k) -> length (l ≫= f) = (length l * k)%nat.
Proof.
  intros Hf. induction l as [|x l IH]; [reflexivity|].
  cbn [mbind list_bind]. rewrite length_app, Hf.
  change (list_bind A B f l) with (l ≫= f). rewrite IH. simpl. lia.
Qed.

Lemma length_cells (width height : Z) :
  length (cells width height) = (Z.to_nat width * Z.to_nat height)%nat.
Proof.
  unfold cells, range.
  rewrite (length_bind_const _ (Z.to_nat height)).
  - by rewrite length_seqZ.
  - intros x. rewrite (length_bind_const _ 1%nat) by done.
    rewrite length_seqZ. lia.
Qed.

Lemma NoDup_cells (width height : Z) : NoDup (cells width height).
Proof.
  unfold cells, range. apply NoDup_bind.
  - intros x1 x2 c _ _ H1 H2.
    apply list_elem_of_bind in H1 as (y1 & H1 & _).
    apply list_elem_of_bind in H2 as (y2 & H2 & _).
    apply list_elem_of_singleton in H1, H2. congruence.
  - intros x _. apply NoDup_bind.
    + intros y1 y2 c _ _ H1 H2. apply list_elem_of_singleton in H1, H2. congruence.
    + intros y _. apply NoDup_singleton.
    + apply NoDup_seqZ.
  - apply NoDup_seqZ.
Qed.

Lemma elem_of_cellset (width height : Z) (c : Cell) :
  c ∈ cellset width height <-> in_bounds width height c = true.
Proof. unfold cellset. rewrite elem_of_list_to_set. apply elem_of_cells. Qed.

Lemma size_cellset (width height : Z) :
  size (cellset width height) = (Z.to_nat width * Z.to_nat height)%nat.
Proof.
  unfold cellset. rewrite size_list_to_set by apply NoDup_cells.
  apply length_cells.
Qed.

(** ** Paths and walks *)

Lemma linked_snoc (R : Cell -> Cell -> Prop) (l : list Cell) (p c : Cell) :
  linked R l -> last l = Some p -> R p c -> linked R (l ++ [c]).
Proof.
  induction l as [|a l IH]; [discriminate|].
  destruct l as [|b l]; simpl.
  - intros _ [= ->] HR. auto.
  - intros [Hab Hl] Hlast HR. split; [exact Hab|]. apply IH; auto.
Qed.

Lemma linked_snoc_inv (R : Cell -> Cell -> Prop) (l : list Cell) (c : Cell) :
  linked R (l ++ [c]) -> l <> [] ->
  linked R l /\ exists p, last l = Some p /\ R p c.
Proof.
  induction l as [|a l IH]; [done|]. intros Hl _.
  destruct l as [|b l].
  - simpl in *. destruct Hl as [HR _]. eauto.
  - destruct Hl as [Hab Hl]. destruct (IH Hl) as (Hl' & p & Hp & HR); [done|].
    split; [split; auto|]. exists p. auto.
Qed.

Lemma walk_valid_path maze width height start c n :
  walk maze width height start c n ->
  exists p, valid_path maze width height start c p /\ length p = S n.
Proof.
  induction 1 as [|c c' n Hw (p & (Hh & Hl & Hp) & Hlen) Hs].
  - exists [start]. repeat split; done.
  - exists (p ++ [c']). split; [split; [|split]|].
    + destruct p; [done|]. exact Hh.
    + apply last_snoc.
    + eapply linked_snoc; eauto.
    + rewrite length_app. simpl. lia.
Qed.

Lemma valid_path_walk maze width height start goal p :
  valid_path maze width height start goal p ->
  walk maze width height start goal (Nat.pred (length p)).
Proof.
  revert goal. induction p as [|c l IH] using rev_ind; intros goal (Hh & Hl & Hp).
  - discriminate.
  - rewrite last_snoc in Hl. injection Hl as ->.
    destruct (decide (l = [])) as [->|Hne].
    + simpl in *. injection Hh as ->. constructor.
    + destruct (linked_snoc_inv _ _ _ Hp Hne) as (Hp' & q & Hq & HR).
      rewrite length_app. simpl. rewrite Nat.add_1_r. simpl.
      destruct l as [|a l]; [done|]. simpl length.
      eapply walk_more; [|exact HR].
      apply (IH q). repeat split; auto.
Qed.

Lemma valid_path_wall_free maze width height start goal p :
  valid_path maze width height start goal p ->
  maze !! start <> Some WALL -> wall_free maze p.
Proof.
  intros (Hh & _ & Hp) Hs. destruct p as [|a p]; [done|].
  injection Hh as ->. revert start Hs Hp.
  induction p as [|b p IH]; intros a Ha Hp c Hc.
  - apply list_elem_of_singleton in Hc. by subst.
  - destruct Hp as [[_ (_ & v & Hv & Hne)] Hp].
    apply elem_of_cons in Hc as [->|Hc]; [done|].
    apply (IH b); auto. rewrite Hv. congruence.
Qed.

(** ** Rebuilding the path from the predecessor map *)

Lemma backtrack_None fuel parents path : backtrack fuel parents None path = Ok path.
Proof. by destruct fuel. Qed.

Lemma backtrack_chain parents c l :
  chain parents c l ->
  forall fuel acc, (length l <= fuel)%nat ->
    backtrack fuel parents (Some c) acc = Ok (acc ++ l).
Proof.
  induction 1 as [c Hc|c p l Hc Hl IH]; intros fuel acc Hf;
    (destruct fuel as [|fuel]; [simpl in Hf; lia|]); simpl;
    unfold parents_get; rewrite Hc.
  - apply backtrack_None.
  - rewrite IH by (simpl in Hf; lia). by rewrite <- app_assoc.
Qed.

Lemma backtrack_unknown parents goal fuel :
  parents !! goal = None -> (1 <= fuel)%nat ->
  reconstruct fuel parents goal = Ok [goal].
Proof.
  intros Hg Hf. destruct fuel as [|fuel]; [lia|].
  unfold reconstruct. simpl. unfold parents_get. rewrite Hg.
  by rewrite backtrack_None.
Qed.

Lemma reconstruct_chain parents goal l fuel :
  chain parents goal l -> (length l <= fuel)%nat ->
  reconstruct fuel parents goal = Ok (reverse l).
Proof.
  intros Hc Hf. unfold reconstruct.
  by rewrite (backtrack_chain _ _ _ Hc).
Qed.

Lemma reconstruct_never_raises fuel parents goal e :
  reconstruct fuel parents goal <> Raise e.
Proof.
  unfold reconstruct.
  cut (forall node acc, backtrack fuel parents node acc <> Raise e).
  { intros Hc. specialize (Hc (Some goal) []).
    destruct (backtrack fuel parents (Some goal) []); simpl; congruence. }
  induction fuel as [|fuel IH]; intros [c|] acc; simpl; done.
Qed.

Lemma chain_exists (rank : Cell -> nat) (parents : gmap (Z * Z) (option Cell)) :
  (forall c p, parents !! c = Some (Some p) ->
     is_Some (parents !! p) /\ (rank p < rank c)%nat) ->
  forall c, is_Some (parents !! c) ->
    exists l, chain parents c l /\ (length l <= S (rank c))%nat.
Proof.
  intros Hlink c. remember (rank c) as n eqn:Hn.
  revert c Hn. induction n as [n IH] using lt_wf_ind. intros c -> [[p|] Hc].
  - destruct (Hlink c p Hc) as [Hp Hlt].
    destruct (IH (rank p) Hlt p eq_refl Hp) as (l & Hl & Hlen).
    exists (c :: l). split; [by eapply chain_link|]. simpl. lia.
  - exists [c]. split; [by constructor|]. simpl. lia.
Qed.

Lemma chain_valid maze width height start parents c l :
  (forall c p, parents !! c = Some (Some p) -> step maze width height p c) ->
  (forall c, parents !! c = Some None -> c = start) ->
  chain parents c l ->
  valid_path maze width height start c (reverse l).
Proof.
  intros Hstep Hroot. induction 1 as [c Hc|c p l Hc Hl (Hh & Hla & Hp)].
  - rewrite (Hroot c Hc). repeat split; done.
  - rewrite reverse_cons. split; [|split].
    + destruct (reverse l); [done|]. exact Hh.
    + apply last_snoc.
    + eapply linked_snoc; eauto.
Qed.

(** ** Graph search: what [bfs] and [dfs] share *)

Lemma bfs_loop_search fuel width height goal st :
  bfs_loop fuel width height goal st =
  search_loop popleft fuel width height goal st.
Proof.
  revert st. induction fuel as [|fuel IH]; intros st; [done|].
  cbn -[for_each dirs].
  destruct (popleft _) as [[[x y] q]|]; [|done].
  case_bool_decide; [done|].
  destruct (for_each dirs _ _); cbn -[for_each dirs]; auto.
Qed.

Lemma dfs_loop_search fuel width height goal st :
  dfs_loop fuel width height goal st =
  search_loop pop fuel width height goal st.
Proof.
  revert st. induction fuel as [|fuel IH]; intros st; [done|].
  cbn -[for_each dirs pop].
  destruct (pop _) as [[[x y] q]|]; [|done].
  case_bool_decide; [done|].
  destruct (for_each dirs _ _); cbn -[for_each dirs]; auto.
Qed.

Lemma popleft_ok : take_ok popleft.
Proof. intros [|c l]; simpl; done. Qed.

Lemma pop_ok : take_ok pop.
Proof.
  intros l. unfold pop. destruct (reverse l) as [|c r] eqn:E.
  - apply (f_equal reverse) in E. by rewrite reverse_involutive in E.
  - apply (f_equal reverse) in E. rewrite reverse_involutive, reverse_cons in E.
    subst l. by rewrite Permutation_app_comm.
Qed.

Section Search.
Variables (maze : gmap (Z * Z) string) (width height : Z) (start goal : Cell).
Hypothesis Hcov : covered maze width height.

(** The invariant of the search loops.  [lv] is the depth in the predecessor
    tree, [done] holds of the cells whose four neighbours were examined and
    [cur] is the cell under examination, if any. *)
Record tree_inv (lv : Cell -> nat) (done : Cell -> Prop) (cur : option Cell)
    (st : search_state) : Prop := TreeInv {
  ti_maze : s_maze st = maze;
  ti_start : s_parents st !! start = Some None;
  ti_lv0 : lv start = 0%nat;
  ti_root : forall c, s_parents st !! c = Some None -> c = start;
  ti_link : forall c p, s_parents st !! c = Some (Some p) ->
    is_Some (s_parents st !! p) /\ step maze width height p c /\ lv c = S (lv p);
  ti_lv : forall c, is_Some (s_parents st !! c) ->
    (lv c < size (dom (s_parents st)))%nat;
  ti_dom : forall c, is_Some (s_parents st !! c) ->
    c = start \/ in_bounds width height c = true;
  ti_front : forall c, c ∈ s_frontier st -> is_Some (s_parents st !! c);
  ti_cur : forall c, cur = Some c -> is_Some (s_parents st !! c);
  ti_cover : forall c, is_Some (s_parents st !! c) ->
    done c \/ cur = Some c \/ c ∈ s_frontier st;
  ti_done : forall c, done c -> is_Some (s_parents st !! c);
  ti_closed : forall c n, done c -> step maze width height c n ->
    is_Some (s_parents st !! n)
}.

(** The measure of the loops: cells waiting in the frontier plus cells of the
    rectangle not discovered yet. *)
Definition weight (st : search_state) : nat :=
  (length (s_frontier st) +
   size (cellset width height ∖ dom (s_parents st)))%nat.

Definition push (st : search_state) (n h : Cell) : search_state :=
  SearchState maze (s_frontier st ++ [n]) (<[n := Some h]> (s_parents st)).

Lemma expand_cases (h : Cell) (d : Z * Z) (st : search_state) :
  s_maze st = maze ->
  let n := (h.1 + d.1, h.2 + d.2) in
  (expand width height h.1 h.2 d st = Ok st /\
   (passable maze width height n -> is_Some (s_parents st !! n))) \/
  (expand width height h.1 h.2 d st = Ok (push st n h) /\
   passable maze width height n /\ s_parents st !! n = None).
Proof.
  intros Hm n. unfold expand. fold n.
  destruct (in_bounds width height n) eqn:Hin.
  2:{ left. split; [done|]. intros [Hb _]. congruence. }
  destruct (Hcov _ Hin) as [v Hv]. unfold getitem. rewrite Hm, Hv. simpl.
  destruct (decide (v = WALL)) as [->|Hne].
  { rewrite bool_decide_eq_false_2 by (intros Hn; by apply Hn). simpl.
    left. split; [done|]. intros (_ & v' & Hv' & Hne). congruence. }
  rewrite bool_decide_eq_true_2 by done. simpl.
  destruct (s_parents st !! n) as [p|] eqn:Hp.
  - rewrite bool_decide_eq_false_2 by done. left. split; [done|]. eauto.
  - rewrite bool_decide_eq_true_2 by done. right.
    split; [|split; [split; eauto|done]].
    unfold push. destruct h; reflexivity.
Qed.

Lemma step_dirs (h n : Cell) :
  step maze width height h n ->
  exists d, d ∈ dirs /\ n = (h.1 + d.1, h.2 + d.2) /\ passable maze width height n.
Proof. intros [(d & Hd & Hn) Hp]. eauto. Qed.

Lemma tree_inv_pop take lv done st c rest :
  take_ok take ->
  tree_inv lv done None st ->
  take (s_frontier st) = Some (c, rest) ->
  tree_inv lv done (Some c) (SearchState maze rest (s_parents st)) /\
  S (weight (SearchState maze rest (s_parents st))) = weight st.
Proof.
  intros Htake [Hmz Hst Hl0 Hroot Hlink Hlvb Hdom Hfront Hcur Hcover Hdone Hclosed] Ht.
  specialize (Htake (s_frontier st)). rewrite Ht in Htake.
  assert (Hmem : forall x, x ∈ s_frontier st <-> x = c \/ x ∈ rest).
  { intros x. rewrite Htake. apply elem_of_cons. }
  split.
  - constructor; simpl; auto.
    + intros x Hx. apply Hfront, Hmem. by right.
    + intros x [= ->]. apply Hfront, Hmem. by left.
    + intros x Hx. destruct (Hcover x Hx) as [?|[?|Hf]]; [by left|done|].
      apply Hmem in Hf as [->|?]; auto.
  - unfold weight. simpl. rewrite (Permutation_length Htake). simpl. lia.
Qed.

Lemma tree_inv_push lv done h st n :
  tree_inv lv done (Some h) st ->
  passable maze width height n -> adjacent h n ->
  s_parents st !! n = None ->
  tree_inv (set_level lv n (S (lv h))) done (Some h) (push st n h) /\
  weight (push st n h) = weight st.
Proof.
  intros [Hmz Hst Hl0 Hroot Hlink Hlvb Hdom Hfront Hcur Hcover Hdone Hclosed]
         Hp Ha Hn.
  assert (Hfresh : forall c, is_Some (s_parents st !! c) -> n <> c).
  { intros c [v Hv] ->. congruence. }
  assert (Hlv : forall c, is_Some (s_parents st !! c) ->
                          set_level lv n (S (lv h)) c = lv c).
  { intros c Hc. unfold set_level. rewrite decide_False; auto.
    apply not_eq_sym; auto. }
  assert (Hh : is_Some (s_parents st !! h)) by auto.
  assert (Hsize : size (dom (<[n:=Some h]> (s_parents st)))
                  = S (size (dom (s_parents st)))).
  { rewrite dom_insert_L, size_union, size_singleton; [done|].
    apply disjoint_singleton_l. by apply not_elem_of_dom. }
  split.
  - constructor; simpl.
    + done.
    + rewrite lookup_insert_ne; [done|]. apply Hfresh. eauto.
    + rewrite Hlv; eauto.
    + intros c. rewrite lookup_insert. case_decide; [done|]. auto.
    + intros c p. rewrite lookup_insert. case_decide as Hc.
      * intros [= <-]. subst c. rewrite lookup_insert_ne by (by apply Hfresh).
        split; [done|]. split; [done|].
        unfold set_level at 1. rewrite decide_True by done. by rewrite Hlv.
      * intros Hc'. destruct (Hlink c p Hc') as (Hp' & Hs & Hl).
        rewrite lookup_insert_ne by (by apply Hfresh).
        rewrite !Hlv; eauto.
    + intros c. rewrite Hsize, lookup_insert. case_decide as Hc.
      * subst c. intros _. unfold set_level. rewrite decide_True by done.
        specialize (Hlvb h Hh). lia.
      * intros Hc'. rewrite Hlv by done. specialize (Hlvb c Hc'). lia.
    + intros c. rewrite lookup_insert. case_decide as Hc; [|by auto].
      subst c. intros _. right. apply Hp.
    + intros c Hc. apply elem_of_app in Hc as [Hc|Hc].
      * rewrite lookup_insert_ne; [auto|]. apply Hfresh. auto.
      * apply list_elem_of_singleton in Hc as ->. rewrite lookup_insert_eq. eauto.
    + intros c [= ->]. rewrite lookup_insert_ne by (by apply Hfresh). done.
    + intros c. rewrite lookup_insert. case_decide as Hc.
      * subst c. intros _. right; right. apply elem_of_app. right. by left.
      * intros Hc'. destruct (Hcover c Hc') as [?|[?|?]]; auto.
        right; right. apply elem_of_app. by left.
    + intros c Hc. rewrite lookup_insert_ne; [auto|]. apply Hfresh. auto.
    + intros c n' Hc Hs. rewrite lookup_insert. case_decide; [eauto|]. eauto.
  - unfold weight, push. simpl. rewrite length_app. simpl.
    rewrite dom_insert_L.
    assert (Hin : n ∈ cellset width height ∖ dom (s_parents st)).
    { apply elem_of_difference. split.
      - apply elem_of_cellset, Hp.
      - by apply not_elem_of_dom. }
    set (X := cellset width height ∖ ({[n]} ∪ dom (s_parents st))).
    assert (HX : cellset width height ∖ dom (s_parents st) = {[n]} ∪ X).
    { clear -Hin. apply set_eq. intros x. unfold X.
      destruct (decide (x = n)); set_solver. }
    rewrite HX, size_union, size_singleton; [lia|].
    clear. unfold X. set_solver.
Qed.

Lemma tree_inv_finish lv done h st :
  tree_inv lv done (Some h) st ->
  (forall n, step maze width height h n -> is_Some (s_parents st !! n)) ->
  tree_inv lv (fun c => done c \/ c = h) None st.
Proof.
  intros [Hmz Hst Hl0 Hroot Hlink Hlvb Hdom Hfront Hcur Hcover Hdone Hclosed] Hh.
  constructor; auto.
  - done.
  - intros c Hc. destruct (Hcover c Hc) as [?|[[= ->]|?]]; auto.
  - intros c [Hc| ->]; auto.
  - intros c n [Hc| ->]; eauto.
Qed.

(** The loop, over an extra invariant [E] that a pop, a push and the end of
    an expansion preserve. *)
Section Loop.
Variable take : list Cell -> option (Cell * list Cell).
Hypothesis Htake : take_ok take.
Variable E : (Cell -> nat) -> (Cell -> Prop) -> option Cell -> search_state -> Prop.
Hypothesis E_pop : forall lv done st c rest,
  tree_inv lv done None st -> E lv done None st ->
  take (s_frontier st) = Some (c, rest) ->
  E lv done (Some c) (SearchState maze rest (s_parents st)).
Hypothesis E_push : forall lv done h st n,
  tree_inv lv done (Some h) st -> E lv done (Some h) st ->
  passable maze width height n -> adjacent h n -> s_parents st !! n = None ->
  E (set_level lv n (S (lv h))) done (Some h) (push st n h).
Hypothesis E_finish : forall lv done h st,
  tree_inv lv done (Some h) st -> E lv done (Some h) st ->
  (forall n, step maze width height h n -> is_Some (s_parents st !! n)) ->
  E lv (fun c => done c \/ c = h) None st.

(** What holds when the loop is left: the goal was popped, or the frontier
    is empty. *)
Definition search_exit (st : search_state) : Prop :=
  exists lv done cur,
    tree_inv lv done cur st /\ E lv done cur st /\
    (cur = Some goal \/ (cur = None /\ s_frontier st = [])).

Lemma expand_all lv done h st :
  tree_inv lv done (Some h) st -> E lv done (Some h) st ->
  exists st', for_each dirs (expand width height h.1 h.2) st = Ok st' /\
    weight st' = weight st /\
    exists lv', tree_inv lv' (fun c => done c \/ c = h) None st' /\
                E lv' (fun c => done c \/ c = h) None st'.
Proof.
  intros Ht He.
  destruct (for_each_inv
    (fun pre s => weight s = weight st /\
       exists lv', tree_inv lv' done (Some h) s /\ E lv' done (Some h) s /\
         forall d, d ∈ pre ->
           passable maze width height (h.1 + d.1, h.2 + d.2) ->
           is_Some (s_parents s !! (h.1 + d.1, h.2 + d.2)))
    (expand width height h.1 h.2) dirs st) as (st' & Hrun & Hw & lv' & Ht' & He' & Hall).
  - split; [done|]. exists lv. split; [done|]. split; [done|].
    intros d Hd. by apply elem_of_nil in Hd.
  - intros pre d post s1 Hdirs (Hw & lv1 & Ht1 & He1 & Hpre).
    assert (Hd : d ∈ dirs).
    { rewrite Hdirs. apply elem_of_app. right. by left. }
    destruct (expand_cases h d s1 (ti_maze _ _ _ _ Ht1))
      as [[Hx Hk]|(Hx & Hp & Hn)].
    + exists s1. split; [done|]. split; [done|]. exists lv1.
      split; [done|]. split; [done|]. intros d' Hd'.
      apply elem_of_app in Hd' as [Hd'|Hd']; [by apply Hpre|].
      apply list_elem_of_singleton in Hd' as ->. exact Hk.
    + assert (Ha : adjacent h (h.1 + d.1, h.2 + d.2)) by (exists d; auto).
      destruct (tree_inv_push _ _ _ _ _ Ht1 Hp Ha Hn) as [Ht2 Hw2].
      eexists. split; [exact Hx|]. split; [congruence|].
      eexists. split; [exact Ht2|]. split; [by apply E_push|].
      intros d' Hd' Hp'. unfold push. simpl. rewrite lookup_insert.
      case_decide; [eauto|].
      apply elem_of_app in Hd' as [Hd'|Hd']; [by apply Hpre|].
      apply list_elem_of_singleton in Hd' as ->. done.
  - exists st'. split; [done|]. split; [done|]. exists lv'.
    assert (Hcl : forall n, step maze width height h n ->
                            is_Some (s_parents st' !! n)).
    { intros n Hs. apply step_dirs in Hs as (d & Hd & -> & Hp). by apply Hall. }
    split; [by apply tree_inv_finish|by apply E_finish].
Qed.

Lemma search_loop_inv fuel : forall st lv done,
  tree_inv lv done None st -> E lv done None st ->
  match search_loop take fuel width height goal st with
  | Ok st' => search_exit st'
  | Raise _ => False
  | OutOfFuel => (fuel <= weight st)%nat
  end.
Proof.
  induction fuel as [|fuel IH]; intros st lv done Ht He; [simpl; lia|].
  cbn -[for_each dirs].
  destruct (take (s_frontier st)) as [[c rest]|] eqn:Htk.
  - destruct (tree_inv_pop take lv done st c rest Htake Ht Htk) as [Ht1 Hw1].
    pose proof (E_pop _ _ _ _ _ Ht He Htk) as He1.
    rewrite (ti_maze _ _ _ _ Ht).
    case_bool_decide as Hg.
    + subst c. exists lv, done, (Some goal). auto.
    + destruct (expand_all _ _ _ _ Ht1 He1) as (st2 & Hrun & Hw2 & lv2 & Ht2 & He2).
      rewrite Hrun. cbn -[for_each dirs]. specialize (IH st2 lv2 _ Ht2 He2).
      destruct (search_loop take fuel width height goal st2); auto. lia.
  - specialize (Htake (s_frontier st)). rewrite Htk in Htake.
    exists lv, done, None. auto.
Qed.

(** At the exit every cell that can be reached has a predecessor entry, or
    the goal has one. *)
Lemma search_exit_goal st n :
  search_exit st -> walk maze width height start goal n ->
  is_Some (s_parents st !! goal).
Proof.
  intros (lv & done & cur & Ht & _ & [->|[-> Hf]]) Hw.
  - by eapply ti_cur.
  - induction Hw as [|c c' n Hw IH Hs].
    + rewrite (ti_start _ _ _ _ Ht). eauto.
    + destruct (ti_cover _ _ _ _ Ht c IH) as [Hd|[?|Hc]]; [|done|].
      * eapply ti_closed; eauto.
      * rewrite Hf in Hc. by apply elem_of_nil in Hc.
Qed.
End Loop.
End Search.

(** ** From the exit of the loop to the returned path *)

Section Exit.
Variables (maze : gmap (Z * Z) string) (width height : Z) (start goal : Cell).

Lemma tree_inv_init :
  tree_inv maze width height start (fun _ => 0%nat) (fun _ => False) None
    (SearchState maze [start] {[start := None]}).
Proof.
  constructor; simpl; try done.
  - apply lookup_singleton_eq.
  - intros c Hc. by apply lookup_singleton_Some in Hc as [<- _].
  - intros c p Hc. apply lookup_singleton_Some in Hc as [_ [=]].
  - intros c Hc. rewrite dom_singleton_L, size_singleton. lia.
  - intros c [v Hc]. apply lookup_singleton_Some in Hc as [<- _]. by left.
  - intros c Hc. apply list_elem_of_singleton in Hc as ->.
    rewrite lookup_singleton_eq. eauto.
  - intros c [v Hc]. apply lookup_singleton_Some in Hc as [<- _].
    right; right. by left.
Qed.

Lemma weight_init :
  (weight width height (SearchState maze [start] {[start := None]})
   < search_fuel width height)%nat.
Proof.
  unfold weight, search_fuel. simpl.
  pose proof (subseteq_size (cellset width height ∖ dom ({[start := None]} : gmap (Z * Z) (option Cell)))
                (cellset width height)) as Hs.
  rewrite size_cellset in Hs. 
  assert (cellset width height ∖ dom ({[start := None]} : gmap (Z * Z) (option Cell))
          ⊆ cellset width height) as Hsub by (clear; set_solver).
  specialize (Hs Hsub). lia.
Qed.

Lemma tree_inv_size lv done cur st :
  tree_inv maze width height start lv done cur st ->
  (size (dom (s_parents st)) < search_fuel width height)%nat.
Proof.
  intros Ht. unfold search_fuel. rewrite <- size_cellset.
  assert (Hsub : dom (s_parents st) ⊆ {[start]} ∪ cellset width height).
  { intros c Hc. apply elem_of_dom in Hc.
    destruct (ti_dom _ _ _ _ _ _ _ _ Ht c Hc) as [->|Hin].
    - apply elem_of_union_l. by apply elem_of_singleton.
    - apply elem_of_union_r. by apply elem_of_cellset. }
  apply subseteq_size in Hsub.
  pose proof (size_union_alt ({[start]} : gset (Z * Z)) (cellset width height)) as Hu.
  rewrite size_singleton in Hu.
  pose proof (subseteq_size (cellset width height ∖ {[start]}) (cellset width height)) as Hd.
  assert (cellset width height ∖ {[start]} ⊆ cellset width height) as Hd'
    by (clear; set_solver).
  specialize (Hd Hd'). lia.
Qed.

Lemma tree_inv_path lv done cur st c :
  tree_inv maze width height start lv done cur st ->
  is_Some (s_parents st !! c) ->
  exists l, chain (s_parents st) c l /\ (length l <= S (lv c))%nat /\
            valid_path maze width height start c (reverse l).
Proof.
  intros Ht Hc.
  destruct (chain_exists lv (s_parents st)) with (c := c) as (l & Hl & Hlen);
    [|done|].
  { intros c' p Hp. destruct (ti_link _ _ _ _ _ _ _ _ Ht c' p Hp) as (? & ? & ?).
    split; [done|lia]. }
  exists l. split; [done|]. split; [done|].
  eapply chain_valid; [| |exact Hl].
  - intros c' p Hp. by destruct (ti_link _ _ _ _ _ _ _ _ Ht c' p Hp) as (? & ? & ?).
  - apply (ti_root _ _ _ _ _ _ _ _ Ht).
Qed.

(** The path rebuilt at the exit of a search loop. *)
Lemma tree_inv_reconstruct lv done cur st fuel :
  tree_inv maze width height start lv done cur st ->
  (search_fuel width height <= fuel)%nat ->
  (is_Some (s_parents st !! goal) \/ ~ reachable maze width height start goal) ->
  exists p, reconstruct fuel (s_parents st) goal = Ok p /\
    (~ reachable maze width height start goal -> p = [goal]) /\
    (reachable maze width height start goal ->
       valid_path maze width height start goal p /\
       (length p <= S (lv goal))%nat).
Proof.
  intros Ht Hf Hg.
  destruct (s_parents st !! goal) as [v|] eqn:Hgoal.
  - destruct (tree_inv_path lv done cur st goal Ht) as (l & Hl & Hlen & Hv);
      [by rewrite Hgoal|].
    exists (reverse l). split; [|split].
    + apply reconstruct_chain; [done|].
      pose proof (ti_lv _ _ _ _ _ _ _ _ Ht goal) as Hb.
      rewrite Hgoal in Hb. specialize (Hb (ltac:(eauto))).
      pose proof (tree_inv_size _ _ _ _ Ht). lia.
    + intros Hn. exfalso. apply Hn. by exists (reverse l).
    + intros _. split; [done|]. by rewrite length_reverse.
  - exists [goal]. split; [|split].
    + apply backtrack_unknown; [done|]. unfold search_fuel in Hf. lia.
    + done.
    + intros Hr. destruct Hg as [[? [=]]|Hn]. done.
Qed.
End Exit.

(** ** DFS *)

(** The result of a search whose pop is [take] and whose loop keeps [E]. *)
Lemma search_run take E maze width height start goal fuel :
  covered maze width height -> take_ok take ->
  (forall lv done st c rest,
     tree_inv maze width height start lv done None st -> E lv done None st ->
     take (s_frontier st) = Some (c, rest) ->
     E lv done (Some c) (SearchState maze rest (s_parents st))) ->
  (forall lv done h st n,
     tree_inv maze width height start lv done (Some h) st ->
     E lv done (Some h) st ->
     passable maze width height n -> adjacent h n -> s_parents st !! n = None ->
     E (set_level lv n (S (lv h))) done (Some h) (push maze st n h)) ->
  (forall lv done h st,
     tree_inv maze width height start lv done (Some h) st ->
     E lv done (Some h) st ->
     (forall n, step maze width height h n -> is_Some (s_parents st !! n)) ->
     E lv (fun c => done c \/ c = h) None st) ->
  E (fun _ => 0%nat) (fun _ => False) None
    (SearchState maze [start] {[start := None]}) ->
  match search_loop take fuel width height goal
          (SearchState maze [start] {[start := None]}) with
  | Ok st =>
      s_maze st = maze /\
      exists lv done cur,
        tree_inv maze width height start lv done cur st /\ E lv done cur st /\
        (cur = Some goal \/ (cur = None /\ s_frontier st = [])) /\
        (is_Some (s_parents st !! goal) \/
         ~ reachable maze width height start goal)
  | Raise _ => False
  | OutOfFuel => (fuel < search_fuel width height)%nat
  end.
Proof.
  intros Hcov Htake Hpop Hpush Hfin Hinit.
  pose proof (search_loop_inv maze width height start goal Hcov take Htake E
                Hpop Hpush Hfin fuel _ _ _
                (tree_inv_init maze width height start) Hinit) as Hrun.
  destruct (search_loop take fuel width height goal _) as [st| |]; [|done|].
  - pose proof Hrun as (lv & done & cur & Ht & He & Hex).
    split; [by eapply ti_maze|]. exists lv, done, cur.
    split; [done|]. split; [done|]. split; [done|].
    destruct (s_parents st !! goal) eqn:Hg; [left; eauto|right].
    intros (p & Hp). apply valid_path_walk in Hp.
    eapply search_exit_goal in Hrun; [|exact Hp].
    rewrite Hg in Hrun. by destruct Hrun.
  - pose proof (weight_init maze width height start). lia.
Qed.

Lemma dfs_run maze width height start goal fuel :
  covered maze width height ->
  match dfs_loop fuel width height goal
          (SearchState maze [start] {[start := None]}) with
  | Ok st =>
      s_maze st = maze /\
      exists lv done cur,
        tree_inv maze width height start lv done cur st /\
        (is_Some (s_parents st !! goal) \/
         ~ reachable maze width height start goal)
  | Raise _ => False
  | OutOfFuel => (fuel < search_fuel width height)%nat
  end.
Proof.
  intros Hcov. rewrite dfs_loop_search.
  pose proof (search_run pop no_extra maze width height start goal fuel Hcov
                pop_ok) as Hrun.
  unfold no_extra in Hrun.
  specialize (Hrun ltac:(done) ltac:(done) ltac:(done) I).
  destruct (search_loop pop fuel width height goal _) as [st| |]; [|done|done].
  destruct Hrun as (Hm & lv & done & cur & Ht & _ & _ & Hg).
  split; [done|]. by exists lv, done, cur.
Qed.

Lemma dfs_spec maze width height start goal fuel :
  covered maze width height ->
  (search_fuel width height <= fuel)%nat ->
  exists p, dfs fuel maze start goal width height = Ok (p, maze) /\
    (~ reachable maze width height start goal -> p = [goal]) /\
    (reachable maze width height start goal ->
       valid_path maze width height start goal p).
Proof.
  intros Hcov Hf. unfold dfs.
  pose proof (dfs_run maze width height start goal fuel Hcov) as Hrun.
  destruct (dfs_loop fuel width height goal _) as [st| |]; [|done|lia].
  destruct Hrun as (Hm & lv & done & cur & Ht & Hg).
  destruct (tree_inv_reconstruct maze width height start goal lv done cur st
              fuel Ht Hf Hg) as (p & Hp & Hno & Hyes).
  exists p. simpl. rewrite Hp. simpl. rewrite Hm. split; [done|].
  split; [done|]. intros Hr. by apply Hyes.
Qed.

Lemma dfs_never_raises maze width height start goal fuel e :
  covered maze width height ->
  dfs fuel maze start goal width height <> Raise e.
Proof.
  intros Hcov. unfold dfs.
  pose proof (dfs_run maze width height start goal fuel Hcov) as Hrun.
  destruct (dfs_loop fuel width height goal _) as [st| |]; [|done|done].
  simpl. pose proof (reconstruct_never_raises fuel (s_parents st) goal e).
  destruct (reconstruct fuel (s_parents st) goal); simpl; congruence.
Qed.

(** ** BFS: the levels of the queue *)

Section Bfs.
Variables (maze : gmap (Z * Z) string) (width height : Z) (start goal : Cell).

(** The queue holds cells of level [L] followed by cells of level [L + 1];
    the cells already expanded have level at most [L], and a move out of an
    expanded cell raises the level by at most one. *)
Definition bfs_extra (lv : Cell -> nat) (done : Cell -> Prop)
    (cur : option Cell) (st : search_state) : Prop :=
  (forall c n, done c -> step maze width height c n -> (lv n <= S (lv c))%nat) /\
  exists (L : nat) (A B : list Cell),
    s_frontier st = A ++ B /\
    (forall a, a ∈ A -> lv a = L) /\
    (forall b, b ∈ B -> lv b = S L) /\
    (forall c, is_Some (s_parents st !! c) -> (lv c <= S L)%nat) /\
    (forall c, done c -> (lv c <= L)%nat) /\
    (forall h, cur = Some h -> lv h = L).

Lemma bfs_extra_init :
  bfs_extra (fun _ => 0%nat) (fun _ => False) None
    (SearchState maze [start] {[start := None]}).
Proof.
  split; [done|]. exists 0%nat, [start], []. simpl.
  split; [done|]. split; [done|].
  split; [intros b Hb; by apply elem_of_nil in Hb|].
  split; [intros; lia|]. split; done.
Qed.

Lemma bfs_extra_pop lv done st c rest :
  tree_inv maze width height start lv done None st ->
  bfs_extra lv done None st ->
  popleft (s_frontier st) = Some (c, rest) ->
  bfs_extra lv done (Some c) (SearchState maze rest (s_parents st)).
Proof.
  intros Ht (Hedge & L & A & B & Hf & HA & HB & Hdom & Hdone & _) Hpop.
  split; [done|]. rewrite Hf in Hpop. simpl.
  destruct A as [|a A].
  - destruct B as [|b B]; [done|]. injection Hpop as <- <-.
    exists (S L), B, []. rewrite app_nil_r.
    split; [done|]. split; [intros x Hx; apply HB; by right|].
    split; [intros x Hx; by apply elem_of_nil in Hx|].
    split; [intros x Hx; specialize (Hdom x Hx); lia|].
    split; [intros x Hx; specialize (Hdone x Hx); lia|].
    intros h [= <-]. apply HB. by left.
  - injection Hpop as <- <-. exists L, A, B.
    split; [done|]. split; [intros x Hx; apply HA; by right|].
    split; [done|]. split; [done|]. split; [done|].
    intros h [= <-]. apply HA. by left.
Qed.

Lemma bfs_extra_push lv done h st n :
  tree_inv maze width height start lv done (Some h) st ->
  bfs_extra lv done (Some h) st ->
  passable maze width height n -> adjacent h n -> s_parents st !! n = None ->
  bfs_extra (set_level lv n (S (lv h))) done (Some h) (push maze st n h).
Proof.
  intros Ht (Hedge & L & A & B & Hf & HA & HB & Hdom & Hdone & Hcur) Hp Ha Hn.
  assert (Hlv : forall c, is_Some (s_parents st !! c) ->
                          set_level lv n (S (lv h)) c = lv c).
  { intros c [v Hc]. unfold set_level. rewrite decide_False; [done|].
    intros ->. congruence. }
  assert (HhL : lv h = L) by auto.
  split.
  - intros c n' Hc Hs.
    rewrite (Hlv c) by (by eapply ti_done).
    rewrite (Hlv n') by (by eapply ti_closed). by apply Hedge.
  - exists L, A, (B ++ [n]). simpl. rewrite Hf, <- app_assoc.
    split; [done|]. split; [|split; [|split; [|split]]].
    + intros a Ha'. rewrite Hlv; [by apply HA|].
      eapply ti_front; [done|]. rewrite Hf. apply elem_of_app. by left.
    + intros b Hb. apply elem_of_app in Hb as [Hb|Hb].
      * rewrite Hlv; [by apply HB|].
        eapply ti_front; [done|]. rewrite Hf. apply elem_of_app. by right.
      * apply list_elem_of_singleton in Hb as ->. unfold set_level.
        rewrite decide_True by done. by rewrite HhL.
    + intros c. rewrite lookup_insert. case_decide as Hc.
      * subst c. intros _. unfold set_level. rewrite decide_True by done. lia.
      * intros Hc'. rewrite Hlv by done. by apply Hdom.
    + intros c Hc. rewrite Hlv by (by eapply ti_done). by apply Hdone.
    + intros x [= <-]. rewrite Hlv by (by eapply ti_cur). done.
Qed.

Lemma bfs_extra_finish lv done h st :
  tree_inv maze width height start lv done (Some h) st ->
  bfs_extra lv done (Some h) st ->
  (forall n, step maze width height h n -> is_Some (s_parents st !! n)) ->
  bfs_extra lv (fun c => done c \/ c = h) None st.
Proof.
  intros Ht (Hedge & L & A & B & Hf & HA & HB & Hdom & Hdone & Hcur) Hcl.
  assert (HhL : lv h = L) by auto.
  split.
  - intros c n [Hc| ->] Hs; [by apply Hedge|].
    rewrite HhL. apply Hdom. by apply Hcl.
  - exists L, A, B. repeat split; auto; [|done].
    intros c [Hc| ->]; [by apply Hdone|lia].
Qed.

(** Every walk to the goal has at least as many moves as the level of the
    goal at the exit of the loop. *)
Lemma bfs_level_min lv done cur st n :
  tree_inv maze width height start lv done cur st ->
  bfs_extra lv done cur st ->
  cur = Some goal \/ (cur = None /\ s_frontier st = []) ->
  walk maze width height start goal n ->
  (lv goal <= n)%nat.
Proof.
  intros Ht (Hedge & L & A & B & Hf & HA & HB & Hdom & Hdone & Hcur) Hex Hw.
  assert (Hfront : forall c, c ∈ s_frontier st -> (L <= lv c)%nat).
  { intros c Hc. rewrite Hf in Hc. apply elem_of_app in Hc as [Hc|Hc].
    - rewrite (HA c Hc). lia.
    - rewrite (HB c Hc). lia. }
  assert (Hbelow : forall c, is_Some (s_parents st !! c) ->
                     (lv c < L)%nat \/ cur = None /\ s_frontier st = [] -> done c).
  { intros c Hc Hlt.
    destruct (ti_cover _ _ _ _ _ _ _ _ Ht c Hc) as [?|[Hc'|Hc']]; [done| |].
    - destruct Hlt as [Hlt|[Hn _]]; [|congruence].
      specialize (Hcur c Hc'). lia.
    - destruct Hlt as [Hlt|[_ Hn]].
      + specialize (Hfront c Hc'). lia.
      + rewrite Hn in Hc'. by apply elem_of_nil in Hc'. }
  assert (Hall : forall c i, walk maze width height start c i ->
            (i < L)%nat \/ cur = None /\ s_frontier st = [] ->
            is_Some (s_parents st !! c) /\ (lv c <= i)%nat).
  { intros c i Hwc. induction Hwc as [|c c' i Hwc IH Hs]; intros Hlt.
    - rewrite (ti_start _ _ _ _ _ _ _ _ Ht), (ti_lv0 _ _ _ _ _ _ _ _ Ht).
      split; [eauto|lia].
    - destruct IH as [Hc Hlv]; [destruct Hlt; [left; lia|by right]|].
      assert (Hd : done c).
      { apply Hbelow; [done|]. destruct Hlt; [left; lia|by right]. }
      split; [by eapply ti_closed|].
      specialize (Hedge c c' Hd Hs). lia. }
  destruct Hex as [Hg|Hempty].
  - specialize (Hcur goal Hg). destruct (decide (n < L)%nat) as [Hlt|]; [|lia].
    destruct (Hall goal n Hw) as [_ ?]; [by left|lia].
  - by destruct (Hall goal n Hw) as [_ ?]; [right|].
Qed.
End Bfs.

Lemma bfs_run maze width height start goal fuel :
  covered maze width height ->
  match bfs_loop fuel width height goal
          (SearchState maze [start] {[start := None]}) with
  | Ok st =>
      s_maze st = maze /\
      exists lv done cur,
        tree_inv maze width height start lv done cur st /\
        (forall n, walk maze width height start goal n -> (lv goal <= n)%nat) /\
        (is_Some (s_parents st !! goal) \/
         ~ reachable maze width height start goal)
  | Raise _ => False
  | OutOfFuel => (fuel < search_fuel width height)%nat
  end.
Proof.
  intros Hcov. rewrite bfs_loop_search.
  pose proof (search_run popleft (bfs_extra maze width height) maze width
                height start goal fuel Hcov popleft_ok
                (bfs_extra_pop maze width height start)
                (bfs_extra_push maze width height start)
                (bfs_extra_finish maze width height start)
                (bfs_extra_init maze width height start)) as Hrun.
  destruct (search_loop popleft fuel width height goal _) as [st| |]; [|done|done].
  destruct Hrun as (Hm & lv & done & cur & Ht & He & Hex & Hg).
  split; [done|]. exists lv, done, cur. split; [done|]. split; [|done].
  intros n Hw. by eapply bfs_level_min.
Qed.

Lemma bfs_spec maze width height start goal fuel :
  covered maze width height ->
  (search_fuel width height <= fuel)%nat ->
  exists p, bfs fuel maze start goal width height = Ok (p, maze) /\
    (~ reachable maze width height start goal -> p = [goal]) /\
    (reachable maze width height start goal ->
       valid_path maze width height start goal p /\
       forall q, valid_path maze width height start goal q ->
                 (length p <= length q)%nat).
Proof.
  intros Hcov Hf. unfold bfs.
  pose proof (bfs_run maze width height start goal fuel Hcov) as Hrun.
  destruct (bfs_loop fuel width height goal _) as [st| |]; [|done|lia].
  destruct Hrun as (Hm & lv & done & cur & Ht & Hmin & Hg).
  destruct (tree_inv_reconstruct maze width height start goal lv done cur st
              fuel Ht Hf Hg) as (p & Hp & Hno & Hyes).
  exists p. simpl. rewrite Hp. simpl. rewrite Hm. split; [done|].
  split; [done|]. intros Hr. destruct (Hyes Hr) as [Hv Hlen].
  split; [done|]. intros q Hq.
  pose proof (Hmin _ (valid_path_walk _ _ _ _ _ _ Hq)) as Hle.
  destruct q as [|c q]; [by destruct Hq|]. simpl in *. lia.
Qed.

Lemma bfs_never_raises maze width height start goal fuel e :
  covered maze width height ->
  bfs fuel maze start goal width height <> Raise e.
Proof.
  intros Hcov. unfold bfs.
  pose proof (bfs_run maze width height start goal fuel Hcov) as Hrun.
  destruct (bfs_loop fuel width height goal _) as [st| |]; [|done|done].
  simpl. pose proof (reconstruct_never_raises fuel (s_parents st) goal e).
  destruct (reconstruct fuel (s_parents st) goal); simpl; congruence.
Qed.

(** ** A*: the heap *)

Lemma entry_lt_le (a b : Z * Cell) :
  (if entry_lt a b then a else b).1 <= a.1 /\
  (if entry_lt a b then a else b).1 <= b.1.
Proof.
  unfold entry_lt. destruct (a.1 <? b.1) eqn:E1; simpl.
  - apply Z.ltb_lt in E1. lia.
  - apply Z.ltb_ge in E1. destruct (a.1 =? b.1) eqn:E2; simpl.
    + apply Z.eqb_eq in E2.
      destruct ((a.2.1 <? b.2.1) || (a.2.1 =? b.2.1) && (a.2.2 <? b.2.2)); lia.
    + lia.
Qed.

Lemma heap_min_in (m : Z * Cell) (l : list (Z * Cell)) : heap_min m l ∈ m :: l.
Proof.
  revert m. induction l as [|e l IH]; intros m; simpl; [by left|].
  specialize (IH (if entry_lt e m then e else m)).
  apply elem_of_cons in IH as [->|IH].
  - destruct (entry_lt e m); [right; by left|by left].
  - right. by right.
Qed.

Lemma heap_min_le_head (m : Z * Cell) (l : list (Z * Cell)) :
  (heap_min m l).1 <= m.1.
Proof.
  revert m. induction l as [|a l IH]; intros m; simpl; [lia|].
  pose proof (entry_lt_le a m) as [_ Hm]. etrans; [apply IH|done].
Qed.

Lemma heap_min_le (m : Z * Cell) (l : list (Z * Cell)) (e : Z * Cell) :
  e ∈ m :: l -> (heap_min m l).1 <= e.1.
Proof.
  revert m. induction l as [|a l IH]; intros m He; simpl.
  - apply list_elem_of_singleton in He as ->. lia.
  - pose proof (entry_lt_le a m) as [Ha Hm].
    pose proof (heap_min_le_head (if entry_lt a m then a else m) l) as Hh.
    apply elem_of_cons in He as [->|He]; [lia|].
    apply elem_of_cons in He as [->|He]; [lia|].
    apply IH. by right.
Qed.

Lemma remove_one_perm (e : Z * Cell) (l : list (Z * Cell)) :
  e ∈ l -> l ≡ₚ e :: remove_one e l.
Proof.
  induction l as [|a l IH]; intros He; [by apply elem_of_nil in He|].
  simpl. case_bool_decide as Ha; [by subst|].
  apply elem_of_cons in He as [->|He]; [done|].
  rewrite (IH He) at 1. apply Permutation_swap.
Qed.

Lemma heappop_spec (h : list (Z * Cell)) :
  match heappop h with
  | None => h = []
  | Some (m, rest) => h ≡ₚ m :: rest /\ forall e, e ∈ h -> m.1 <= e.1
  end.
Proof.
  destruct h as [|e l]; [done|]. unfold heappop. split.
  - apply remove_one_perm, heap_min_in.
  - intros e'. apply heap_min_le.
Qed.

(** ** A*: the measure of the loop *)

Lemma potential_insert_notin D g l n v :
  n ∉ l -> potential D (<[n := v]> g) l = potential D g l.
Proof.
  induction l as [|c l IH]; intros Hn; [done|]. simpl.
  apply not_elem_of_cons in Hn as [Hc Hn]. rewrite IH by done.
  unfold pot. by rewrite lookup_insert_ne.
Qed.

Lemma potential_insert D g l n v :
  NoDup l -> n ∈ l ->
  potential D (<[n := v]> g) l = potential D g l - pot D g n + v.
Proof.
  induction 1 as [|c l Hc Hl IH]; intros Hn; [by apply elem_of_nil in Hn|].
  simpl. apply elem_of_cons in Hn as [->|Hn].
  - rewrite potential_insert_notin by done.
    unfold pot at 1. rewrite lookup_insert_eq. simpl. lia.
  - rewrite IH by done. unfold pot at 1.
    rewrite lookup_insert_ne by (intros ->; done). fold (pot D g c). lia.
Qed.

Lemma potential_bounds D g l :
  (forall c, 0 <= pot D g c <= D) ->
  0 <= potential D g l <= Z.of_nat (length l) * D.
Proof.
  intros Hp. induction l as [|c l IH]; simpl; [lia|].
  specialize (Hp c). lia.
Qed.

Lemma size_universe width height start :
  (size (universe width height start) <= Z.to_nat width * Z.to_nat height + 1)%nat.
Proof.
  unfold universe. rewrite <- size_cellset.
  pose proof (size_union_alt ({[start]} : gset (Z * Z)) (cellset width height)) as Hu.
  rewrite size_singleton in Hu.
  pose proof (subseteq_size (cellset width height ∖ {[start]}) (cellset width height)) as Hd.
  assert (cellset width height ∖ {[start]} ⊆ cellset width height) as Hd'
    by (clear; set_solver).
  specialize (Hd Hd'). lia.
Qed.

(** ** A*: moves and the heuristic *)

Lemma adjacent_neq (c n : Cell) : adjacent c n -> n <> c.
Proof.
  intros (d & Hd & ->) E. destruct c as [x y]. simpl in E.
  injection E as Hx Hy.
  repeat (apply elem_of_cons in Hd as [->|Hd]; [simpl in *; lia|]).
  by apply elem_of_nil in Hd.
Qed.

Lemma adjacent_manhattan (c n goal : Cell) :
  adjacent c n -> manhattan c goal <= manhattan n goal + 1.
Proof.
  intros (d & Hd & ->). unfold manhattan. simpl.
  repeat (apply elem_of_cons in Hd as [->|Hd]; [simpl in *; lia|]).
  by apply elem_of_nil in Hd.
Qed.

Lemma walk_first maze width height c c' goal m :
  step maze width height c c' ->
  walk maze width height c' goal m ->
  walk maze width height c goal (S m).
Proof.
  intros Hs. induction 1 as [|x x' m Hw IH Hx].
  - eapply walk_more; [constructor|done].
  - eapply walk_more; [exact IH|done].
Qed.

(** The heuristic is admissible. *)
Lemma walk_manhattan maze width height c goal m :
  walk maze width height c goal m -> manhattan c goal <= Z.of_nat m.
Proof.
  induction 1 as [|x x' m Hw IH [Ha _]].
  - unfold manhattan. lia.
  - destruct Ha as (d & Hd & ->). unfold manhattan in *. simpl.
    repeat (apply elem_of_cons in Hd as [->|Hd]; [simpl in *; lia|]).
    by apply elem_of_nil in Hd.
Qed.

(** ** A*: the invariant of the loop *)

Section Astar.
Variables (maze : gmap (Z * Z) string) (width height : Z) (start goal : Cell).
Hypothesis Hcov : covered maze width height.

(** A bound no recorded cost reaches. *)
Definition cost_bound : Z := Z.of_nat (size (universe width height start)) + 1.

(** The measure: entries waiting in the heap plus the recorded costs. *)
Definition mu (st : astar_state) : Z :=
  Z.of_nat (length (a_open st)) +
  potential cost_bound (a_g st) (elements (universe width height start)).

(** All moves out of [c] lead to cells whose cost is at most [gc + 1]. *)
Definition relaxed (st : astar_state) (c : Cell) (gc : Z) : Prop :=
  forall n, step maze width height c n ->
    exists gn, a_g st !! n = Some gn /\ gn <= gc + 1.

Record astar_inv (cur : option Cell) (st : astar_state) : Prop := AstarInv {
  ai_maze : a_maze st = maze;
  ai_gstart : a_g st !! start = Some 0;
  ai_pstart : a_parents st !! start = Some None;
  ai_root : forall c, a_parents st !! c = Some None -> c = start;
  ai_same : forall c, is_Some (a_parents st !! c) <-> is_Some (a_g st !! c);
  ai_link : forall c p, a_parents st !! c = Some (Some p) ->
    step maze width height p c /\
    exists gp gc, a_g st !! p = Some gp /\ a_g st !! c = Some gc /\ gp + 1 <= gc;
  ai_pos : forall c gc, a_g st !! c = Some gc ->
    0 <= gc < Z.of_nat (size (dom (a_g st)));
  ai_dom : forall c, is_Some (a_g st !! c) ->
    c = start \/ in_bounds width height c = true;
  ai_open : forall f c, (f, c) ∈ a_open st ->
    exists gc, a_g st !! c = Some gc /\ gc <= f;
  ai_cur : forall c, cur = Some c -> is_Some (a_g st !! c);
  ai_walk : forall c gc, a_g st !! c = Some gc ->
    walk maze width height start c (Z.to_nat gc);
  ai_settled : forall c gc, a_g st !! c = Some gc ->
    (exists f, (f, c) ∈ a_open st /\ f <= gc + manhattan c goal) \/
    cur = Some c \/ relaxed st c gc
}.

(** The state after the assignments of a successful test in [relax]. *)
Definition improve (st : astar_state) (n c : Cell) (cost : Z) : astar_state :=
  AstarState maze (heappush (a_open st) (cost + manhattan n goal, n))
             (<[n := cost]> (a_g st)) (<[n := Some c]> (a_parents st)).

Lemma relax_cases (c : Cell) (gc : Z) (d : Z * Z) (st : astar_state) :
  a_maze st = maze -> a_g st !! c = Some gc ->
  let n := (c.1 + d.1, c.2 + d.2) in
  (relax width height goal c d st = Ok st /\
   (passable maze width height n ->
    exists gn, a_g st !! n = Some gn /\ gn <= gc + 1)) \/
  (relax width height goal c d st = Ok (improve st n c (gc + 1)) /\
   passable maze width height n /\
   forall old, a_g st !! n = Some old -> gc + 1 < old).
Proof.
  intros Hm Hgc n. unfold relax. fold n.
  destruct (in_bounds width height n) eqn:Hin.
  2:{ left. split; [done|]. intros [Hb _]. congruence. }
  destruct (Hcov _ Hin) as [v Hv]. unfold getitem. rewrite Hm, Hv. simpl.
  destruct (decide (v = WALL)) as [->|Hne].
  { rewrite bool_decide_eq_false_2 by (intros Hn; by apply Hn).
    left. split; [done|]. intros (_ & v' & Hv' & Hne). congruence. }
  rewrite bool_decide_eq_true_2 by done. rewrite Hgc. simpl.
  assert (Hp : passable maze width height n) by (split; eauto).
  assert (Himp : AstarState maze
            (heappush (a_open st)
               (gc + 1 + Z.abs (n.1 - goal.1) + Z.abs (n.2 - goal.2), n))
            (<[n:=gc + 1]> (a_g st)) (<[n:=Some c]> (a_parents st))
          = improve st n c (gc + 1)).
  { unfold improve, manhattan. by rewrite Z.add_assoc. }
  destruct (a_g st !! n) as [old|] eqn:Hn.
  - destruct (gc + 1 <? old) eqn:Hlt.
    + right. apply Z.ltb_lt in Hlt. split; [by rewrite <- Himp|].
      split; [done|]. intros ? [= <-]. done.
    + left. apply Z.ltb_ge in Hlt. split; [done|]. eauto.
  - right. split; [by rewrite <- Himp|]. split; [done|]. done.
Qed.

Lemma astar_inv_pop st f c rest :
  astar_inv None st ->
  heappop (a_open st) = Some ((f, c), rest) ->
  astar_inv (Some c) (AstarState maze rest (a_g st) (a_parents st)) /\
  mu (AstarState maze rest (a_g st) (a_parents st)) + 1 = mu st.
Proof.
  intros [Hmz Hgs Hps Hroot Hsame Hlink Hpos Hdom Hopen Hcur Hwalk Hset] Hpop.
  pose proof (heappop_spec (a_open st)) as Hspec. rewrite Hpop in Hspec.
  destruct Hspec as [Hperm _].
  assert (Hmem : forall e, e ∈ a_open st <-> e = (f, c) \/ e ∈ rest).
  { intros e. rewrite Hperm. apply elem_of_cons. }
  split.
  - constructor; simpl; auto.
    + intros f' c' Hin. apply Hopen, Hmem. by right.
    + intros c' [= <-]. destruct (Hopen f c) as (gc & Hgc & _).
      * apply Hmem. by left.
      * by rewrite Hgc.
    + intros c' gc Hgc. destruct (Hset c' gc Hgc) as [(f' & Hin & Hle)|[?|Hr]].
      * apply Hmem in Hin as [[= -> ->]|Hin]; [right; by left|].
        left. eauto.
      * done.
      * right; right. exact Hr.
  - unfold mu. simpl. rewrite (Permutation_length Hperm). simpl. lia.
Qed.

Lemma astar_inv_improve st c gc n :
  astar_inv (Some c) st ->
  a_g st !! c = Some gc ->
  passable maze width height n -> adjacent c n ->
  (forall old, a_g st !! n = Some old -> gc + 1 < old) ->
  astar_inv (Some c) (improve st n c (gc + 1)) /\
  mu (improve st n c (gc + 1)) <= mu st.
Proof.
  intros [Hmz Hgs Hps Hroot Hsame Hlink Hpos Hdom Hopen Hcur Hwalk Hset]
         Hgc Hp Ha Hold.
  pose proof (adjacent_neq _ _ Ha) as Hnc.
  destruct (Hpos c gc Hgc) as [Hgc0 Hgcb].
  assert (Hns : n <> start).
  { intros ->. specialize (Hold 0 Hgs). lia. }
  assert (Hle : forall x gx, a_g st !! x = Some gx ->
            exists gx', <[n := gc + 1]> (a_g st) !! x = Some gx' /\ gx' <= gx).
  { intros x gx Hx. rewrite lookup_insert. case_decide as Hxn.
    - subst x. specialize (Hold gx Hx). exists (gc + 1). split; [done|lia].
    - exists gx. split; [done|lia]. }
  assert (Hsz : (size (dom (a_g st))
                 <= size (dom (<[n := (gc + 1)%Z]> (a_g st))))%nat).
  { apply subseteq_size. rewrite dom_insert_L. clear; set_solver. }
  assert (Hnew : gc + 1 < Z.of_nat (size (dom (<[n := gc + 1]> (a_g st))))).
  { destruct (a_g st !! n) as [old|] eqn:Hn.
    - specialize (Hold old eq_refl). destruct (Hpos n old Hn). lia.
    - rewrite dom_insert_L, size_union, size_singleton; [lia|].
      apply disjoint_singleton_l. by apply not_elem_of_dom. }
  split.
  - constructor; simpl.
    + done.
    + by rewrite lookup_insert_ne.
    + by rewrite lookup_insert_ne.
    + intros x. rewrite lookup_insert. case_decide; [done|]. auto.
    + intros x. rewrite !lookup_insert. case_decide; [split; eauto|]. auto.
    + intros x p. rewrite lookup_insert. case_decide as Hx.
      * intros [= <-]. subst x. split; [done|]. exists gc, (gc + 1).
        rewrite lookup_insert_ne by done. rewrite lookup_insert_eq.
        split; [done|]. split; [done|]. lia.
      * intros Hxp. destruct (Hlink x p Hxp) as (Hs & gp & gx & Hgp & Hgx & Hl).
        split; [done|]. destruct (Hle p gp Hgp) as (gp' & Hgp' & Hl').
        exists gp', gx. split; [done|].
        rewrite lookup_insert_ne by done. split; [done|]. lia.
    + intros x gx. rewrite lookup_insert. case_decide as Hx.
      * intros [= <-]. lia.
      * intros Hgx. destruct (Hpos x gx Hgx). lia.
    + intros x. rewrite lookup_insert. case_decide as Hx; [|by auto].
      subst x. intros _. right. apply Hp.
    + intros f x Hin. unfold heappush in Hin.
      apply elem_of_app in Hin as [Hin|Hin].
      * destruct (Hopen f x Hin) as (gx & Hgx & Hl).
        destruct (Hle x gx Hgx) as (gx' & Hgx' & Hl'). exists gx'.
        split; [done|lia].
      * apply list_elem_of_singleton in Hin as [= -> ->].
        exists (gc + 1). rewrite lookup_insert_eq. split; [done|].
        unfold manhattan. lia.
    + intros x [= <-]. rewrite lookup_insert_ne by done. by rewrite Hgc.
    + intros x gx. rewrite lookup_insert. case_decide as Hx.
      * intros [= <-]. subst x.
        replace (Z.to_nat (gc + 1)) with (S (Z.to_nat gc)) by lia.
        eapply walk_more; [by apply Hwalk|]. by split.
      * by apply Hwalk.
    + intros x gx. rewrite lookup_insert. case_decide as Hx.
      * intros [= <-]. subst x. left. exists (gc + 1 + manhattan n goal).
        split; [|lia]. unfold heappush. apply elem_of_app. right. by left.
      * intros Hgx. destruct (Hset x gx Hgx) as [(f & Hin & Hl)|[?|Hr]].
        -- left. exists f. split; [|done]. unfold heappush.
           apply elem_of_app. by left.
        -- right; by left.
        -- right; right. intros m Hm. destruct (Hr m Hm) as (gm & Hgm & Hl).
           destruct (Hle m gm Hgm) as (gm' & Hgm' & Hl'). exists gm'.
           split; [done|lia].
  - unfold mu, improve. simpl. unfold heappush. rewrite length_app. simpl.
    rewrite potential_insert.
    + assert (gc + 1 < pot cost_bound (a_g st) n); [|lia].
      unfold pot. destruct (a_g st !! n) as [old|] eqn:Hn; simpl.
      * by apply Hold.
      * unfold cost_bound.
        assert ((size (dom (a_g st))
                 <= size (universe width height start))%nat); [|lia].
        apply subseteq_size. intros x Hx. apply elem_of_dom in Hx.
        unfold universe. destruct (Hdom x Hx) as [->|Hin].
        -- apply elem_of_union_l. by apply elem_of_singleton.
        -- apply elem_of_union_r. by apply elem_of_cellset.
    + apply NoDup_elements.
    + apply elem_of_elements. unfold universe. apply elem_of_union_r.
      apply elem_of_cellset, Hp.
Qed.

Lemma astar_inv_finish st c gc :
  astar_inv (Some c) st -> a_g st !! c = Some gc -> relaxed st c gc ->
  astar_inv None st.
Proof.
  intros [Hmz Hgs Hps Hroot Hsame Hlink Hpos Hdom Hopen Hcur Hwalk Hset] Hgc Hr.
  constructor; auto; [done|].
  intros x gx Hgx. destruct (Hset x gx Hgx) as [?|[[= <-]|?]]; auto.
  right; right. assert (gx = gc) as -> by congruence. done.
Qed.

Lemma relax_all st c :
  astar_inv (Some c) st ->
  exists st', for_each dirs (relax width height goal c) st = Ok st' /\
    mu st' <= mu st /\ astar_inv None st'.
Proof.
  intros Hi. destruct (ai_cur _ _ Hi c eq_refl) as [gc Hgc].
  destruct (for_each_inv
    (fun pre s => astar_inv (Some c) s /\ mu s <= mu st /\
       a_g s !! c = Some gc /\
       forall d, d ∈ pre ->
         passable maze width height (c.1 + d.1, c.2 + d.2) ->
         exists gn, a_g s !! (c.1 + d.1, c.2 + d.2) = Some gn /\ gn <= gc + 1)
    (relax width height goal c) dirs st) as (st' & Hrun & Hi' & Hmu & Hgc' & Hall).
  - split; [done|]. split; [lia|]. split; [done|].
    intros d Hd. by apply elem_of_nil in Hd.
  - intros pre d post s1 Hdirs (Hi1 & Hmu1 & Hgc1 & Hpre).
    assert (Hd : d ∈ dirs).
    { rewrite Hdirs. apply elem_of_app. right. by left. }
    destruct (relax_cases c gc d s1 (ai_maze _ _ Hi1) Hgc1)
      as [[Hx Hk]|(Hx & Hp & Hold)].
    + exists s1. split; [done|]. split; [done|]. split; [done|].
      split; [done|]. intros d' Hd'.
      apply elem_of_app in Hd' as [Hd'|Hd']; [by apply Hpre|].
      apply list_elem_of_singleton in Hd' as ->. exact Hk.
    + assert (Ha : adjacent c (c.1 + d.1, c.2 + d.2)) by (exists d; auto).
      destruct (astar_inv_improve _ _ _ _ Hi1 Hgc1 Hp Ha Hold) as [Hi2 Hmu2].
      eexists. split; [exact Hx|]. split; [done|]. split; [lia|].
      pose proof (adjacent_neq _ _ Ha) as Hne.
      split; [simpl; by rewrite lookup_insert_ne|].
      intros d' Hd' Hp'. simpl. rewrite lookup_insert.
      case_decide as Hdd; [exists (gc + 1); split; [done|lia]|].
      apply elem_of_app in Hd' as [Hd'|Hd']; [by apply Hpre|].
      apply list_elem_of_singleton in Hd' as ->. done.
  - exists st'. split; [done|]. split; [done|].
    apply (astar_inv_finish st' c gc); [done|done|].
    intros n Hs. destruct Hs as [(d & Hd & ->) Hp]. by apply Hall.
Qed.

(** Along a walk from the start towards the goal, either the cost of the
    cell reached is at most the number of moves made, or the heap holds an
    entry whose key is at most the length of the whole walk. *)
Lemma astar_frontier st c i :
  astar_inv None st ->
  walk maze width height start c i ->
  forall m, walk maze width height c goal m ->
    (exists gc, a_g st !! c = Some gc /\ gc <= Z.of_nat i) \/
    (exists f c', (f, c') ∈ a_open st /\ f <= Z.of_nat (i + m)).
Proof.
  intros Hi. induction 1 as [|c c' i Hw IH Hs]; intros m Hm.
  - left. exists 0. split; [by eapply ai_gstart|lia].
  - destruct (IH (S m) (walk_first _ _ _ _ _ _ _ Hs Hm))
      as [(gc & Hgc & Hle)|(f & x & Hin & Hle)].
    + destruct (ai_settled _ _ Hi c gc Hgc) as [(f & Hin & Hf)|[?|Hr]]; [|done|].
      * right. exists f, c. split; [done|].
        pose proof (walk_manhattan _ _ _ _ _ _ (walk_first _ _ _ _ _ _ _ Hs Hm)).
        lia.
      * left. destruct (Hr c' Hs) as (gn & Hgn & Hl). exists gn.
        split; [done|lia].
    + right. exists f, x. split; [done|lia].
Qed.

(** What holds when the loop of [astar] is left. *)
Definition astar_final (st : astar_state) : Prop :=
  (exists cur, astar_inv cur st) /\
  forall n, walk maze width height start goal n ->
    exists gg, a_g st !! goal = Some gg /\ gg <= Z.of_nat n.

Lemma astar_loop_inv fuel : forall st,
  astar_inv None st ->
  match astar_loop fuel width height goal st with
  | Ok st' => astar_final st'
  | Raise _ => False
  | OutOfFuel => Z.of_nat fuel <= mu st
  end.
Proof.
  induction fuel as [|fuel IH]; intros st Hi.
  { simpl. unfold mu.
    pose proof (potential_bounds cost_bound (a_g st)
                  (elements (universe width height start))) as [Hp _]; [|lia].
    intros c. unfold pot, cost_bound.
    destruct (a_g st !! c) as [gc|] eqn:Hgc; simpl; [|lia].
    destruct (ai_pos _ _ Hi c gc Hgc) as [? Hb].
    assert ((size (dom (a_g st))
             <= size (universe width height start))%nat); [|lia].
    apply subseteq_size. intros x Hx. apply elem_of_dom in Hx.
    unfold universe. destruct (ai_dom _ _ Hi x Hx) as [->|Hin].
    - apply elem_of_union_l. by apply elem_of_singleton.
    - apply elem_of_union_r. by apply elem_of_cellset. }
  cbn -[for_each dirs heappop].
  pose proof (heappop_spec (a_open st)) as Hspec.
  destruct (heappop (a_open st)) as [[[f c] rest]|] eqn:Hpop.
  - destruct Hspec as [Hperm Hmin].
    destruct (astar_inv_pop st f c rest Hi Hpop) as [Hi1 Hmu1].
    rewrite (ai_maze _ _ Hi).
    case_bool_decide as Hg.
    + subst c. split; [by exists (Some goal)|]. simpl.
      intros n Hw.
      destruct (ai_open _ _ Hi f goal) as (gg & Hgg & Hgf).
      { rewrite Hperm. by left. }
      exists gg. split; [done|].
      destruct (astar_frontier st goal n Hi Hw 0%nat (walk_here _ _ _ _))
        as [(gc & Hgc & Hle)|(f' & x & Hin & Hle)].
      * congruence.
      * specialize (Hmin _ Hin). simpl in Hmin. lia.
    + destruct (relax_all _ _ Hi1) as (st2 & Hrun & Hmu2 & Hi2).
      rewrite Hrun. cbn -[for_each dirs heappop]. specialize (IH st2 Hi2).
      destruct (astar_loop fuel width height goal st2); auto. lia.
  - split; [by exists None|]. intros n Hw.
    destruct (astar_frontier st goal n Hi Hw 0%nat (walk_here _ _ _ _))
      as [(gc & Hgc & Hle)|(f' & x & Hin & Hle)]; [eauto|].
    rewrite Hspec in Hin. by apply elem_of_nil in Hin.
Qed.

Lemma astar_inv_init :
  astar_inv None (AstarState maze [(0, start)] {[start := 0]} {[start := None]}).
Proof.
  constructor; simpl; try done.
  - apply lookup_singleton_eq.
  - apply lookup_singleton_eq.
  - intros c Hc. by apply lookup_singleton_Some in Hc as [<- _].
  - intros c. split; intros [v Hc];
      apply lookup_singleton_Some in Hc as [<- _];
      rewrite lookup_singleton_eq; eauto.
  - intros c p Hc. apply lookup_singleton_Some in Hc as [_ [=]].
  - intros c gc Hc. apply lookup_singleton_Some in Hc as [<- <-].
    rewrite dom_singleton_L, size_singleton. lia.
  - intros c [v Hc]. apply lookup_singleton_Some in Hc as [<- _]. by left.
  - intros f c Hin. apply list_elem_of_singleton in Hin as [= -> ->].
    exists 0. by rewrite lookup_singleton_eq.
  - intros c gc Hc. apply lookup_singleton_Some in Hc as [<- <-]. constructor.
  - intros c gc Hc. apply lookup_singleton_Some in Hc as [<- <-].
    left. exists 0. split; [by left|]. unfold manhattan. lia.
Qed.

Lemma mu_init :
  mu (AstarState maze [(0, start)] {[start := 0]} {[start := None]})
  < Z.of_nat (astar_fuel width height).
Proof.
  unfold mu. simpl.
  pose proof (potential_bounds cost_bound {[start := 0]}
                (elements (universe width height start))) as [_ Hp].
  { intros c. unfold pot, cost_bound.
    destruct (({[start := 0]} : gmap (Z * Z) Z) !! c) as [gc|] eqn:Hgc; simpl; [|lia].
    apply lookup_singleton_Some in Hgc as [_ <-].
    pose proof (Nat2Z.is_nonneg (size (universe width height start))). lia. }
  pose proof (size_universe width height start) as Hs.
  change (length (elements (universe width height start)))
    with (size (universe width height start)) in Hp.
  unfold cost_bound in Hp. unfold astar_fuel.
  set (s := size (universe width height start)) in *.
  set (N := (Z.to_nat width * Z.to_nat height)%nat) in *.
  set (P := potential _ _ _) in *.
  rewrite Nat2Z.inj_mul, Nat2Z.inj_add. simpl Z.of_nat.
  assert (0 <= Z.of_nat s <= Z.of_nat N + 1) by lia. nia.
Qed.
End Astar.

Lemma astar_inv_path maze width height start goal cur st c :
  astar_inv maze width height start goal cur st ->
  is_Some (a_parents st !! c) ->
  exists l, chain (a_parents st) c l /\
            (length l <= S (cost_rank (a_g st) c))%nat /\
            valid_path maze width height start c (reverse l).
Proof.
  intros Hi Hc.
  destruct (chain_exists (cost_rank (a_g st)) (a_parents st)) with (c := c)
    as (l & Hl & Hlen); [|done|].
  { intros c' p Hp.
    destruct (ai_link _ _ _ _ _ _ _ Hi c' p Hp) as (_ & gp & gc & Hgp & Hgc & Hle).
    split; [apply (ai_same _ _ _ _ _ _ _ Hi); by rewrite Hgp|].
    unfold cost_rank. rewrite Hgp, Hgc. simpl.
    destruct (ai_pos _ _ _ _ _ _ _ Hi p gp Hgp). lia. }
  exists l. split; [done|]. split; [done|].
  eapply chain_valid; [| |exact Hl].
  - intros c' p Hp. by destruct (ai_link _ _ _ _ _ _ _ Hi c' p Hp) as [? _].
  - apply (ai_root _ _ _ _ _ _ _ Hi).
Qed.

Lemma astar_run maze width height start goal fuel :
  covered maze width height ->
  match astar_loop fuel width height goal
          (AstarState maze [(0, start)] {[start := 0]} {[start := None]}) with
  | Ok st => astar_final maze width height start goal st
  | Raise _ => False
  | OutOfFuel => (fuel < astar_fuel width height)%nat
  end.
Proof.
  intros Hcov.
  pose proof (astar_loop_inv maze width height start goal Hcov fuel _
                (astar_inv_init maze width height start goal)) as Hrun.
  destruct (astar_loop fuel width height goal _) as [st| |]; [done|done|].
  pose proof (mu_init maze width height start). lia.
Qed.

Lemma astar_spec maze width height start goal fuel :
  covered maze width height ->
  (astar_fuel width height <= fuel)%nat ->
  exists p, astar fuel maze start goal width height = Ok (p, maze) /\
    (~ reachable maze width height start goal -> p = [goal]) /\
    (reachable maze width height start goal ->
       valid_path maze width height start goal p /\
       forall q, valid_path maze width height start goal q ->
                 (length p <= length q)%nat).
Proof.
  intros Hcov Hf. unfold astar.
  pose proof (astar_run maze width height start goal fuel Hcov) as Hrun.
  destruct (astar_loop fuel width height goal _) as [st| |]; [|done|lia].
  destruct Hrun as [[cur Hi] Hmin]. simpl.
  rewrite (ai_maze _ _ _ _ _ _ _ Hi).
  destruct (a_parents st !! goal) as [v|] eqn:Hgoal.
  - destruct (astar_inv_path _ _ _ _ _ _ _ goal Hi) as (l & Hl & Hlen & Hv);
      [by rewrite Hgoal|].
    assert (Hg : is_Some (a_g st !! goal)).
    { apply (ai_same _ _ _ _ _ _ _ Hi). by rewrite Hgoal. }
    destruct Hg as [gg Hgg]. unfold cost_rank in Hlen. rewrite Hgg in Hlen.
    simpl in Hlen. destruct (ai_pos _ _ _ _ _ _ _ Hi goal gg Hgg) as [Hg0 Hgb].
    exists (reverse l). rewrite (reconstruct_chain _ _ l).
    + simpl. split; [done|]. split.
      * intros Hn. exfalso. apply Hn. by exists (reverse l).
      * intros _. split; [done|]. intros q Hq.
        destruct (Hmin _ (valid_path_walk _ _ _ _ _ _ Hq)) as (gg' & Hgg' & Hle).
        assert (gg' = gg) as -> by congruence.
        rewrite length_reverse. destruct q as [|c q]; [by destruct Hq|].
        simpl in *. lia.
    + done.
    + assert ((size (dom (a_g st)) <= size (universe width height start))%nat).
      { apply subseteq_size. intros x Hx. apply elem_of_dom in Hx.
        unfold universe. destruct (ai_dom _ _ _ _ _ _ _ Hi x Hx) as [->|Hin].
        - apply elem_of_union_l. by apply elem_of_singleton.
        - apply elem_of_union_r. by apply elem_of_cellset. }
      pose proof (size_universe width height start).
      unfold astar_fuel in Hf. nia.
  - exists [goal]. rewrite backtrack_unknown; [|done|unfold astar_fuel in Hf; nia].
    simpl. split; [done|]. split; [done|].
    intros (q & Hq). destruct (Hmin _ (valid_path_walk _ _ _ _ _ _ Hq))
      as (gg & Hgg & _).
    assert (Hp : is_Some (a_parents st !! goal)).
    { apply (ai_same _ _ _ _ _ _ _ Hi). by rewrite Hgg. }
    rewrite Hgoal in Hp. by destruct Hp.
Qed.

Lemma astar_never_raises maze width height start goal fuel e :
  covered maze width height ->
  astar fuel maze start goal width height <> Raise e.
Proof.
  intros Hcov. unfold astar.
  pose proof (astar_run maze width height start goal fuel Hcov) as Hrun.
  destruct (astar_loop fuel width height goal _) as [st| |]; [|done|done].
  simpl. pose proof (reconstruct_never_raises fuel (a_parents st) goal e).
  destruct (reconstruct fuel (a_parents st) goal); simpl; congruence.
Qed.

(** ** Checking concrete grids and paths *)

Lemma denseb_dense maze width height :
  denseb maze width height = true -> dense maze width height.
Proof.
  unfold denseb. rewrite forallb_forall. intros Hall c Hc.
  apply elem_of_cells, list_elem_of_In in Hc. specialize (Hall c Hc).
  apply orb_true_iff in Hall as [H|H]; apply bool_decide_eq_true in H; auto.
Qed.

Lemma stepb_step maze width height c c' :
  stepb maze width height c c' = true -> step maze width height c c'.
Proof.
  unfold stepb. rewrite !andb_true_iff. intros [[Hd Hin] Hv].
  apply bool_decide_eq_true in Hd. split.
  - exists (c'.1 - c.1, c'.2 - c.2). split; [done|]. simpl.
    destruct c' as [x y]. simpl. f_equal; lia.
  - split; [done|]. destruct (maze !! c') as [v|]; [|done].
    apply bool_decide_eq_true in Hv. eauto.
Qed.

Lemma valid_pathb_sound maze width height start goal p :
  valid_pathb maze width height start goal p = true ->
  valid_path maze width height start goal p.
Proof.
  unfold valid_pathb. rewrite !andb_true_iff. intros [[Hh Hl] Hp].
  apply bool_decide_eq_true in Hh, Hl. split; [done|]. split; [done|].
  clear Hh Hl. induction p as [|c p IH]; [done|].
  destruct p as [|c' p]; [done|]. simpl in Hp.
  apply andb_true_iff in Hp as [Hs Hp]. split; [by apply stepb_step|auto].
Qed.

Lemma linked_weaken (R R' : Cell -> Cell -> Prop) (p : list Cell) :
  (forall a b, R a b -> R' a b) -> linked R p -> linked R' p.
Proof.
  intros HR. induction p as [|c p IH]; [done|].
  destruct p as [|c' p]; [done|]. intros [H1 H2]. split; auto.
Qed.

Lemma search_fuel_le_astar width height :
  (search_fuel width height <= astar_fuel width height)%nat.
Proof. unfold search_fuel, astar_fuel. nia. Qed.

(** ** The solvers: the claims of the specification *)

Lemma walled_goal_dense : dense walled_goal 3 3.
Proof. apply denseb_dense. by vm_compute. Qed.

Lemma walled_goal_bfs :
  bfs (search_fuel 3 3) walled_goal (0, 0) (2, 2) 3 3
  = Ok ([(2, 2)], walled_goal).
Proof. by vm_compute. Qed.

Lemma walled_goal_unreachable : ~ reachable walled_goal 3 3 (0, 0) (2, 2).
Proof.
  intros Hr.
  destruct (bfs_spec walled_goal 3 3 (0, 0) (2, 2) (search_fuel 3 3))
    as (p & Hp & _ & Hyes); [apply dense_covered, walled_goal_dense|done|].
  rewrite walled_goal_bfs in Hp. injection Hp as <-.
  destruct (Hyes Hr) as [(Hh & _) _]. discriminate.
Qed.

(** C1, as the specification states it, fails: on a grid whose goal is
    walled off, [bfs] returns the path [[goal]], which is not empty. *)
Lemma unreachable_goal_not_empty :
  dense walled_goal 3 3 /\
  ~ reachable walled_goal 3 3 (0, 0) (2, 2) /\
  bfs (search_fuel 3 3) walled_goal (0, 0) (2, 2) 3 3
    = Ok ([(2, 2)], walled_goal) /\
  [(2, 2)] <> ([] : list Cell).
Proof.
  split; [apply walled_goal_dense|]. split; [apply walled_goal_unreachable|].
  split; [apply walled_goal_bfs|done].
Qed.

(** C1, amended.  On a dense grid whose goal cannot be reached from the
    start, each of [bfs], [dfs] and [astar] returns the one-cell path
    [[goal]]. *)
Theorem unreachable_goal_single_cell maze width height start goal fuel fuel_a :
  dense maze width height ->
  ~ reachable maze width height start goal ->
  (search_fuel width height <= fuel)%nat ->
  (astar_fuel width height <= fuel_a)%nat ->
  bfs fuel maze start goal width height = Ok ([goal], maze) /\
  dfs fuel maze start goal width height = Ok ([goal], maze) /\
  astar fuel_a maze start goal width height = Ok ([goal], maze).
Proof.
  intros Hd Hn Hf Hfa. apply dense_covered in Hd.
  destruct (bfs_spec maze width height start goal fuel Hd Hf) as (pb & Hb & Hbn & _).
  destruct (dfs_spec maze width height start goal fuel Hd Hf) as (pd & Hdf & Hdn & _).
  destruct (astar_spec maze width height start goal fuel_a Hd Hfa) as (pa & Ha & Han & _).
  rewrite (Hbn Hn) in Hb. rewrite (Hdn Hn) in Hdf. rewrite (Han Hn) in Ha.
  done.
Qed.

Lemma unreachable_goal_single_cell_witness :
  bfs 11 walled_goal (0, 0) (2, 2) 3 3 = Ok ([(2, 2)], walled_goal) /\
  dfs 11 walled_goal (0, 0) (2, 2) 3 3 = Ok ([(2, 2)], walled_goal) /\
  astar 121 walled_goal (0, 0) (2, 2) 3 3 = Ok ([(2, 2)], walled_goal).
Proof.
  apply (unreachable_goal_single_cell walled_goal 3 3 (0, 0) (2, 2) 11 121).
  - apply denseb_dense. vm_compute. reflexivity.
  - apply walled_goal_unreachable.
  - vm_compute. lia.
  - vm_compute. lia.
Defined.

(** C2, as the specification states it, fails: on the grid whose goal is
    walled off, [dfs] returns a non-empty path that does not start at the
    start cell. *)
Lemma returned_path_not_from_start :
  dense walled_goal 3 3 /\
  exists p, dfs (search_fuel 3 3) walled_goal (0, 0) (2, 2) 3 3
              = Ok (p, walled_goal) /\
            p <> [] /\ head p <> Some (0, 0).
Proof.
  split; [apply walled_goal_dense|]. exists [(2, 2)].
  split; [by vm_compute|]. split; discriminate.
Qed.

(** C2, amended.  On a dense grid whose goal can be reached from the start,
    the paths returned by [bfs], [dfs] and [astar] start at the start, end at
    the goal, have consecutive cells that are 4-directionally adjacent, enter
    only cells of the rectangle that are not [WALL], and so contain no [WALL]
    cell when the start cell is not [WALL]. *)
Theorem returned_paths_valid maze width height start goal fuel fuel_a :
  dense maze width height ->
  reachable maze width height start goal ->
  (search_fuel width height <= fuel)%nat ->
  (astar_fuel width height <= fuel_a)%nat ->
  exists pb pd pa,
    bfs fuel maze start goal width height = Ok (pb, maze) /\
    dfs fuel maze start goal width height = Ok (pd, maze) /\
    astar fuel_a maze start goal width height = Ok (pa, maze) /\
    forall p, p ∈ [pb; pd; pa] ->
      head p = Some start /\ last p = Some goal /\
      linked adjacent p /\
      linked (step maze width height) p /\
      (maze !! start <> Some WALL -> wall_free maze p).
Proof.
  intros Hd Hr Hf Hfa. apply dense_covered in Hd.
  destruct (bfs_spec maze width height start goal fuel Hd Hf) as (pb & Hb & _ & Hby).
  destruct (dfs_spec maze width height start goal fuel Hd Hf) as (pd & Hdf & _ & Hdy).
  destruct (astar_spec maze width height start goal fuel_a Hd Hfa) as (pa & Ha & _ & Hay).
  exists pb, pd, pa. split; [done|]. split; [done|]. split; [done|].
  assert (Hall : forall p, valid_path maze width height start goal p ->
            head p = Some start /\ last p = Some goal /\
            linked adjacent p /\ linked (step maze width height) p /\
            (maze !! start <> Some WALL -> wall_free maze p)).
  { intros p Hp. pose proof Hp as (Hh & Hl & Hlk).
    split; [done|]. split; [done|]. split; [|split; [done|]].
    - eapply linked_weaken; [|exact Hlk]. by intros a b [? _].
    - by eapply valid_path_wall_free. }
  intros p Hp. apply Hall.
  apply elem_of_cons in Hp as [->|Hp]; [by apply Hby|].
  apply elem_of_cons in Hp as [->|Hp]; [by apply Hdy|].
  apply list_elem_of_singleton in Hp as ->. by apply Hay.
Qed.

Lemma open_grid_dense : dense open_grid 3 3.
Proof. apply denseb_dense. by vm_compute. Qed.

Lemma open_grid_reachable : reachable open_grid 3 3 (0, 0) (2, 2).
Proof.
  exists [(0, 0); (1, 0); (2, 0); (2, 1); (2, 2)].
  apply valid_pathb_sound. by vm_compute.
Qed.

Lemma returned_paths_valid_witness :
  exists pb pd pa,
    bfs 11 open_grid (0, 0) (2, 2) 3 3 = Ok (pb, open_grid) /\
    dfs 11 open_grid (0, 0) (2, 2) 3 3 = Ok (pd, open_grid) /\
    astar 121 open_grid (0, 0) (2, 2) 3 3 = Ok (pa, open_grid) /\
    forall p, p ∈ [pb; pd; pa] ->
      head p = Some (0, 0) /\ last p = Some (2, 2) /\
      linked adjacent p /\
      linked (step open_grid 3 3) p /\
      (open_grid !! (0, 0) <> Some WALL -> wall_free open_grid p).
Proof.
  apply (returned_paths_valid open_grid 3 3 (0, 0) (2, 2) 11 121).
  - apply denseb_dense. vm_compute. reflexivity.
  - apply open_grid_reachable.
  - vm_compute. lia.
  - vm_compute. lia.
Defined.

(** C3.  On a dense grid whose goal can be reached from the start, the path
    of [bfs] has the least number of cells among all paths from start to
    goal, the path of [astar] has the same length, and both are at most as
    long as the path of [dfs]. *)
Theorem shortest_paths maze width height start goal fuel fuel_a :
  dense maze width height ->
  reachable maze width height start goal ->
  (search_fuel width height <= fuel)%nat ->
  (astar_fuel width height <= fuel_a)%nat ->
  exists pb pd pa,
    bfs fuel maze start goal width height = Ok (pb, maze) /\
    dfs fuel maze start goal width height = Ok (pd, maze) /\
    astar fuel_a maze start goal width height = Ok (pa, maze) /\
    valid_path maze width height start goal pb /\
    (forall q, valid_path maze width height start goal q ->
               (length pb <= length q)%nat) /\
    length pa = length pb /\
    (length pb <= length pd)%nat /\ (length pa <= length pd)%nat.
Proof.
  intros Hd Hr Hf Hfa. apply dense_covered in Hd.
  destruct (bfs_spec maze width height start goal fuel Hd Hf) as (pb & Hb & _ & Hby).
  destruct (dfs_spec maze width height start goal fuel Hd Hf) as (pd & Hdf & _ & Hdy).
  destruct (astar_spec maze width height start goal fuel_a Hd Hfa) as (pa & Ha & _ & Hay).
  destruct (Hby Hr) as [Hvb Hminb]. destruct (Hay Hr) as [Hva Hmina].
  specialize (Hdy Hr).
  exists pb, pd, pa. split; [done|]. split; [done|]. split; [done|].
  split; [done|]. split; [done|].
  pose proof (Hminb pa Hva). pose proof (Hmina pb Hvb).
  pose proof (Hminb pd Hdy). pose proof (Hmina pd Hdy).
  split; [lia|]. split; done.
Qed.

Lemma shortest_paths_witness :
  exists pb pd pa,
    bfs 11 open_grid (0, 0) (2, 2) 3 3 = Ok (pb, open_grid) /\
    dfs 11 open_grid (0, 0) (2, 2) 3 3 = Ok (pd, open_grid) /\
    astar 121 open_grid (0, 0) (2, 2) 3 3 = Ok (pa, open_grid) /\
    valid_path open_grid 3 3 (0, 0) (2, 2) pb /\
    (forall q, valid_path open_grid 3 3 (0, 0) (2, 2) q ->
               (length pb <= length q)%nat) /\
    length pa = length pb /\
    (length pb <= length pd)%nat /\ (length pa <= length pd)%nat.
Proof.
  apply (shortest_paths open_grid 3 3 (0, 0) (2, 2) 11 121).
  - apply denseb_dense. vm_compute. reflexivity.
  - apply open_grid_reachable.
  - vm_compute. lia.
  - vm_compute. lia.
Defined.

(** C9.  On a dense grid no solver raises: every lookup in the maze is
    guarded by the bounds test, and the cost of the cell popped by [astar]
    is always recorded.  With enough fuel each solver returns a path. *)
Theorem solvers_never_raise maze width height start goal :
  dense maze width height ->
  (forall fuel e,
     bfs fuel maze start goal width height <> Raise e /\
     dfs fuel maze start goal width height <> Raise e /\
     astar fuel maze start goal width height <> Raise e) /\
  (forall fuel, (search_fuel width height <= fuel)%nat ->
     is_Ok (bfs fuel maze start goal width height) /\
     is_Ok (dfs fuel maze start goal width height)) /\
  (forall fuel, (astar_fuel width height <= fuel)%nat ->
     is_Ok (astar fuel maze start goal width height)).
Proof.
  intros Hd. apply dense_covered in Hd. split; [|split].
  - intros fuel e. split; [by apply bfs_never_raises|].
    split; [by apply dfs_never_raises|by apply astar_never_raises].
  - intros fuel Hf.
    destruct (bfs_spec maze width height start goal fuel Hd Hf) as (pb & Hb & _).
    destruct (dfs_spec maze width height start goal fuel Hd Hf) as (pd & Hdf & _).
    split; eexists; eauto.
  - intros fuel Hf.
    destruct (astar_spec maze width height start goal fuel Hd Hf) as (pa & Ha & _).
    eexists; eauto.
Qed.

Lemma solvers_never_raise_witness :
  (forall fuel e,
     bfs fuel walled_goal (0, 0) (2, 2) 3 3 <> Raise e /\
     dfs fuel walled_goal (0, 0) (2, 2) 3 3 <> Raise e /\
     astar fuel walled_goal (0, 0) (2, 2) 3 3 <> Raise e) /\
  (forall fuel, (search_fuel 3 3 <= fuel)%nat ->
     is_Ok (bfs fuel walled_goal (0, 0) (2, 2) 3 3) /\
     is_Ok (dfs fuel walled_goal (0, 0) (2, 2) 3 3)) /\
  (forall fuel, (astar_fuel 3 3 <= fuel)%nat ->
     is_Ok (astar fuel walled_goal (0, 0) (2, 2) 3 3)).
Proof.
  apply (solvers_never_raise walled_goal 3 3 (0, 0) (2, 2)).
  apply denseb_dense. vm_compute. reflexivity.
Defined.

Lemma bfs_frame maze width height start goal fuel p m' :
  covered maze width height ->
  bfs fuel maze start goal width height = Ok (p, m') -> m' = maze.
Proof.
  intros Hcov. unfold bfs.
  pose proof (bfs_run maze width height start goal fuel Hcov) as Hrun.
  destruct (bfs_loop fuel width height goal _) as [st| |]; [|done|done].
  destruct Hrun as [Hm _]. simpl.
  destruct (reconstruct fuel (s_parents st) goal); simpl; congruence.
Qed.

Lemma dfs_frame maze width height start goal fuel p m' :
  covered maze width height ->
  dfs fuel maze start goal width height = Ok (p, m') -> m' = maze.
Proof.
  intros Hcov. unfold dfs.
  pose proof (dfs_run maze width height start goal fuel Hcov) as Hrun.
  destruct (dfs_loop fuel width height goal _) as [st| |]; [|done|done].
  destruct Hrun as [Hm _]. simpl.
  destruct (reconstruct fuel (s_parents st) goal); simpl; congruence.
Qed.

Lemma astar_frame maze width height start goal fuel p m' :
  covered maze width height ->
  astar fuel maze start goal width height = Ok (p, m') -> m' = maze.
Proof.
  intros Hcov. unfold astar.
  pose proof (astar_run maze width height start goal fuel Hcov) as Hrun.
  destruct (astar_loop fuel width height goal _) as [st| |]; [|done|done].
  destruct Hrun as [[cur Hi] _]. simpl.
  pose proof (ai_maze _ _ _ _ _ _ _ Hi).
  destruct (reconstruct fuel (a_parents st) goal); simpl; congruence.
Qed.

(** C8.  On a dense grid the three solvers and the renderer leave the maze
    as they found it: whenever a call returns, the maze object maps every
    cell to the state it had before the call, and with enough fuel every
    call returns. *)
Theorem grid_unchanged maze width height start goal path rstart rgoal :
  dense maze width height ->
  (forall fuel p m',
     bfs fuel maze start goal width height = Ok (p, m') -> m' = maze) /\
  (forall fuel p m',
     dfs fuel maze start goal width height = Ok (p, m') -> m' = maze) /\
  (forall fuel p m',
     astar fuel maze start goal width height = Ok (p, m') -> m' = maze) /\
  (exists text,
     render_maze maze width height path rstart rgoal = Ok (text, maze)) /\
  (forall fuel, (search_fuel width height <= fuel)%nat ->
     (exists p, bfs fuel maze start goal width height = Ok (p, maze)) /\
     (exists p, dfs fuel maze start goal width height = Ok (p, maze))) /\
  (forall fuel, (astar_fuel width height <= fuel)%nat ->
     exists p, astar fuel maze start goal width height = Ok (p, maze)).
Proof.
  intros Hd. pose proof (dense_covered _ _ _ Hd) as Hcov.
  split; [intros; by eapply bfs_frame|].
  split; [intros; by eapply dfs_frame|].
  split; [intros; by eapply astar_frame|].
  split; [|split].
  - unfold render_maze.
    rewrite (render_rows_spec maze width height); [by eexists|done| |done].
    intros y Hy. apply elem_of_seqZ in Hy. lia.
  - intros fuel Hf.
    destruct (bfs_spec maze width height start goal fuel Hcov Hf) as (pb & Hb & _).
    destruct (dfs_spec maze width height start goal fuel Hcov Hf) as (pd & Hdf & _).
    eauto.
  - intros fuel Hf.
    destruct (astar_spec maze width height start goal fuel Hcov Hf) as (pa & Ha & _).
    eauto.
Qed.

Lemma grid_unchanged_witness :
  (forall fuel p m',
     bfs fuel open_grid (0, 0) (2, 2) 3 3 = Ok (p, m') -> m' = open_grid) /\
  (forall fuel p m',
     dfs fuel open_grid (0, 0) (2, 2) 3 3 = Ok (p, m') -> m' = open_grid) /\
  (forall fuel p m',
     astar fuel open_grid (0, 0) (2, 2) 3 3 = Ok (p, m') -> m' = open_grid) /\
  (exists text,
     render_maze open_grid 3 3 (Some [(0, 0); (1, 0)]) (Some (0, 0))
       (Some (2, 2)) = Ok (text, open_grid)) /\
  (forall fuel, (search_fuel 3 3 <= fuel)%nat ->
     (exists p, bfs fuel open_grid (0, 0) (2, 2) 3 3 = Ok (p, open_grid)) /\
     (exists p, dfs fuel open_grid (0, 0) (2, 2) 3 3 = Ok (p, open_grid))) /\
  (forall fuel, (astar_fuel 3 3 <= fuel)%nat ->
     exists p, astar fuel open_grid (0, 0) (2, 2) 3 3 = Ok (p, open_grid)).
Proof.
  apply (grid_unchanged open_grid 3 3 (0, 0) (2, 2)).
  apply denseb_dense. vm_compute. reflexivity.
Defined.

Lemma render_maze_spec_witness :
  exists rows,
    render_maze open_grid 3 3 (Some [(0, 0); (1, 0)]) (Some (0, 0))
      (Some (2, 2)) = Ok (text_of_rows rows, open_grid) /\
    rows = spec_rows open_grid 3 3 (Some [(0, 0); (1, 0)]) (Some (0, 0))
             (Some (2, 2)) /\
    length rows = Z.to_nat 3 /\
    Forall (fun row => length row = Z.to_nat 3) rows /\
    forall x y, 0 <= x < 3 -> 0 <= y < 3 ->
      exists row, rows !! Z.to_nat y = Some row /\
        row !! Z.to_nat x =
          Some (spec_symbol open_grid (Some [(0, 0); (1, 0)]) (Some (0, 0))
                  (Some (2, 2)) (x, y)).
Proof.
  apply (render_maze_spec open_grid 3 3).
  apply denseb_dense. vm_compute. reflexivity.
Defined.

(** * The maze generator *)

(** ** Counting with filters *)

Lemma filter_length_ext {A} (P Q : A -> Prop) `{!forall x, Decision (P x)}
    `{!forall x, Decision (Q x)} (l : list A) :
  (forall c, c ∈ l -> (P c <-> Q c)) ->
  length (filter P l) = length (filter Q l).
Proof.
  induction l as [|a l IH]; intros Hpq; [done|].
  rewrite !filter_cons.
  assert (Ha : P a <-> Q a) by (apply Hpq; left).
  assert (Hl : length (filter P l) = length (filter Q l)).
  { apply IH. intros c Hc. apply Hpq. by right. }
  destruct (decide (P a)), (decide (Q a)); simpl; tauto || lia.
Qed.

Lemma filter_length_add {A} (P Q : A -> Prop) `{!forall x, Decision (P x)}
    `{!forall x, Decision (Q x)} (l : list A) (k : A) :
  NoDup l -> k ∈ l -> ~ P k -> Q k ->
  (forall c, c <> k -> (P c <-> Q c)) ->
  length (filter Q l) = S (length (filter P l)).
Proof.
  intros Hnd Hk HP HQ Hpq. induction Hnd as [|a l Ha Hnd IH];
    [by apply elem_of_nil in Hk|].
  rewrite !filter_cons. apply elem_of_cons in Hk as [<-|Hk].
  - rewrite (decide_True (P := Q k)), (decide_False (P := P k)) by done.
    simpl. f_equal.
    symmetry. apply filter_length_ext. intros c Hc. apply Hpq.
    intros ->. done.
  - specialize (IH Hk). assert (a <> k) by (intros ->; done).
    destruct (Hpq a ltac:(done)).
    destruct (decide (P a)), (decide (Q a)); simpl; tauto || lia.
Qed.

Lemma filter_none {A} (P : A -> Prop) `{!forall x, Decision (P x)} (l : list A) :
  (forall c, c ∈ l -> ~ P c) -> filter P l = [].
Proof.
  induction l as [|a l IH]; intros Hn; [done|].
  rewrite filter_cons, decide_False by (apply Hn; left).
  apply IH. intros c Hc. apply Hn. by right.
Qed.

Lemma filter_length_le_one {A} (P : A -> Prop) `{!forall x, Decision (P x)}
    (l : list A) (k : A) :
  NoDup l -> (forall c, c ∈ l -> P c -> c = k) ->
  (length (filter P l) <= 1)%nat.
Proof.
  intros Hnd Hk. induction Hnd as [|a l Ha Hnd IH]; [simpl; lia|].
  rewrite filter_cons. destruct (decide (P a)) as [Hp|Hp]; simpl.
  - assert (a = k) as -> by (apply Hk; [left|done]).
    assert (Hnone : filter P l = []); [|rewrite Hnone; simpl; lia].
    apply filter_none. intros c Hc Hpc.
    assert (c = k) as -> by (apply Hk; [by right|done]). done.
  - apply IH. intros c Hc. apply Hk. by right.
Qed.

Lemma filter_length_or {A} (P Q R : A -> Prop) `{!forall x, Decision (P x)}
    `{!forall x, Decision (Q x)} `{!forall x, Decision (R x)} (l : list A) :
  (forall c, c ∈ l -> R c -> P c \/ Q c) ->
  (length (filter R l) <= length (filter P l) + length (filter Q l))%nat.
Proof.
  induction l as [|a l IH]; intros Hr; [simpl; lia|].
  rewrite !filter_cons.
  assert (Hl : (length (filter R l)
                <= length (filter P l) + length (filter Q l))%nat).
  { apply IH. intros c Hc. apply Hr. by right. }
  specialize (Hr a ltac:(left)).
  destruct (decide (R a)), (decide (P a)), (decide (Q a)); simpl; try lia.
  tauto.
Qed.

(** ** The random choices *)

Section RandomFacts.
Context `{PyRandom}.

Lemma choice_Ok {A} (r : rng_state) (seq : list A) :
  seq <> [] -> exists a r', choice r seq = Ok (a, r') /\ a ∈ seq.
Proof.
  intros Hne. unfold choice. destruct seq as [|a0 seq0] eqn:E; [done|].
  rewrite <- E in *. clear E.
  pose proof (randbelow_range r (Z.of_nat (length seq))) as Hr.
  destruct (randbelow r (Z.of_nat (length seq))) as [i r'] eqn:Ei.
  simpl in Hr. assert (Hlen : 0 < Z.of_nat (length seq)).
  { destruct seq; [done|]. simpl. lia. }
  specialize (Hr Hlen).
  destruct (lookup_lt_is_Some_2 seq (Z.to_nat i)) as [a Ha]; [lia|].
  rewrite Ha. exists a, r'. split; [done|]. by eapply list_elem_of_lookup_2.
Qed.

Lemma randrange_Ok (r : rng_state) (start stop : Z) :
  start < stop ->
  exists v r', randrange r start stop = Ok (v, r') /\ start <= v < stop.
Proof.
  intros Hlt. unfold randrange. rewrite bool_decide_eq_true_2 by lia.
  pose proof (randbelow_range r (stop - start)) as Hr.
  destruct (randbelow r (stop - start)) as [i r'].
  simpl in Hr. exists (start + i), r'. split; [done|lia].
Qed.

Lemma randrange_inv (r : rng_state) (start stop v : Z) (r' : rng_state) :
  randrange r start stop = Ok (v, r') -> start <= v < stop.
Proof.
  unfold randrange. case_bool_decide as Hlt; [|done].
  pose proof (randbelow_range r (stop - start)) as Hr.
  destruct (randbelow r (stop - start)) as [i r''].
  simpl in Hr. intros [= <- <-]. lia.
Qed.

(** ** Loop injection *)

Lemma add_loop_spec width height s s' :
  add_loop width height s = Ok s' ->
  only_opens width height (g_maze s) (g_maze s') /\
  g_visited s' = g_visited s /\
  exists k, forall c, g_maze s' !! c <> g_maze s !! c -> c = k.
Proof.
  unfold add_loop. intros Hrun.
  apply bind_Ok in Hrun as ([x r1] & Hx & Hrun).
  apply bind_Ok in Hrun as ([y r2] & Hy & Hrun).
  apply bind_Ok in Hrun as (v & Hv & Hrun).
  apply randrange_inv in Hx, Hy.
  unfold getitem in Hv. destruct (g_maze s !! (x, y)) as [v'|] eqn:Hxy; [|done].
  injection Hv as ->.
  case_bool_decide as Hw; injection Hrun as <-; simpl.
  - subst v. split; [split|].
    + intros c Hc. rewrite lookup_insert. case_decide; [done|done].
    + intros c. rewrite lookup_insert. case_decide as Hc; [|done].
      subst c. intros _. split; [|done]. unfold interior. simpl. lia.
    + split; [done|]. exists (x, y). intros c. rewrite lookup_insert.
      case_decide; [done|done].
  - split; [split; [done|done]|]. split; [done|]. exists (x, y). done.
Qed.

Lemma only_opens_trans width height m1 m2 m3 :
  only_opens width height m1 m2 -> only_opens width height m2 m3 ->
  only_opens width height m1 m3.
Proof.
  intros [He1 Hc1] [He2 Hc2]. split; [auto|].
  intros c Hc. destruct (decide (m2 !! c = m1 !! c)) as [E|E].
  - rewrite <- E in *. by apply Hc2.
  - destruct (Hc1 c E) as (Hi & Hw & He). split; [done|]. split; [done|].
    auto.
Qed.

Lemma add_loops_spec n width height s s' :
  add_loops n width height s = Ok s' ->
  only_opens width height (g_maze s) (g_maze s') /\
  g_visited s' = g_visited s /\
  (length (changed_cells (g_maze s) (g_maze s') width height) <= n)%nat.
Proof.
  revert s. induction n as [|n IH]; intros s Hrun.
  - injection Hrun as <-. split; [split; [done|done]|]. split; [done|].
    unfold changed_cells.
    rewrite filter_none; [simpl; lia|]. intros c _ Hc. by apply Hc.
  - simpl in Hrun. apply bind_Ok in Hrun as (s1 & H1 & Hrun).
    destruct (add_loop_spec _ _ _ _ H1) as (Ho1 & Hv1 & k & Hk).
    destruct (IH _ Hrun) as (Ho2 & Hv2 & Hlen).
    split; [by eapply only_opens_trans|]. split; [congruence|].
    unfold changed_cells in *.
    pose proof (filter_length_or
      (fun c => g_maze s !! c <> g_maze s1 !! c)
      (fun c => g_maze s1 !! c <> g_maze s' !! c)
      (fun c => g_maze s !! c <> g_maze s' !! c)
      (cells width height)) as Hor.
    pose proof (filter_length_le_one
      (fun c => g_maze s !! c <> g_maze s1 !! c)
      (cells width height) k (NoDup_cells width height)) as Hone.
    assert ((length (filter (fun c => g_maze s !! c <> g_maze s1 !! c)
                       (cells width height)) <= 1)%nat).
    { apply Hone. intros c _ Hc. apply Hk. congruence. }
    assert ((length (filter (fun c => g_maze s !! c <> g_maze s' !! c)
                       (cells width height))
             <= length (filter (fun c => g_maze s !! c <> g_maze s1 !! c)
                       (cells width height))
              + length (filter (fun c => g_maze s1 !! c <> g_maze s' !! c)
                       (cells width height)))%nat).
    { apply Hor. intros c _ Hc.
      destruct (decide (g_maze s !! c = g_maze s1 !! c)) as [E|E]; [|by left].
      right. congruence. }
    lia.
Qed.

Lemma add_loops_total n width height s :
  covered (g_maze s) width height -> 3 <= width -> 3 <= height ->
  exists s', add_loops n width height s = Ok s'.
Proof.
  revert s. induction n as [|n IH]; intros s Hcov Hw Hh; [by eexists|].
  simpl. unfold add_loop.
  destruct (randrange_Ok (g_rng s) 1 (width - 1)) as (x & r1 & Hx & Hxr); [lia|].
  destruct (randrange_Ok r1 1 (height - 1)) as (y & r2 & Hy & Hyr); [lia|].
  rewrite Hx. simpl. rewrite Hy. simpl.
  destruct (Hcov (x, y)) as [v Hv].
  { apply in_bounds_spec. simpl. lia. }
  unfold getitem. rewrite Hv. simpl.
  case_bool_decide; simpl; apply IH; simpl; auto.
  intros c Hc. rewrite lookup_insert. case_decide; [eauto|auto].
Qed.

(** ** Fuel: more is as good *)

Lemma visit_fuel_mono width height fuel :
  (forall x y s s', visit fuel width height x y s = Ok s' ->
     forall fuel', (fuel <= fuel')%nat ->
       visit fuel' width height x y s = Ok s') /\
  (forall x y s s', visit_while fuel width height x y s = Ok s' ->
     forall fuel', (fuel <= fuel')%nat ->
       visit_while fuel' width height x y s = Ok s').
Proof.
  induction fuel as [|fuel [IHv IHw]]; [split; intros; done|].
  split; intros x y s s' Hrun [|fuel'] Hle; try lia.
  - simpl in *. apply IHw with (fuel' := fuel') in Hrun; [done|lia].
  - simpl in *. destruct (neighbors_of width height x y (g_visited s)); [done|].
    apply bind_Ok in Hrun as ([[[[nx ny] wx] wy] r] & Hc & Hrun).
    apply bind_Ok in Hrun as (s1 & H1 & Hrun).
    rewrite Hc. simpl.
    rewrite (IHv _ _ _ _ H1 fuel') by lia. simpl.
    apply IHw; [done|lia].
Qed.

Lemma carve_fuel_mono width height seed r0 fuel fuel' s :
  carve fuel width height seed r0 = Ok s -> (fuel <= fuel')%nat ->
  carve fuel' width height seed r0 = Ok s.
Proof.
  unfold carve. intros Hrun Hle.
  by apply (proj1 (visit_fuel_mono width height fuel) _ _ _ _ Hrun).
Qed.

Lemma generate_maze_fuel_mono width height seed loops r0 fuel fuel' m :
  generate_maze fuel width height seed loops r0 = Ok m -> (fuel <= fuel')%nat ->
  generate_maze fuel' width height seed loops r0 = Ok m.
Proof.
  unfold generate_maze. intros Hrun Hle.
  apply bind_Ok in Hrun as (s & Hs & Hrun).
  by rewrite (carve_fuel_mono _ _ _ _ _ _ _ Hs Hle).
Qed.

(** C5.  The generation is a function of width, height, seed and loop
    count alone: two calls with the same four arguments return the same
    grid, cell for cell, whatever state the global generator was in when
    each call started, and leave the generator in the same state. *)
Theorem generate_maze_deterministic width height seed loops (r1 r2 : rng_state) :
  (forall fuel,
     generate_maze fuel width height seed loops r1 =
     generate_maze fuel width height seed loops r2) /\
  (forall fuel1 fuel2 m1 m2 g1 g2,
     generate_maze fuel1 width height seed loops r1 = Ok (m1, g1) ->
     generate_maze fuel2 width height seed loops r2 = Ok (m2, g2) ->
     m1 = m2 /\ g1 = g2 /\ forall c, m1 !! c = m2 !! c).
Proof.
  split; [reflexivity|].
  intros fuel1 fuel2 m1 m2 g1 g2 H1 H2.
  apply generate_maze_fuel_mono with (fuel' := (fuel1 `max` fuel2)%nat) in H1;
    [|lia].
  apply generate_maze_fuel_mono with (fuel' := (fuel1 `max` fuel2)%nat) in H2;
    [|lia].
  assert (E : Ok (m1, g1) = Ok (m2, g2)).
  { rewrite <- H1, <- H2. reflexivity. }
  injection E as -> ->. done.
Qed.
End RandomFacts.

(** ** Walks in a growing maze *)

Lemma walk_mono maze maze' width height a b n :
  (forall c, passable maze width height c -> passable maze' width height c) ->
  walk maze width height a b n -> walk maze' width height a b n.
Proof.
  intros Hp. induction 1 as [|c c' n Hw IH [Ha Hc]]; [constructor|].
  eapply walk_more; [exact IH|]. split; auto.
Qed.

Lemma walk_trans maze width height a b c n m :
  walk maze width height a b n -> walk maze width height b c m ->
  walk maze width height a c (n + m).
Proof.
  intros Hab. induction 1 as [|x x' m Hw IH Hs].
  - by rewrite Nat.add_0_r.
  - rewrite Nat.add_succ_r. eapply walk_more; eauto.
Qed.

Lemma walk_reachable maze width height a b n :
  walk maze width height a b n -> reachable maze width height a b.
Proof. intros Hw. destruct (walk_valid_path _ _ _ _ _ _ Hw) as (p & Hp & _). by exists p. Qed.

(** ** The all-[WALL] grid *)

Lemma lookup_fill (v : string) (l : list Cell) (m : gmap (Z * Z) string) c :
  foldl (fun m c => <[c := v]> m) m l !! c =
  if decide (c ∈ l) then Some v else m !! c.
Proof.
  revert m. induction l as [|a l IH]; intros m; simpl; [done|].
  rewrite IH. destruct (decide (c ∈ l)) as [Hc|Hc].
  - rewrite decide_True; [done|by right].
  - rewrite lookup_insert. case_decide as Ha.
    + subst a. rewrite decide_True; [done|by left].
    + rewrite decide_False; [done|].
      intros Hin. apply elem_of_cons in Hin as [->|?]; done.
Qed.

Lemma lookup_all_wall width height c :
  all_wall width height !! c =
  if in_bounds width height c then Some WALL else None.
Proof.
  unfold all_wall. rewrite lookup_fill.
  destruct (in_bounds width height c) eqn:Hin.
  - rewrite decide_True; [done|]. by apply elem_of_cells.
  - rewrite decide_False; [done|]. rewrite elem_of_cells. congruence.
Qed.

(** ** Rooms and the walls between them *)

Ltac odd_facts :=
  repeat match goal with
  | H : Z.odd _ = true |- _ => apply Z.odd_spec in H; destruct H as [? H]
  | H : Z.odd _ = false |- _ =>
      rewrite <- Z.negb_even in H; apply negb_false_iff in H;
      apply Z.even_spec in H; destruct H as [? H]
  end.

Lemma odd_plus_two (x : Z) : Z.odd (x + 2) = Z.odd x.
Proof. rewrite Z.odd_add. simpl. by rewrite xorb_false_r. Qed.

Lemma odd_minus_two (x : Z) : Z.odd (x - 2) = Z.odd x.
Proof. rewrite Z.odd_sub. simpl. by rewrite xorb_false_r. Qed.

Lemma odd_plus_one (x : Z) : Z.odd (x + 1) = negb (Z.odd x).
Proof. rewrite Z.odd_add. simpl. by rewrite xorb_true_r. Qed.

Lemma odd_minus_one (x : Z) : Z.odd (x - 1) = negb (Z.odd x).
Proof. rewrite Z.odd_sub. simpl. by rewrite xorb_true_r. Qed.

Lemma elem_of_guard {A} (b : bool) (a x : A) :
  x ∈ (if b then [a] else []) <-> b = true /\ x = a.
Proof.
  destruct b; [rewrite list_elem_of_singleton|rewrite elem_of_nil]; naive_solver.
Qed.

Lemma adjacent_char (a b : Cell) :
  adjacent a b <->
  b = (a.1 + 1, a.2) \/ b = (a.1 - 1, a.2) \/
  b = (a.1, a.2 + 1) \/ b = (a.1, a.2 - 1).
Proof.
  unfold adjacent, dirs. split.
  - intros (d & Hd & ->).
    repeat (apply elem_of_cons in Hd as [->|Hd];
            [simpl; rewrite ?Z.add_0_r; auto|]).
    by apply elem_of_nil in Hd.
  - intros [-> | [-> | [-> | ->]]].
    + exists (1, 0). split; [set_solver|]. simpl. f_equal; lia.
    + exists (-1, 0). split; [set_solver|]. simpl. f_equal; lia.
    + exists (0, 1). split; [set_solver|]. simpl. f_equal; lia.
    + exists (0, -1). split; [set_solver|]. simpl. f_equal; lia.
Qed.

Ltac adj_tac :=
  apply adjacent_char; simpl;
  first [ left; f_equal; lia
        | right; left; f_equal; lia
        | right; right; left; f_equal; lia
        | right; right; right; f_equal; lia ].

Section Rooms.
Variables (width height : Z).
Hypothesis Hwodd : Z.odd width = true.
Hypothesis Hhodd : Z.odd height = true.

Lemma elem_of_rooms (c : Cell) :
  c ∈ rooms width height <-> room_in width height c.
Proof.
  unfold rooms, room_in, is_room. rewrite list_elem_of_filter, elem_of_cells.
  rewrite in_bounds_spec, andb_true_iff. split.
  - intros ((Hx & Hy) & Hbx & Hby). split; [done|]. split; [done|].
    pose proof Hx as Hx'. pose proof Hy as Hy'.
    pose proof Hwodd as Hw'. pose proof Hhodd as Hh'. odd_facts. lia.
  - intros (Hx & Hy & Hbx & Hby). split; [done|]. lia.
Qed.

Lemma NoDup_rooms : NoDup (rooms width height).
Proof. unfold rooms. apply NoDup_filter, NoDup_cells. Qed.

Lemma room_in_bounds (c : Cell) :
  room_in width height c -> in_bounds width height c = true.
Proof. intros (_ & _ & ? & ?). apply in_bounds_spec. lia. Qed.

Lemma room_is_room (c : Cell) : room_in width height c -> is_room c = true.
Proof. intros (Hx & Hy & _). unfold is_room. by rewrite Hx, Hy. Qed.

(** The candidates of [visit] at a room are its unvisited neighbour rooms. *)
Lemma neighbors_of_spec (x y : Z) (visited : gset (Z * Z)) (nx ny wx wy : Z) :
  room_in width height (x, y) ->
  (nx, ny, wx, wy) ∈ neighbors_of width height x y visited <->
  two_apart (x, y) (nx, ny) (wx, wy) /\ room_in width height (nx, ny) /\
  (nx, ny) ∉ visited.
Proof.
  intros (Hx & Hy & Hbx & Hby). simpl in *.
  assert (Hx2 : Z.odd (x - 2) = true) by (by rewrite odd_minus_two).
  assert (Hx3 : Z.odd (x + 2) = true) by (by rewrite odd_plus_two).
  assert (Hy2 : Z.odd (y - 2) = true) by (by rewrite odd_minus_two).
  assert (Hy3 : Z.odd (y + 2) = true) by (by rewrite odd_plus_two).
  assert (Hwx : x < width - 2 -> x + 2 <= width - 2).
  { pose proof Hx as Hx'. pose proof Hwodd as Hw'. odd_facts. lia. }
  assert (Hhy : y < height - 2 -> y + 2 <= height - 2).
  { pose proof Hy as Hy'. pose proof Hhodd as Hh'. odd_facts. lia. }
  assert (Hx1 : x > 1 -> 1 <= x - 2).
  { pose proof Hx as Hx'. odd_facts. lia. }
  assert (Hy1 : y > 1 -> 1 <= y - 2).
  { pose proof Hy as Hy'. odd_facts. lia. }
  unfold neighbors_of, two_apart, room_in. simpl.
  rewrite !elem_of_app, !elem_of_guard, !andb_true_iff, !bool_decide_eq_true.
  split.
  - intros [(Hg & E)|[(Hg & E)|[(Hg & E)|(Hg & E)]]];
      injection E as -> -> -> ->; destruct Hg as [Hg Hv];
      (split; [tauto|]); (split; [|done]); repeat split; auto; lia.
  - intros (Hta & (Hnx & Hny & Hbnx & Hbny) & Hnv).
    destruct Hta as [[[= -> ->] [= -> ->]]|[[[= -> ->] [= -> ->]]|
                     [[[= -> ->] [= -> ->]]|[[= -> ->] [= -> ->]]]]].
    + left. split; [split; [lia|done]|done].
    + right; left. split; [split; [lia|done]|done].
    + right; right; left. split; [split; [lia|done]|done].
    + right; right; right. split; [split; [lia|done]|done].
Qed.

(** The cell between two rooms is inside the rectangle, is not a room and
    is adjacent to both. *)
Lemma two_apart_wall (c n w : Cell) :
  room_in width height c -> room_in width height n -> two_apart c n w ->
  in_bounds width height w = true /\ is_room w = false /\
  interior width height w /\
  adjacent c w /\ adjacent w n /\ adjacent n w /\ adjacent w c /\
  n <> c /\ w <> c /\ w <> n.
Proof.
  destruct c as [x y], n as [nx ny], w as [wx wy].
  intros (Hx & Hy & Hbx & Hby) (Hnx & Hny & Hbnx & Hbny) Hta. simpl in *.
  unfold two_apart in Hta. simpl in Hta.
  destruct Hta as [[[= -> ->] [= -> ->]]|[[[= -> ->] [= -> ->]]|
                   [[[= -> ->] [= -> ->]]|[[= -> ->] [= -> ->]]]]];
    (split; [apply in_bounds_spec; simpl; lia|]);
    (split; [unfold is_room; simpl;
             rewrite ?odd_minus_one, ?odd_plus_one, ?Hx, ?Hy; simpl;
             by rewrite ?andb_false_r|]);
    (split; [unfold interior; simpl; lia|]);
    repeat split; try adj_tac; intros [= ]; lia.
Qed.

(** A wall lies between one pair of rooms only. *)
Lemma two_apart_unique (a b c n w : Cell) :
  room_in width height a -> room_in width height c ->
  two_apart a b w -> two_apart c n w ->
  (a = c /\ b = n) \/ (a = n /\ b = c).
Proof.
  destruct a as [ax ay], b as [bx byy], c as [x y], n as [nx ny], w as [wx wy].
  intros (Hax & Hay & _) (Hx & Hy & _) Hab Hcn. simpl in *.
  unfold two_apart in *. simpl in *. clear Hwodd Hhodd.
  odd_facts.
  destruct Hab as [[[= -> ->] [= -> ->]]|[[[= -> ->] [= -> ->]]|
                   [[[= -> ->] [= -> ->]]|[[= -> ->] [= -> ->]]]]];
  destruct Hcn as [[[= -> ->] [= Ew1 Ew2]]|[[[= -> ->] [= Ew1 Ew2]]|
                   [[[= -> ->] [= Ew1 Ew2]]|[[= -> ->] [= Ew1 Ew2]]]]];
  try lia;
  first [ left; split; f_equal; lia | right; split; f_equal; lia ].
Qed.
End Rooms.

(** ** The carving phase *)

Lemma WALL_neq_EMPTY : WALL <> EMPTY.
Proof. discriminate. Qed.

Section Carve.
Context `{PyRandom}.
Variables (width height : Z).
Hypothesis Hwodd : Z.odd width = true.
Hypothesis Hhodd : Z.odd height = true.
Hypothesis Hw3 : 3 <= width.
Hypothesis Hh3 : 3 <= height.

(** The invariant of the [while] loop of [visit]. *)
Record carve_inv (s : gen_state) : Prop := CarveInv {
  ci_start : (1, 1) ∈ g_visited s;
  ci_rooms : forall c, c ∈ g_visited s -> room_in width height c;
  ci_dense : dense (g_maze s) width height;
  ci_empty : forall c, room_in width height c ->
    (g_maze s !! c = Some EMPTY <-> c ∈ g_visited s);
  ci_wall : forall w, in_bounds width height w = true -> is_room w = false ->
    g_maze s !! w = Some EMPTY ->
    exists a b, a ∈ g_visited s /\ b ∈ g_visited s /\ two_apart a b w;
  ci_count :
    (length (connectors (g_maze s) width height) + 1 = size (g_visited s))%nat;
  ci_reach : forall c, c ∈ g_visited s ->
    (exists n, walk (g_maze s) width height (1, 1) c n) /\
    (exists n, walk (g_maze s) width height c (1, 1) n)
}.

Lemma elem_of_roomset (c : Cell) :
  c ∈ roomset width height <-> room_in width height c.
Proof. unfold roomset. rewrite elem_of_list_to_set. by apply elem_of_rooms. Qed.

Lemma room_start : room_in width height (1, 1).
Proof. unfold room_in. simpl. repeat split; lia. Qed.

(** Carving the wall [w] and the room [n] next to the visited room [c]. *)
Lemma carve_step (s : gen_state) (c n w : Cell) (r : rng_state) :
  carve_inv s -> c ∈ g_visited s -> two_apart c n w ->
  room_in width height n -> n ∉ g_visited s ->
  carve_inv (GenState (<[n := EMPTY]> (<[w := EMPTY]> (g_maze s)))
                      ({[n]} ∪ g_visited s) r).
Proof.
  intros [Hst Hrooms Hdense Hempty Hwall Hcount Hreach] Hc Hta Hn Hnv.
  pose proof (Hrooms c Hc) as Hcr.
  destruct (two_apart_wall width height c n w Hcr Hn Hta)
    as (Hwin & Hwr & Hwi & Hcw & Hwn & Hnw & Hwc & Hnc & Hwcne & Hwnne).
  assert (Hww : g_maze s !! w = Some WALL).
  { destruct (Hdense w Hwin) as [?|He]; [done|]. exfalso.
    destruct (Hwall w Hwin Hwr He) as (a & b & Ha & Hb & Hab).
    destruct (two_apart_unique width height a b c n w (Hrooms a Ha) Hcr Hab Hta)
      as [[_ ->]|[-> _]]; done. }
  assert (Hlook : forall x, <[n := EMPTY]> (<[w := EMPTY]> (g_maze s)) !! x =
            if decide (x = n) then Some EMPTY
            else if decide (x = w) then Some EMPTY else g_maze s !! x).
  { intros x. rewrite !lookup_insert. repeat case_decide; congruence. }
  assert (Hpass : forall x, passable (g_maze s) width height x ->
            passable (<[n := EMPTY]> (<[w := EMPTY]> (g_maze s))) width height x).
  { intros x (Hin & v & Hv & Hne). split; [done|]. rewrite Hlook.
    repeat case_decide; eauto using not_eq_sym, WALL_neq_EMPTY. }
  assert (Hpw : passable (<[n := EMPTY]> (<[w := EMPTY]> (g_maze s)))
                  width height w).
  { split; [done|]. exists EMPTY. rewrite Hlook.
    rewrite decide_False, decide_True by done.
    split; [done|]. apply not_eq_sym, WALL_neq_EMPTY. }
  assert (Hpn : passable (<[n := EMPTY]> (<[w := EMPTY]> (g_maze s)))
                  width height n).
  { split; [by apply room_in_bounds|]. exists EMPTY. rewrite Hlook.
    rewrite decide_True by done. split; [done|].
    apply not_eq_sym, WALL_neq_EMPTY. }
  assert (Hpc : passable (<[n := EMPTY]> (<[w := EMPTY]> (g_maze s)))
                  width height c).
  { apply Hpass. split; [by apply room_in_bounds|]. exists EMPTY.
    split; [by apply Hempty|]. apply not_eq_sym, WALL_neq_EMPTY. }
  constructor; simpl.
  - apply elem_of_union_r, Hst.
  - intros x Hx. apply elem_of_union in Hx as [Hx|Hx]; [|by auto].
    apply elem_of_singleton in Hx as ->. done.
  - intros x Hx. rewrite Hlook. repeat case_decide; auto.
  - intros x Hx. rewrite Hlook. case_decide as E1.
    { subst x. split; [intros _; apply elem_of_union_l; by apply elem_of_singleton|done]. }
    case_decide as E2.
    { subst x. rewrite (room_is_room width height w Hx) in Hwr. done. }
    rewrite (Hempty x Hx). split; [apply elem_of_union_r|].
    intros Hu. apply elem_of_union in Hu as [Hu|Hu]; [|done].
    apply elem_of_singleton in Hu. done.
  - intros x Hx Hxr. rewrite Hlook. case_decide as E1.
    { subst x. rewrite (room_is_room width height n Hn) in Hxr. done. }
    case_decide as E2.
    { subst x. intros _. exists c, n. split; [by apply elem_of_union_r|].
      split; [apply elem_of_union_l; by apply elem_of_singleton|done]. }
    intros He. destruct (Hwall x Hx Hxr He) as (a & b & Ha & Hb & Hab).
    exists a, b. split; [by apply elem_of_union_r|].
    split; [by apply elem_of_union_r|done].
  - rewrite size_union, size_singleton by (by apply disjoint_singleton_l).
    rewrite <- Hcount. unfold connectors.
    rewrite (filter_length_add
               (fun x => is_room x = false /\ g_maze s !! x = Some EMPTY)
               (fun x => is_room x = false /\
                  <[n:=EMPTY]> (<[w:=EMPTY]> (g_maze s)) !! x = Some EMPTY)
               (cells width height) w); [lia|apply NoDup_cells| | | |].
    + by apply elem_of_cells.
    + intros [_ He]. rewrite Hww in He. apply WALL_neq_EMPTY. congruence.
    + split; [done|]. rewrite Hlook.
      by rewrite decide_False, decide_True by done.
    + intros x Hx. rewrite Hlook. case_decide as E1.
      * subst x. rewrite (room_is_room width height n Hn). split; intros [? _]; done.
      * by rewrite decide_False by done.
  - intros x Hx. apply elem_of_union in Hx as [Hx|Hx].
    + apply elem_of_singleton in Hx as ->.
      destruct (Hreach c Hc) as [[k Hk] [k' Hk']]. split.
      * exists (S (S k)). eapply walk_more; [eapply walk_more|].
        -- eapply walk_mono; [exact Hpass|exact Hk].
        -- by split.
        -- by split.
      * exists (S (S k')). eapply walk_first; [by split|].
        eapply walk_first; [by split|].
        eapply walk_mono; [exact Hpass|exact Hk'].
    + destruct (Hreach x Hx) as [[k Hk] [k' Hk']]. split.
      * exists k. eapply walk_mono; [exact Hpass|exact Hk].
      * exists k'. eapply walk_mono; [exact Hpass|exact Hk'].
Qed.

(** The rooms not visited yet decrease with every room carved. *)
Lemma unvisited_decreases (V : gset (Z * Z)) (n : Cell) :
  room_in width height n -> n ∉ V ->
  size (roomset width height ∖ V)
  = S (size (roomset width height ∖ ({[n]} ∪ V))).
Proof.
  intros Hn Hnv.
  set (X := roomset width height ∖ ({[n]} ∪ V)).
  assert (HX : roomset width height ∖ V = {[n]} ∪ X).
  { apply elem_of_roomset in Hn. clear -Hn Hnv. apply set_eq. intros x.
    unfold X. destruct (decide (x = n)); set_solver. }
  rewrite HX, size_union, size_singleton; [done|].
  clear. unfold X. set_solver.
Qed.

(** [visit]'s loop at a visited room: it returns, keeps the invariant, and
    leaves the room and every room visited meanwhile with all its neighbour
    rooms visited. *)
Lemma visit_while_spec (fuel : nat) : forall x y s,
  carve_inv s -> (x, y) ∈ g_visited s ->
  (2 * size (roomset width height ∖ g_visited s) + 1 <= fuel)%nat ->
  exists s', visit_while fuel width height x y s = Ok s' /\
    carve_inv s' /\ g_visited s ⊆ g_visited s' /\
    forall c, c = (x, y) \/ (c ∈ g_visited s' /\ c ∉ g_visited s) ->
      forall n w, two_apart c n w -> room_in width height n ->
        n ∈ g_visited s'.
Proof.
  induction fuel as [fuel IH] using lt_wf_ind. intros x y s Hi Hxy Hfuel.
  destruct fuel as [|fuel]; [lia|]. simpl.
  pose proof (ci_rooms _ Hi _ Hxy) as Hroom.
  pose proof (fun nx ny wx wy =>
    neighbors_of_spec width height Hwodd Hhodd x y (g_visited s) nx ny wx wy
      Hroom) as Hspec.
  destruct (neighbors_of width height x y (g_visited s)) as [|p l] eqn:En.
  - exists s. split; [done|]. split; [done|]. split; [done|].
    intros c [->|[? ?]] [nx ny] [wx wy] Hta Hn; [|done].
    destruct (decide ((nx, ny) ∈ g_visited s)) as [|Hnv]; [done|].
    exfalso. eapply elem_of_nil. apply (Hspec nx ny wx wy). done.
  - destruct (choice_Ok (g_rng s) (p :: l)) as ([[[nx ny] wx] wy] & r & Hch & Hin);
      [done|].
    rewrite Hch. simpl.
    apply Hspec in Hin as (Hta & Hn & Hnv).
    pose proof (unvisited_decreases (g_visited s) (nx, ny) Hn Hnv) as Hdec.
    destruct fuel as [|fuel]; [lia|]. simpl.
    pose proof (carve_step s (x, y) (nx, ny) (wx, wy) r Hi Hxy Hta Hn Hnv) as Hi2.
    set (s2 := GenState _ _ r) in *.
    destruct (IH fuel ltac:(lia) nx ny s2 Hi2) as (s3 & Hrun3 & Hi3 & Hsub3 & Hcl3).
    { simpl. apply elem_of_union_l. by apply elem_of_singleton. }
    { simpl. lia. }
    rewrite Hrun3. simpl.
    assert (Hsz : (size (roomset width height ∖ g_visited s3)
                   <= size (roomset width height ∖ g_visited s2))%nat).
    { apply subseteq_size. clear -Hsub3. set_solver. }
    destruct (IH (S fuel) ltac:(lia) x y s3 Hi3) as (s4 & Hrun4 & Hi4 & Hsub4 & Hcl4).
    { apply Hsub3. simpl. by apply elem_of_union_r. }
    { simpl in Hsz. lia. }
    exists s4. split; [done|]. split; [done|]. split.
    { intros c Hc. apply Hsub4, Hsub3. simpl. by apply elem_of_union_r. }
    intros c Hc n w Hta' Hn'.
    destruct (decide (c = (x, y))) as [->|Hne]; [by eapply Hcl4; [left|..]|].
    destruct Hc as [->|[Hc4 Hc0]]; [done|].
    destruct (decide (c ∈ g_visited s3)) as [Hc3|Hc3].
    + apply Hsub4. eapply (Hcl3 c); [|done|done].
      destruct (decide (c = (nx, ny))) as [->|Hcn]; [by left|right].
      split; [done|]. simpl. intros Hu.
      apply elem_of_union in Hu as [Hu|Hu]; [|done].
      apply elem_of_singleton in Hu. done.
    + eapply (Hcl4 c); [right; done|done|done].
Qed.

(** Every room can be reached from room (1, 1) by steps of two. *)
Lemma closed_all_rooms (V : gset (Z * Z)) :
  (1, 1) ∈ V ->
  (forall c, c ∈ V -> forall n w, two_apart c n w ->
     room_in width height n -> n ∈ V) ->
  forall c, room_in width height c -> c ∈ V.
Proof.
  intros H1 Hcl.
  assert (Hrow : forall a : nat,
            room_in width height (2 * Z.of_nat a + 1, 1) ->
            (2 * Z.of_nat a + 1, 1) ∈ V).
  { induction a as [|a IH]; intros Hr; [done|].
    assert (Hprev : room_in width height (2 * Z.of_nat a + 1, 1)).
    { destruct Hr as (_ & _ & ? & ?). unfold room_in. simpl in *.
      split; [|split; [done|lia]].
      rewrite Z.add_comm, Z.odd_add_mul_2. done. }
    eapply (Hcl _ (IH Hprev) _ (2 * Z.of_nat a + 2, 1)); [|done].
    right; right; right. simpl. split; f_equal; lia. }
  assert (Hcol : forall (a b : nat),
            room_in width height (2 * Z.of_nat a + 1, 2 * Z.of_nat b + 1) ->
            (2 * Z.of_nat a + 1, 2 * Z.of_nat b + 1) ∈ V).
  { intros a. induction b as [|b IH]; intros Hr.
    - apply Hrow. done.
    - assert (Hprev : room_in width height
                        (2 * Z.of_nat a + 1, 2 * Z.of_nat b + 1)).
      { destruct Hr as (? & _ & ? & ?). unfold room_in. simpl in *.
        split; [done|]. split; [|lia].
        rewrite Z.add_comm, Z.odd_add_mul_2. done. }
      eapply (Hcl _ (IH Hprev) _ (2 * Z.of_nat a + 1, 2 * Z.of_nat b + 2));
        [|done].
      right; left. simpl. split; f_equal; lia. }
  intros [x y] Hr. pose proof Hr as (Hx & Hy & Hbx & Hby). simpl in *.
  apply Z.odd_spec in Hx as [a Ha], Hy as [b Hb].
  specialize (Hcol (Z.to_nat a) (Z.to_nat b)).
  replace (2 * Z.of_nat (Z.to_nat a) + 1) with x in Hcol by lia.
  replace (2 * Z.of_nat (Z.to_nat b) + 1) with y in Hcol by lia.
  by apply Hcol.
Qed.

Lemma carve_inv_init (r : rng_state) :
  carve_inv (GenState (<[(1, 1) := EMPTY]> (all_wall width height))
                      {[(1, 1)]} r).
Proof.
  pose proof room_start as Hr1.
  assert (Hlook : forall c, in_bounds width height c = true ->
            <[(1, 1) := EMPTY]> (all_wall width height) !! c =
            if decide (c = (1, 1)) then Some EMPTY else Some WALL).
  { intros c Hc. rewrite lookup_insert, lookup_all_wall, Hc.
    repeat case_decide; congruence. }
  constructor; simpl.
  - by apply elem_of_singleton.
  - intros c Hc. apply elem_of_singleton in Hc as ->. done.
  - intros c Hc. rewrite Hlook by done. case_decide; auto.
  - intros c Hc. rewrite Hlook by (by apply room_in_bounds).
    rewrite elem_of_singleton. case_decide; [done|].
    split; [|done]. intros E. destruct WALL_neq_EMPTY. congruence.
  - intros w Hw Hwr. rewrite Hlook by done. case_decide as E.
    + subst w. done.
    + intros E'. destruct WALL_neq_EMPTY. congruence.
  - change (set_size _) with (size ({[(1, 1)]} : gset (Z * Z))).
    rewrite size_singleton. unfold connectors.
    rewrite filter_none; [done|]. intros c Hc [Hcr He].
    apply elem_of_cells in Hc. rewrite Hlook in He by done.
    case_decide as E; [by subst c|]. apply WALL_neq_EMPTY. congruence.
  - intros c Hc. apply elem_of_singleton in Hc as ->.
    split; exists 0%nat; constructor.
Qed.

(** The carving phase returns, and has then visited every room. *)
Lemma carve_spec (fuel : nat) (seed : Z) (r0 : rng_state) :
  (carve_fuel width height <= fuel)%nat ->
  exists s, carve fuel width height seed r0 = Ok s /\ carve_inv s /\
            forall c, room_in width height c -> c ∈ g_visited s.
Proof.
  intros Hfuel. unfold carve.
  assert (Hsize : size (roomset width height) = length (rooms width height)).
  { unfold roomset. apply size_list_to_set, NoDup_rooms. }
  assert (Hone : (1 <= length (rooms width height))%nat).
  { pose proof room_start as Hr. apply (elem_of_rooms width height Hwodd Hhodd) in Hr.
    destruct (rooms width height); [by apply elem_of_nil in Hr|simpl; lia]. }
  unfold carve_fuel in Hfuel.
  destruct fuel as [|fuel]; [lia|]. simpl.
  destruct (visit_while_spec fuel 1 1 _ (carve_inv_init (seed_state seed)))
    as (s & Hrun & Hi & Hsub & Hcl).
  { simpl. by apply elem_of_singleton. }
  { simpl.
    assert (size (roomset width height ∖ {[(1, 1)]})
            = (size (roomset width height) - 1)%nat) as ->; [|lia].
    rewrite size_difference, size_singleton; [done|].
    apply singleton_subseteq_l, elem_of_roomset, room_start. }
  exists s. split; [done|]. split; [done|].
  apply closed_all_rooms; [by eapply ci_start|].
  intros c Hc. apply Hcl. simpl.
  destruct (decide (c = (1, 1))); [by left|right].
  split; [done|]. by rewrite elem_of_singleton.
Qed.
End Carve.

(** ** The generator: the claims of the specification *)

Lemma neighbors_unvisited (width height x y : Z) (visited : gset (Z * Z))
    (nx ny wx wy : Z) :
  (nx, ny, wx, wy) ∈ neighbors_of width height x y visited ->
  (nx, ny) ∉ visited.
Proof.
  unfold neighbors_of.
  rewrite !elem_of_app, !elem_of_guard, !andb_true_iff, !bool_decide_eq_true.
  intros [(Hg & E)|[(Hg & E)|[(Hg & E)|(Hg & E)]]];
    injection E as -> -> -> ->; by destruct Hg.
Qed.

Lemma length_rooms_le width height :
  (length (rooms width height) <= Z.to_nat width * Z.to_nat height)%nat.
Proof. unfold rooms. rewrite <- length_cells. apply length_filter. Qed.

Section GeneratorClaims.
Context `{PyRandom}.

(** C4.  For odd width and height (at least 3, so in particular in the
    documented ranges) and every seed, [generate_maze] with no loops returns
    a perfect maze over the rooms: every room is [EMPTY], the carved
    connectors are one fewer than the rooms, and every room can be reached
    from every other room. *)
Theorem perfect_maze width height seed fuel (r0 : rng_state) :
  Z.odd width = true -> Z.odd height = true ->
  3 <= width -> 3 <= height ->
  (carve_fuel width height <= fuel)%nat ->
  exists maze r,
    generate_maze fuel width height seed 0 r0 = Ok (maze, r) /\
    dense maze width height /\
    (forall c, c ∈ rooms width height -> maze !! c = Some EMPTY) /\
    (length (connectors maze width height) + 1
     = length (rooms width height))%nat /\
    (forall a b, a ∈ rooms width height -> b ∈ rooms width height ->
       reachable maze width height a b).
Proof.
  intros Hwodd Hhodd Hw3 Hh3 Hfuel.
  destruct (carve_spec width height Hwodd Hhodd Hw3 Hh3 fuel seed r0 Hfuel)
    as (s & Hrun & Hi & Hall).
  exists (g_maze s), (g_rng s). unfold generate_maze. rewrite Hrun. simpl.
  split; [done|]. split; [by eapply ci_dense|].
  assert (Hvis : g_visited s = roomset width height).
  { apply set_eq. intros c. rewrite elem_of_roomset by done.
    split; [by eapply ci_rooms|by apply Hall]. }
  split; [|split].
  - intros c Hc. apply (elem_of_rooms width height Hwodd Hhodd) in Hc.
    apply (ci_empty _ _ _ Hi); auto.
  - rewrite (ci_count _ _ _ Hi), Hvis. unfold roomset.
    apply size_list_to_set, NoDup_rooms.
  - intros a b Ha Hb.
    apply (elem_of_rooms width height Hwodd Hhodd) in Ha, Hb.
    destruct (ci_reach _ _ _ Hi a (Hall a Ha)) as [_ [n Hn]].
    destruct (ci_reach _ _ _ Hi b (Hall b Hb)) as [[m Hm] _].
    eapply walk_reachable, walk_trans; eauto.
Qed.

(** C10.  For odd width and height (at least 3) [generate_maze] terminates:
    twice the number of rooms is enough fuel, because the recursion only
    enters rooms that are not visited yet and every room entered leaves one
    room fewer to visit. *)
Theorem generate_maze_terminates width height seed loops fuel (r0 : rng_state) :
  Z.odd width = true -> Z.odd height = true ->
  3 <= width -> 3 <= height ->
  (2 * length (rooms width height) <= fuel)%nat ->
  is_Ok (generate_maze fuel width height seed loops r0) /\
  (length (rooms width height) <= Z.to_nat width * Z.to_nat height)%nat /\
  (forall (x y : Z) (visited : gset (Z * Z)) (nx ny wx wy : Z),
     (nx, ny, wx, wy) ∈ neighbors_of width height x y visited ->
     ((nx, ny) ∉ visited) /\
     (room_in width height (nx, ny) ->
      (size (roomset width height ∖ ({[(nx, ny)]} ∪ visited))
       < size (roomset width height ∖ visited))%nat)).
Proof.
  intros Hwodd Hhodd Hw3 Hh3 Hfuel. split; [|split].
  - destruct (carve_spec width height Hwodd Hhodd Hw3 Hh3 fuel seed r0 Hfuel)
      as (s & Hrun & Hi & Hall).
    destruct (add_loops_total (Z.to_nat loops) width height s)
      as (s' & Hloops); [|done|done|].
    { apply dense_covered. by eapply ci_dense. }
    unfold generate_maze. rewrite Hrun. simpl. rewrite Hloops. simpl.
    by eexists.
  - apply length_rooms_le.
  - intros x y visited nx ny wx wy Hin.
    pose proof (neighbors_unvisited _ _ _ _ _ _ _ _ _ Hin) as Hnv.
    split; [done|]. intros Hroom.
    rewrite (unvisited_decreases width height Hwodd Hhodd visited (nx, ny))
      by done. lia.
Qed.

Lemma covered_insert (maze : gmap (Z * Z) string) width height c v :
  covered maze width height -> covered (<[c := v]> maze) width height.
Proof.
  intros Hcov x Hx. rewrite lookup_insert. case_decide; [eauto|auto].
Qed.

Lemma visit_covered width height fuel :
  (forall x y s s', visit fuel width height x y s = Ok s' ->
     covered (g_maze s) width height -> covered (g_maze s') width height) /\
  (forall x y s s', visit_while fuel width height x y s = Ok s' ->
     covered (g_maze s) width height -> covered (g_maze s') width height).
Proof.
  induction fuel as [|fuel [IHv IHw]]; [split; intros; done|].
  split; intros x y s s' Hrun Hcov; simpl in Hrun.
  - eapply IHw; [exact Hrun|]. simpl. by apply covered_insert.
  - destruct (neighbors_of width height x y (g_visited s));
      [by injection Hrun as <-|].
    apply bind_Ok in Hrun as ([[[[nx ny] wx] wy] r] & Hc & Hrun).
    apply bind_Ok in Hrun as (s1 & H1 & Hrun).
    eapply IHw; [exact Hrun|]. eapply IHv; [exact H1|].
    simpl. by apply covered_insert.
Qed.

Lemma carve_covered width height seed fuel (r0 : rng_state) s :
  carve fuel width height seed r0 = Ok s -> covered (g_maze s) width height.
Proof.
  unfold carve. intros Hrun.
  eapply (proj1 (visit_covered width height fuel)); [exact Hrun|].
  simpl. intros c Hc. rewrite lookup_all_wall, Hc. eauto.
Qed.

(** C6.  With the grid left by the carving phase, which is the grid generated
    with the same seed and no loops, the loop-injection phase returns; it
    only turns [WALL] cells into [EMPTY] cells, only at interior cells, and
    changes at most [loops] cells, so every cell that is [EMPTY] after the
    carving phase is [EMPTY] in the final grid. *)
Theorem loop_injection (width height seed loops : Z) (fuel : nat)
    (r0 g0 : rng_state) (carved : gmap (Z * Z) string) :
  generate_maze fuel width height seed 0 r0 = Ok (carved, g0) ->
  3 <= width -> 3 <= height -> 0 <= loops ->
  exists maze r,
    generate_maze fuel width height seed loops r0 = Ok (maze, r) /\
    (forall c, maze !! c <> carved !! c ->
       carved !! c = Some WALL /\ maze !! c = Some EMPTY /\
       interior width height c /\
       c ∈ changed_cells carved maze width height) /\
    (forall c, carved !! c = Some EMPTY -> maze !! c = Some EMPTY) /\
    Z.of_nat (length (changed_cells carved maze width height)) <= loops.
Proof.
  intros Hgen Hw3 Hh3 Hloops. unfold generate_maze in Hgen.
  apply bind_Ok in Hgen as (s & Hcarve & Hgen). simpl in Hgen.
  injection Hgen as <- <-.
  destruct (add_loops_total (Z.to_nat loops) width height s)
    as (s' & Hrun); [by eapply carve_covered|done|done|].
  exists (g_maze s'), (g_rng s'). unfold generate_maze.
  rewrite Hcarve. simpl. rewrite Hrun. simpl. split; [done|].
  destruct (add_loops_spec _ _ _ _ _ Hrun) as ([Hkeep Hchg] & _ & Hlen).
  split; [|split; [done|lia]].
  intros c Hc. destruct (Hchg c Hc) as (Hi & Hwall & Hempty).
  split; [done|]. split; [done|]. split; [done|].
  unfold changed_cells. apply list_elem_of_filter. split; [congruence|].
  apply elem_of_cells, in_bounds_spec. destruct Hi. lia.
Qed.
End GeneratorClaims.

Lemma perfect_maze_witness :
  exists maze r,
    generate_maze 32 9 9 1 0 (0 : Z) = Ok (maze, r) /\
    dense maze 9 9 /\
    (forall c, c ∈ rooms 9 9 -> maze !! c = Some EMPTY) /\
    (length (connectors maze 9 9) + 1 = length (rooms 9 9))%nat /\
    (forall a b, a ∈ rooms 9 9 -> b ∈ rooms 9 9 -> reachable maze 9 9 a b).
Proof.
  apply (@perfect_maze lcg_random 9 9 1 32%nat 0).
  - reflexivity.
  - reflexivity.
  - lia.
  - lia.
  - vm_compute. lia.
Defined.

Lemma generate_maze_terminates_witness :
  is_Ok (generate_maze 32 9 9 1 40 (0 : Z)) /\
  (length (rooms 9 9) <= Z.to_nat 9 * Z.to_nat 9)%nat /\
  (forall (x y : Z) (visited : gset (Z * Z)) (nx ny wx wy : Z),
     (nx, ny, wx, wy) ∈ neighbors_of 9 9 x y visited ->
     ((nx, ny) ∉ visited) /\
     (room_in 9 9 (nx, ny) ->
      (size (roomset 9 9 ∖ ({[(nx, ny)]} ∪ visited))
       < size (roomset 9 9 ∖ visited))%nat)).
Proof.
  apply (@generate_maze_terminates lcg_random 9 9 1 40 32%nat 0).
  - reflexivity.
  - reflexivity.
  - lia.
  - lia.
  - vm_compute. lia.
Defined.

Lemma loop_injection_witness :
  exists maze r,
    generate_maze 32 9 9 1 40 (0 : Z) = Ok (maze, r) /\
    (forall c, maze !! c <> carved_grid !! c ->
       carved_grid !! c = Some WALL /\ maze !! c = Some EMPTY /\
       interior 9 9 c /\
       c ∈ changed_cells carved_grid maze 9 9) /\
    (forall c, carved_grid !! c = Some EMPTY -> maze !! c = Some EMPTY) /\
    Z.of_nat (length (changed_cells carved_grid maze 9 9)) <= 40.
Proof.
  apply (@loop_injection lcg_random 9 9 1 40 32%nat 0 2111915288 carved_grid).
  - vm_compute. reflexivity.
  - lia.
  - lia.
  - lia.
Defined.

Lemma generate_maze_deterministic_witness :
  (forall fuel,
     generate_maze fuel 9 9 1 40 (0 : Z) = generate_maze fuel 9 9 1 40 (7 : Z)) /\
  (forall fuel1 fuel2 m1 m2 g1 g2,
     generate_maze fuel1 9 9 1 40 (0 : Z) = Ok (m1, g1) ->
     generate_maze fuel2 9 9 1 40 (7 : Z) = Ok (m2, g2) ->
     m1 = m2 /\ g1 = g2 /\ forall c, m1 !! c = m2 !! c).
Proof. apply (@generate_maze_deterministic lcg_random 9 9 1 40 0 7). Defined.

(** * Further properties of the generator *)

Section GeneratorFacts.
Context `{PyRandom}.

(** [visit] marks its own cell and never closes a cell. *)
Lemma visit_keeps_empty (width height : Z) (fuel : nat) :
  (forall x y s s', visit fuel width height x y s = Ok s' ->
     g_maze s' !! (x, y) = Some EMPTY /\
     forall c, g_maze s !! c = Some EMPTY -> g_maze s' !! c = Some EMPTY) /\
  (forall x y s s', visit_while fuel width height x y s = Ok s' ->
     forall c, g_maze s !! c = Some EMPTY -> g_maze s' !! c = Some EMPTY).
Proof.
  induction fuel as [|fuel [IHv IHw]]; [split; intros; done|].
  split; intros x y s s' Hrun; simpl in Hrun.
  - pose proof (IHw _ _ _ _ Hrun) as Hk. simpl in Hk. split.
    + apply Hk. apply lookup_insert_eq.
    + intros c Hc. apply Hk. rewrite lookup_insert. by case_decide.
  - destruct (neighbors_of width height x y (g_visited s));
      [by injection Hrun as <-|].
    apply bind_Ok in Hrun as ([[[[nx ny] wx] wy] r] & Hc & Hrun).
    apply bind_Ok in Hrun as (s1 & H1 & Hrun).
    intros c Hc'. eapply IHw; [exact Hrun|].
    eapply (proj2 (IHv _ _ _ _ H1)). simpl.
    rewrite lookup_insert. by case_decide.
Qed.

(** [visit] writes [EMPTY] only: a cell keeps its state or becomes [EMPTY]. *)
Lemma visit_only_empties (width height : Z) (fuel : nat) :
  (forall x y s s', visit fuel width height x y s = Ok s' ->
     forall c, g_maze s' !! c = g_maze s !! c \/ g_maze s' !! c = Some EMPTY) /\
  (forall x y s s', visit_while fuel width height x y s = Ok s' ->
     forall c, g_maze s' !! c = g_maze s !! c \/ g_maze s' !! c = Some EMPTY).
Proof.
  induction fuel as [|fuel [IHv IHw]]; [split; intros; done|].
  split; intros x y s s' Hrun c; simpl in Hrun.
  - destruct (IHw _ _ _ _ Hrun c) as [E|E]; [|by right]. simpl in E.
    rewrite lookup_insert in E. case_decide; [right|left]; congruence.
  - destruct (neighbors_of width height x y (g_visited s));
      [injection Hrun as <-; by left|].
    apply bind_Ok in Hrun as ([[[[nx ny] wx] wy] r] & Hc & Hrun).
    apply bind_Ok in Hrun as (s1 & H1 & Hrun).
    destruct (IHw _ _ _ _ Hrun c) as [E|E]; [|by right].
    destruct (proj1 (conj (IHv _ _ _ _ H1 c) I)) as [E1|E1]; [|right; congruence].
    simpl in E1. rewrite lookup_insert in E1.
    case_decide; [right|left]; congruence.
Qed.

(** Candidates of a cell of the rectangle are cells of the rectangle, and so
    are the cells in between. *)
Lemma neighbors_in_bounds (width height x y : Z) (visited : gset (Z * Z))
    (nx ny wx wy : Z) :
  in_bounds width height (x, y) = true ->
  (nx, ny, wx, wy) ∈ neighbors_of width height x y visited ->
  in_bounds width height (nx, ny) = true /\
  in_bounds width height (wx, wy) = true.
Proof.
  rewrite !in_bounds_spec. simpl. intros Hxy. unfold neighbors_of.
  rewrite !elem_of_app, !elem_of_guard, !andb_true_iff, !bool_decide_eq_true.
  intros [(Hg & E)|[(Hg & E)|[(Hg & E)|(Hg & E)]]];
    injection E as -> -> -> ->; destruct Hg as [Hg _]; lia.
Qed.

(** [visit] at a cell of the rectangle adds no key outside the rectangle. *)
Lemma visit_keys_inside (width height : Z) (fuel : nat) :
  (forall x y s s', visit fuel width height x y s = Ok s' ->
     in_bounds width height (x, y) = true ->
     keys_inside (g_maze s) width height ->
     keys_inside (g_maze s') width height) /\
  (forall x y s s', visit_while fuel width height x y s = Ok s' ->
     in_bounds width height (x, y) = true ->
     keys_inside (g_maze s) width height ->
     keys_inside (g_maze s') width height).
Proof.
  assert (Hins : forall (m : gmap (Z * Z) string) c v,
            in_bounds width height c = true -> keys_inside m width height ->
            keys_inside (<[c := v]> m) width height).
  { intros m c v Hc Hk x. rewrite lookup_insert. case_decide; [by subst|auto]. }
  induction fuel as [|fuel [IHv IHw]]; [split; intros; done|].
  split; intros x y s s' Hrun Hxy Hk; simpl in Hrun.
  - eapply IHw; [exact Hrun|done|]. simpl. by apply Hins.
  - destruct (neighbors_of width height x y (g_visited s)) as [|p l] eqn:En;
      [by injection Hrun as <-|].
    apply bind_Ok in Hrun as ([[[[nx ny] wx] wy] r] & Hc & Hrun).
    apply bind_Ok in Hrun as (s1 & H1 & Hrun).
    assert (Hin : (nx, ny, wx, wy) ∈ neighbors_of width height x y (g_visited s)).
    { rewrite En. unfold choice in Hc.
      destruct (randbelow (g_rng s) (Z.of_nat (length (p :: l)))) as [i r'].
      destruct ((p :: l) !! Z.to_nat i) as [a|] eqn:Ea; [|done].
      injection Hc as -> ->. by eapply list_elem_of_lookup_2. }
    destruct (neighbors_in_bounds _ _ _ _ _ _ _ _ _ Hxy Hin) as [Hn Hw].
    eapply IHw; [exact Hrun|done|].
    eapply IHv; [exact H1|done|]. simpl. by apply Hins.
Qed.

(** [visit] never raises: [random.choice] is only called on a list that is
    not empty. *)
Lemma visit_never_raises (width height : Z) (fuel : nat) :
  (forall x y s e, visit fuel width height x y s <> Raise e) /\
  (forall x y s e, visit_while fuel width height x y s <> Raise e).
Proof.
  induction fuel as [|fuel [IHv IHw]]; [split; intros; done|].
  split; intros x y s e; simpl; [apply IHw|].
  destruct (neighbors_of width height x y (g_visited s)) as [|p l]; [done|].
  destruct (choice_Ok (g_rng s) (p :: l)) as ([[[nx ny] wx] wy] & r & Hch & _);
    [done|].
  rewrite Hch. simpl.
  match goal with |- context [visit fuel width height nx ny ?s1] =>
    pose proof (IHv nx ny s1 e) as Hv;
    destruct (visit fuel width height nx ny s1) as [s2| |]; simpl;
      [apply IHw|done|done]
  end.
Qed.

Lemma keys_inside_all_wall (width height : Z) :
  keys_inside (all_wall width height) width height.
Proof.
  intros c. rewrite lookup_all_wall.
  destruct (in_bounds width height c); [done|]. by intros [? ?].
Qed.

Lemma dense_all_wall (width height : Z) : dense (all_wall width height) width height.
Proof. intros c Hc. rewrite lookup_all_wall, Hc. by left. Qed.

(** One iteration of the loop phase on a grid that covers the rectangle can
    only raise [ValueError], and only for a width or height below 3. *)
Lemma add_loop_cases (width height : Z) (s : gen_state) :
  covered (g_maze s) width height ->
  (3 <= width /\ 3 <= height /\
   exists s', add_loop width height s = Ok s' /\
              covered (g_maze s') width height) \/
  ((width <= 2 \/ height <= 2) /\ add_loop width height s = Raise ValueError).
Proof.
  intros Hcov. unfold add_loop.
  destruct (decide (3 <= width)) as [Hw|Hw].
  2:{ right. split; [lia|]. unfold randrange.
      by rewrite (bool_decide_eq_false_2 (0 < width - 1 - 1)) by lia. }
  destruct (randrange_Ok (g_rng s) 1 (width - 1)) as (x & r1 & Hx & Hxr); [lia|].
  rewrite Hx. simpl.
  destruct (decide (3 <= height)) as [Hh|Hh].
  2:{ right. split; [lia|]. unfold randrange.
      by rewrite (bool_decide_eq_false_2 (0 < height - 1 - 1)) by lia. }
  destruct (randrange_Ok r1 1 (height - 1)) as (y & r2 & Hy & Hyr); [lia|].
  rewrite Hy. simpl. left. split; [done|]. split; [done|].
  destruct (Hcov (x, y)) as [v Hv].
  { apply in_bounds_spec. simpl. lia. }
  unfold getitem. rewrite Hv. simpl.
  case_bool_decide; eexists; (split; [reflexivity|]); simpl; [|done].
  by apply covered_insert.
Qed.

Lemma add_loops_small (n : nat) (width height : Z) (s : gen_state) :
  covered (g_maze s) width height ->
  (width <= 2 \/ height <= 2) -> (1 <= n)%nat ->
  add_loops n width height s = Raise ValueError.
Proof.
  intros Hcov Hsmall Hn. destruct n as [|n]; [lia|]. simpl.
  destruct (add_loop_cases width height s Hcov) as [(? & ? & _)|[_ E]]; [lia|].
  by rewrite E.
Qed.
End GeneratorFacts.

Section GeneratorExtras.
Context `{PyRandom}.

Lemma only_opens_dense (width height : Z) (maze maze' : gmap (Z * Z) string) :
  only_opens width height maze maze' ->
  dense maze width height -> dense maze' width height.
Proof.
  intros [_ Hchg] Hd c Hc.
  destruct (decide (maze' !! c = maze !! c)) as [E|E].
  - rewrite E. by apply Hd.
  - right. by apply Hchg.
Qed.

Lemma only_opens_keys (width height : Z) (maze maze' : gmap (Z * Z) string)
    (c : Cell) :
  only_opens width height maze maze' ->
  is_Some (maze' !! c) <-> is_Some (maze !! c).
Proof.
  intros [_ Hchg].
  destruct (decide (maze' !! c = maze !! c)) as [E|E]; [by rewrite E|].
  destruct (Hchg c E) as (_ & -> & ->). split; eauto.
Qed.

Lemma only_opens_passable (width height : Z) (maze maze' : gmap (Z * Z) string)
    (c : Cell) :
  only_opens width height maze maze' ->
  passable maze width height c -> passable maze' width height c.
Proof.
  intros [_ Hchg] (Hb & v & Hv & Hne). split; [done|].
  destruct (decide (maze' !! c = maze !! c)) as [E|E].
  - exists v. by rewrite E.
  - destruct (Hchg c E) as (_ & Hw & _). congruence.
Qed.

(** The two phases of a call that returns. *)
Lemma generate_maze_phases (width height seed loops : Z) (fuel : nat)
    (r0 : rng_state) (maze : gmap (Z * Z) string) (r : rng_state) :
  generate_maze fuel width height seed loops r0 = Ok (maze, r) ->
  exists s, carve fuel width height seed r0 = Ok s /\
            only_opens width height (g_maze s) maze.
Proof.
  unfold generate_maze. intros Hrun.
  apply bind_Ok in Hrun as (s & Hs & Hrun).
  apply bind_Ok in Hrun as (s' & Hs' & Hrun). injection Hrun as <- <-.
  exists s. split; [done|]. by destruct (add_loops_spec _ _ _ _ _ Hs') as [? _].
Qed.

(** X1.  Whatever the arguments, a grid returned by [generate_maze] maps
    every cell of the rectangle to [WALL] or [EMPTY] and maps [(1, 1)] to
    [EMPTY], also when [(1, 1)] is no cell of the rectangle; for a width and
    a height of at least 2 its keys are exactly the cells of the rectangle. *)
Theorem generate_maze_keys (width height seed loops : Z) (fuel : nat)
    (r0 : rng_state) (maze : gmap (Z * Z) string) (r : rng_state) :
  generate_maze fuel width height seed loops r0 = Ok (maze, r) ->
  dense maze width height /\
  maze !! (1, 1) = Some EMPTY /\
  (2 <= width -> 2 <= height ->
   forall c, is_Some (maze !! c) <-> in_bounds width height c = true).
Proof.
  intros Hrun. apply generate_maze_phases in Hrun as (s & Hs & Ho).
  unfold carve in Hs.
  assert (Hd : dense (g_maze s) width height).
  { intros c Hc.
    destruct (proj1 (visit_only_empties width height fuel) _ _ _ _ Hs c)
      as [E|E]; [|by right].
    rewrite E. by apply dense_all_wall. }
  split; [by eapply only_opens_dense|]. split.
  - apply (proj1 Ho).
    apply (proj1 (proj1 (visit_keeps_empty width height fuel) _ _ _ _ Hs)).
  - intros Hw Hh c. rewrite (only_opens_keys _ _ _ _ c Ho). split.
    + apply (proj1 (visit_keys_inside width height fuel) _ _ _ _ Hs).
      * apply in_bounds_spec. simpl. lia.
      * apply keys_inside_all_wall.
    + intros Hc. destruct (Hd c Hc) as [E|E]; rewrite E; eauto.
Qed.

(** The loop phase on a grid that covers the rectangle. *)
Lemma add_loops_cases (n : nat) (width height : Z) (s : gen_state) :
  covered (g_maze s) width height ->
  match add_loops n width height s with
  | Ok _ => n = 0%nat \/ (3 <= width /\ 3 <= height)
  | Raise e => e = ValueError /\ (1 <= n)%nat /\ (width <= 2 \/ height <= 2)
  | OutOfFuel => False
  end.
Proof.
  intros Hcov. destruct n as [|n]; [by left|].
  destruct (decide (3 <= width /\ 3 <= height)) as [[Hw Hh]|Hsmall].
  - destruct (add_loops_total (S n) width height s Hcov Hw Hh) as (s' & ->).
    by right.
  - rewrite add_loops_small by (done || lia). split; [done|]. lia.
Qed.

End GeneratorExtras.

Lemma generate_maze_keys_witness :
  dense (<[(1, 1) := EMPTY]> {[(0, 0) := WALL]}) 1 1 /\
  (<[(1, 1) := EMPTY]> {[(0, 0) := WALL]} : gmap (Z * Z) string) !! (1, 1)
    = Some EMPTY /\
  (2 <= 1 -> 2 <= 1 ->
   forall c, is_Some ((<[(1, 1) := EMPTY]> {[(0, 0) := WALL]}
                        : gmap (Z * Z) string) !! c)
             <-> in_bounds 1 1 c = true).
Proof.
  apply (@generate_maze_keys lcg_random 1 1 7 0 2%nat 0 _ 7).
  vm_compute. reflexivity.
Defined.


Section GeneratorStructure.
Context `{PyRandom}.
Variables width height : Z.
Hypothesis Hwodd : Z.odd width = true.
Hypothesis Hhodd : Z.odd height = true.
Hypothesis Hw3 : 3 <= width.
Hypothesis Hh3 : 3 <= height.

(** With enough fuel both phases return, and the second phase only opens
    interior walls of the grid left by the first. *)
Lemma generate_maze_run (seed loops : Z) (fuel : nat) (r0 : rng_state) :
  (carve_fuel width height <= fuel)%nat ->
  exists s maze r,
    generate_maze fuel width height seed loops r0 = Ok (maze, r) /\
    carve fuel width height seed r0 = Ok s /\
    carve_inv width height s /\
    (forall c, room_in width height c -> c ∈ g_visited s) /\
    only_opens width height (g_maze s) maze.
Proof.
  intros Hfuel.
  destruct (carve_spec width height Hwodd Hhodd Hw3 Hh3 fuel seed r0 Hfuel)
    as (s & Hrun & Hi & Hall).
  destruct (add_loops_total (Z.to_nat loops) width height s)
    as (s' & Hloops); [|done|done|].
  { apply dense_covered. by eapply ci_dense. }
  exists s, (g_maze s'), (g_rng s'). unfold generate_maze.
  rewrite Hrun. simpl. rewrite Hloops. simpl. split; [done|].
  split; [done|]. split; [done|]. split; [done|].
  by destruct (add_loops_spec _ _ _ _ _ Hloops) as [? _].
Qed.

(** A cell the carving phase opened is an interior cell with an odd
    coordinate. *)
Lemma carved_cell (s : gen_state) (c : Cell) :
  carve_inv width height s -> in_bounds width height c = true ->
  g_maze s !! c = Some EMPTY ->
  interior width height c /\ (Z.odd c.1 = true \/ Z.odd c.2 = true).
Proof.
  intros Hi Hc He. destruct (is_room c) eqn:Hroom.
  - unfold is_room in Hroom. apply andb_true_iff in Hroom as [Hx Hy].
    split; [|by left]. apply in_bounds_spec in Hc. unfold interior.
    destruct c as [x y]; simpl in *.
    assert (x <> 0) by (intros ->; done).
    assert (y <> 0) by (intros ->; done).
    assert (x <> width - 1).
    { intros ->. rewrite Z.odd_sub, Hwodd in Hx. done. }
    assert (y <> height - 1).
    { intros ->. rewrite Z.odd_sub, Hhodd in Hy. done. }
    lia.
  - destruct (ci_wall _ _ _ Hi c Hc Hroom He) as (a & b & Ha & Hb & Hta).
    pose proof (ci_rooms _ _ _ Hi a Ha) as Hra.
    pose proof (ci_rooms _ _ _ Hi b Hb) as Hrb.
    destruct (two_apart_wall width height a b c Hra Hrb Hta)
      as (_ & _ & Hint & _). split; [done|].
    destruct Hra as (Hax & Hay & _).
    destruct Hta as [[_ ->]|[[_ ->]|[[_ ->]|[_ ->]]]]; simpl; auto.
Qed.


End GeneratorStructure.




(** * Further properties of the solvers *)

(** ** A loop body that raises *)

(** If every run of the body keeps [P] or raises [e], and the body raises
    [e] at the element [a] whenever [P] holds, a loop over a list that
    contains [a] raises [e]. *)
Lemma for_each_raises {A S : Type} (P : S -> Prop) (e : exn)
    (body : A -> S -> result S) (a : A) (l : list A) (s : S) :
  a ∈ l -> P s ->
  (forall x s, P s -> match body x s with
                      | Ok s' => P s'
                      | Raise e' => e' = e
                      | OutOfFuel => False
                      end) ->
  (forall s, P s -> body a s = Raise e) ->
  for_each l body s = Raise e.
Proof.
  intros Hin Hs Hstep Hbad. revert s Hs.
  induction l as [|x l IH]; intros s Hs; [by apply elem_of_nil in Hin|].
  simpl. apply elem_of_cons in Hin as [<-|Hin]; [by rewrite Hbad|].
  pose proof (Hstep x s Hs) as Hx.
  destruct (body x s) as [s'|e'|]; simpl; [by apply IH|by subst|done].
Qed.

Lemma expand_keeps_maze (width height x y : Z) (d : Z * Z) (st : search_state) :
  match expand width height x y d st with
  | Ok st' => s_maze st' = s_maze st
  | Raise e => e = KeyError
  | OutOfFuel => False
  end.
Proof.
  unfold expand. destruct (in_bounds width height _); [|done].
  unfold getitem. destruct (s_maze st !! _); simpl; [|done].
  by destruct (_ && _).
Qed.

Lemma relax_keeps_maze (width height : Z) (goal current : Cell) (d : Z * Z)
    (st : astar_state) :
  match relax width height goal current d st with
  | Ok st' => a_maze st' = a_maze st
  | Raise e => e = KeyError
  | OutOfFuel => False
  end.
Proof.
  unfold relax. destruct (in_bounds width height _); [|done].
  unfold getitem. destruct (a_maze st !! _); simpl; [|done].
  destruct (bool_decide _); [|done].
  destruct (a_g st !! current); simpl; [|done].
  by destruct (match a_g st !! _ with Some _ => _ | None => _ end).
Qed.

(** X6.  When the start is the goal each solver returns the one-cell path
    [[start]] without reading the maze: any maze will do, also one with no
    key at all. *)
Theorem start_is_goal (maze : gmap (Z * Z) string) (width height : Z)
    (start : Cell) (fuel : nat) :
  (1 <= fuel)%nat ->
  bfs fuel maze start start width height = Ok ([start], maze) /\
  dfs fuel maze start start width height = Ok ([start], maze) /\
  astar fuel maze start start width height = Ok ([start], maze).
Proof.
  intros Hfuel. destruct fuel as [|fuel]; [lia|]. destruct start as [x y].
  assert (Hrec : reconstruct (S fuel) {[(x, y) := None]} (x, y) = Ok [(x, y)]).
  { unfold reconstruct. simpl. unfold parents_get.
    rewrite lookup_singleton_eq. by rewrite backtrack_None. }
  split; [|split].
  - unfold bfs. cbn -[reconstruct]. case_bool_decide; [|done].
    cbn -[reconstruct]. by rewrite Hrec.
  - unfold dfs. cbn -[reconstruct]. case_bool_decide; [|done].
    cbn -[reconstruct]. by rewrite Hrec.
  - unfold astar. cbn -[reconstruct remove_one].
    case_bool_decide; [|done]. cbn -[reconstruct]. by rewrite Hrec.
Qed.

(** X7.  A maze that lacks a key makes the solvers raise [KeyError]: when
    the start is not the goal and one of the four neighbours of the start
    lies in the rectangle but is no key of the maze, each solver raises
    [KeyError]. *)
Theorem solvers_missing_key (maze : gmap (Z * Z) string) (width height : Z)
    (start goal : Cell) (d : Z * Z) (fuel : nat) :
  start <> goal -> d ∈ dirs ->
  in_bounds width height (start.1 + d.1, start.2 + d.2) = true ->
  maze !! (start.1 + d.1, start.2 + d.2) = None ->
  (1 <= fuel)%nat ->
  bfs fuel maze start goal width height = Raise KeyError /\
  dfs fuel maze start goal width height = Raise KeyError /\
  astar fuel maze start goal width height = Raise KeyError.
Proof.
  intros Hne Hd Hin Hnone Hfuel. destruct fuel as [|fuel]; [lia|].
  destruct start as [x y]. simpl in Hin, Hnone.
  assert (He : forall st, s_maze st = maze ->
            for_each dirs (expand width height x y) st = Raise KeyError).
  { intros st Hst.
    apply (for_each_raises (fun st => s_maze st = maze) KeyError _ d);
      [done|done| |].
    - intros d' st' Hst'. pose proof (expand_keeps_maze width height x y d' st').
      destruct (expand width height x y d' st'); [congruence|done|done].
    - intros st' Hst'. unfold expand. rewrite Hin. unfold getitem.
      by rewrite Hst', Hnone. }
  assert (Hr : forall st, a_maze st = maze ->
            for_each dirs (relax width height goal (x, y)) st = Raise KeyError).
  { intros st Hst.
    apply (for_each_raises (fun st => a_maze st = maze) KeyError _ d);
      [done|done| |].
    - intros d' st' Hst'.
      pose proof (relax_keeps_maze width height goal (x, y) d' st').
      destruct (relax width height goal (x, y) d' st'); [congruence|done|done].
    - intros st' Hst'. unfold relax. simpl. rewrite Hin. unfold getitem.
      by rewrite Hst', Hnone. }
  split; [|split].
  - unfold bfs. cbn -[for_each dirs reconstruct].
    case_bool_decide; [done|]. by rewrite He.
  - unfold dfs. cbn -[for_each dirs reconstruct].
    case_bool_decide; [done|]. by rewrite He.
  - unfold astar. cbn -[for_each dirs reconstruct remove_one].
    case_bool_decide; [done|]. by rewrite Hr.
Qed.

(** ** Goals that cannot be entered *)

Lemma walk_end maze width height start c n :
  walk maze width height start c n -> c = start \/ passable maze width height c.
Proof. intros Hw. destruct Hw as [|c c' n _ [_ Hp]]; [by left|by right]. Qed.

(** X8.  A goal other than the start that is a [WALL] cell or lies outside
    the rectangle is never entered: on a dense grid each solver returns the
    one-cell path [[goal]]. *)
Theorem blocked_goal (maze : gmap (Z * Z) string) (width height : Z)
    (start goal : Cell) (fuel fuel_a : nat) :
  dense maze width height ->
  start <> goal ->
  in_bounds width height goal = false \/ maze !! goal = Some WALL ->
  (search_fuel width height <= fuel)%nat ->
  (astar_fuel width height <= fuel_a)%nat ->
  bfs fuel maze start goal width height = Ok ([goal], maze) /\
  dfs fuel maze start goal width height = Ok ([goal], maze) /\
  astar fuel_a maze start goal width height = Ok ([goal], maze).
Proof.
  intros Hd Hne Hblocked Hf Hfa. apply dense_covered in Hd.
  assert (Hn : ~ reachable maze width height start goal).
  { intros [p Hp]. apply valid_path_walk, walk_end in Hp as [E|Hp]; [done|].
    destruct Hp as (Hb & v & Hv & Hw).
    destruct Hblocked as [E|E]; congruence. }
  destruct (bfs_spec maze width height start goal fuel Hd Hf) as (pb & Hb & Hbn & _).
  destruct (dfs_spec maze width height start goal fuel Hd Hf) as (pd & Hdf & Hdn & _).
  destruct (astar_spec maze width height start goal fuel_a Hd Hfa) as (pa & Ha & Han & _).
  rewrite (Hbn Hn) in Hb. rewrite (Hdn Hn) in Hdf. rewrite (Han Hn) in Ha.
  done.
Qed.

(** ** Paths without repeated cells *)

Lemma backtrack_fuel_mono parents fuel : forall node acc p fuel',
  backtrack fuel parents node acc = Ok p -> (fuel <= fuel')%nat ->
  backtrack fuel' parents node acc = Ok p.
Proof.
  induction fuel as [|fuel IH]; intros node acc p fuel' Hrun Hle.
  - destruct node; [done|]. simpl in Hrun. injection Hrun as <-.
    apply backtrack_None.
  - destruct node as [c|].
    + destruct fuel' as [|fuel']; [lia|]. simpl in *.
      apply IH; [done|lia].
    + simpl in Hrun. injection Hrun as <-. apply backtrack_None.
Qed.

(** The result of the reconstruction is the chain of predecessors. *)
Lemma reconstruct_chain_inv parents goal l fuel p :
  chain parents goal l -> reconstruct fuel parents goal = Ok p ->
  p = reverse l.
Proof.
  intros Hl Hrun.
  pose proof (reconstruct_chain parents goal l (fuel `max` length l) Hl
                ltac:(lia)) as Hbig.
  unfold reconstruct in *.
  apply bind_Ok in Hrun as (q & Hq & Hrun). injection Hrun as <-.
  rewrite (backtrack_fuel_mono _ _ _ _ _ (fuel `max` length l) Hq) in Hbig
    by lia.
  simpl in Hbig. by injection Hbig.
Qed.

Lemma reconstruct_unknown_inv parents goal fuel p :
  parents !! goal = None -> reconstruct fuel parents goal = Ok p -> p = [goal].
Proof.
  intros Hnone Hrun. destruct fuel as [|fuel]; [done|].
  rewrite backtrack_unknown in Hrun by (done || lia). by injection Hrun.
Qed.

(** A chain whose rank decreases towards the root repeats no cell, and all
    its cells have a predecessor entry. *)
Lemma chain_NoDup (rank : Cell -> nat) (parents : gmap (Z * Z) (option Cell)) :
  (forall c p, parents !! c = Some (Some p) -> (rank p < rank c)%nat) ->
  forall c l, chain parents c l ->
    NoDup l /\ (forall x, x ∈ l -> (rank x <= rank c)%nat /\
                                  is_Some (parents !! x)).
Proof.
  intros Hrank c l Hl. induction Hl as [c Hc|c p l Hc Hl [IH1 IH2]].
  - split; [apply NoDup_singleton|].
    intros x ->%list_elem_of_singleton. split; [lia|eauto].
  - split.
    + apply NoDup_cons. split; [|done]. intros Hin.
      destruct (IH2 c Hin) as [Hle _]. specialize (Hrank c p Hc). lia.
    + intros x [->|Hin]%elem_of_cons; [split; [lia|eauto]|].
      destruct (IH2 x Hin) as [Hle Hs]. split; [|done].
      specialize (Hrank c p Hc). lia.
Qed.

(** A list without repetition of cells of the rectangle and the start. *)
Lemma length_simple_path (width height : Z) (start : Cell) (p : list Cell) :
  NoDup p ->
  (forall c, c ∈ p -> c = start \/ in_bounds width height c = true) ->
  (length p <= Z.to_nat width * Z.to_nat height + 1)%nat.
Proof.
  intros Hnd Hin. rewrite <- length_cells.
  assert (Hsub : p ⊆+ start :: cells width height).
  { apply NoDup_submseteq; [done|]. intros c Hc. apply elem_of_cons.
    destruct (Hin c Hc) as [->|Hb]; [by left|right]. by apply elem_of_cells. }
  apply submseteq_length in Hsub. simpl in Hsub. lia.
Qed.

Lemma tree_inv_simple maze width height start goal lv done cur st fuel p :
  tree_inv maze width height start lv done cur st ->
  reconstruct fuel (s_parents st) goal = Ok p ->
  NoDup p /\
  (p = [goal] \/
   forall c, c ∈ p -> c = start \/ in_bounds width height c = true).
Proof.
  intros Ht Hrun.
  destruct (s_parents st !! goal) as [v|] eqn:Hgoal.
  - destruct (tree_inv_path maze width height start lv done cur st goal Ht)
      as (l & Hl & _); [by rewrite Hgoal|].
    apply (reconstruct_chain_inv _ _ l) in Hrun; [|done]. subst p.
    destruct (chain_NoDup lv (s_parents st)) with (c := goal) (l := l)
      as [Hnd Hdom]; [|done|].
    { intros c p Hp. destruct (ti_link _ _ _ _ _ _ _ _ Ht c p Hp) as (_ & _ & E).
      lia. }
    split; [by rewrite reverse_Permutation|]. right.
    intros c Hc. rewrite elem_of_reverse in Hc.
    apply (ti_dom _ _ _ _ _ _ _ _ Ht). exact (proj2 (Hdom c Hc)).
  - apply reconstruct_unknown_inv in Hrun; [|done]. subst p.
    split; [apply NoDup_singleton|by left].
Qed.

Lemma astar_inv_simple maze width height start goal cur st fuel p :
  astar_inv maze width height start goal cur st ->
  reconstruct fuel (a_parents st) goal = Ok p ->
  NoDup p /\
  (p = [goal] \/
   forall c, c ∈ p -> c = start \/ in_bounds width height c = true).
Proof.
  intros Hi Hrun.
  destruct (a_parents st !! goal) as [v|] eqn:Hgoal.
  - destruct (astar_inv_path maze width height start goal cur st goal Hi)
      as (l & Hl & _); [by rewrite Hgoal|].
    apply (reconstruct_chain_inv _ _ l) in Hrun; [|done]. subst p.
    destruct (chain_NoDup (cost_rank (a_g st)) (a_parents st))
      with (c := goal) (l := l) as [Hnd Hdom]; [|done|].
    { intros c p Hp.
      destruct (ai_link _ _ _ _ _ _ _ Hi c p Hp)
        as (_ & gp & gc & Hgp & Hgc & Hle).
      unfold cost_rank. rewrite Hgp, Hgc. simpl.
      destruct (ai_pos _ _ _ _ _ _ _ Hi p gp Hgp). lia. }
    split; [by rewrite reverse_Permutation|]. right.
    intros c Hc. rewrite elem_of_reverse in Hc.
    apply (ai_dom _ _ _ _ _ _ _ Hi). apply (ai_same _ _ _ _ _ _ _ Hi).
    exact (proj2 (Hdom c Hc)).
  - apply reconstruct_unknown_inv in Hrun; [|done]. subst p.
    split; [apply NoDup_singleton|by left].
Qed.

(** A path returned by a solver repeats no cell. *)
Lemma returned_path_simple (maze : gmap (Z * Z) string) (width height : Z)
    (start goal : Cell) (fuel : nat) (p : list Cell) (m : gmap (Z * Z) string) :
  covered maze width height ->
  bfs fuel maze start goal width height = Ok (p, m) \/
  dfs fuel maze start goal width height = Ok (p, m) \/
  astar fuel maze start goal width height = Ok (p, m) ->
  NoDup p /\
  (p = [goal] \/
   forall c, c ∈ p -> c = start \/ in_bounds width height c = true).
Proof.
  intros Hcov Hrun. destruct Hrun as [Hrun|[Hrun|Hrun]].
  - unfold bfs in Hrun. apply bind_Ok in Hrun as (st & Hst & Hrun).
    apply bind_Ok in Hrun as (q & Hq & Hrun). injection Hrun as <- <-.
    pose proof (bfs_run maze width height start goal fuel Hcov) as Hb.
    rewrite Hst in Hb. destruct Hb as (_ & lv & done & cur & Ht & _).
    by eapply tree_inv_simple.
  - unfold dfs in Hrun. apply bind_Ok in Hrun as (st & Hst & Hrun).
    apply bind_Ok in Hrun as (q & Hq & Hrun). injection Hrun as <- <-.
    pose proof (dfs_run maze width height start goal fuel Hcov) as Hb.
    rewrite Hst in Hb. destruct Hb as (_ & lv & done & cur & Ht & _).
    by eapply tree_inv_simple.
  - unfold astar in Hrun. apply bind_Ok in Hrun as (st & Hst & Hrun).
    apply bind_Ok in Hrun as (q & Hq & Hrun). injection Hrun as <- <-.
    pose proof (astar_run maze width height start goal fuel Hcov) as Hb.
    rewrite Hst in Hb. destruct Hb as [[cur Hi] _].
    by eapply astar_inv_simple.
Qed.

(** X9.  On a grid that has a key for every cell of the rectangle, a path
    returned by [bfs], [dfs] or [astar] visits no cell twice; it is the
    one-cell path [[goal]] or consists of the start and cells of the
    rectangle, so it has at most [width * height + 1] cells. *)
Theorem paths_simple (maze : gmap (Z * Z) string) (width height : Z)
    (start goal : Cell) (fuel : nat) (p : list Cell) (m : gmap (Z * Z) string) :
  covered maze width height ->
  bfs fuel maze start goal width height = Ok (p, m) \/
  dfs fuel maze start goal width height = Ok (p, m) \/
  astar fuel maze start goal width height = Ok (p, m) ->
  NoDup p /\
  (p = [goal] \/
   forall c, c ∈ p -> c = start \/ in_bounds width height c = true) /\
  (length p <= Z.to_nat width * Z.to_nat height + 1)%nat.
Proof.
  intros Hcov Hrun.
  destruct (returned_path_simple maze width height start goal fuel p m Hcov Hrun)
    as [Hnd Hin].
  split; [done|]. split; [done|].
  destruct Hin as [->|Hin]; [simpl; lia|].
  by apply (length_simple_path width height start).
Qed.

Lemma start_is_goal_witness :
  bfs 1 ∅ (4, 7) (4, 7) 3 3 = Ok ([(4, 7)], ∅) /\
  dfs 1 ∅ (4, 7) (4, 7) 3 3 = Ok ([(4, 7)], ∅) /\
  astar 1 ∅ (4, 7) (4, 7) 3 3 = Ok ([(4, 7)], ∅).
Proof. apply (start_is_goal ∅ 3 3 (4, 7) 1). lia. Defined.

Lemma solvers_missing_key_witness :
  bfs 11 (delete (0, 1) open_grid) (0, 0) (2, 2) 3 3 = Raise KeyError /\
  dfs 11 (delete (0, 1) open_grid) (0, 0) (2, 2) 3 3 = Raise KeyError /\
  astar 11 (delete (0, 1) open_grid) (0, 0) (2, 2) 3 3 = Raise KeyError.
Proof.
  apply (solvers_missing_key (delete (0, 1) open_grid) 3 3 (0, 0) (2, 2) (0, 1) 11).
  - discriminate.
  - vm_compute. do 2 right. left.
  - reflexivity.
  - vm_compute. reflexivity.
  - lia.
Defined.

Lemma blocked_goal_witness :
  bfs 11 open_grid (0, 0) (3, 3) 3 3 = Ok ([(3, 3)], open_grid) /\
  dfs 11 open_grid (0, 0) (3, 3) 3 3 = Ok ([(3, 3)], open_grid) /\
  astar 121 open_grid (0, 0) (3, 3) 3 3 = Ok ([(3, 3)], open_grid).
Proof.
  apply (blocked_goal open_grid 3 3 (0, 0) (3, 3) 11 121).
  - apply denseb_dense. vm_compute. reflexivity.
  - discriminate.
  - left. reflexivity.
  - vm_compute. lia.
  - vm_compute. lia.
Defined.

Lemma paths_simple_witness :
  NoDup [(0, 0); (0, 1); (0, 2); (1, 2); (2, 2)] /\
  ([(0, 0); (0, 1); (0, 2); (1, 2); (2, 2)] = [(2, 2)] \/
   forall c, c ∈ [(0, 0); (0, 1); (0, 2); (1, 2); (2, 2)] ->
     c = (0, 0) \/ in_bounds 3 3 c = true) /\
  le (length [(0, 0); (0, 1); (0, 2); (1, 2); (2, 2)])
     (Z.to_nat 3 * Z.to_nat 3 + 1)%nat.
Proof.
  apply (paths_simple open_grid 3 3 (0, 0) (2, 2) 11 _ open_grid).
  - apply dense_covered, denseb_dense. vm_compute. reflexivity.
  - right. left. vm_compute. reflexivity.
Defined.

(** * Further properties of the renderer *)

Lemma for_each_ext {A S : Type} (f g : A -> S -> result S) (l : list A) (s : S) :
  (forall a s, a ∈ l -> f a s = g a s) -> for_each l f s = for_each l g s.
Proof.
  revert s. induction l as [|a l IH]; intros s Hfg; [done|]. simpl.
  rewrite Hfg by left. destruct (g a s); simpl; [|done|done].
  apply IH. intros a' s' Ha'. apply Hfg. by right.
Qed.

Lemma render_cell_keeps path start goal y x st :
  match render_cell path start goal y x st with
  | Ok st' => r_maze st' = r_maze st
  | Raise e => e = KeyError
  | OutOfFuel => False
  end.
Proof.
  unfold render_cell. destruct (_ && _); [done|].
  destruct (bool_decide (Some (x, y) = start)); [done|].
  destruct (bool_decide (Some (x, y) = goal)); [done|].
  unfold getitem. destruct (r_maze st !! (x, y)); simpl; [|done].
  by destruct (bool_decide _).
Qed.

Lemma render_cells_keeps path start goal y xs : forall st,
  match for_each xs (render_cell path start goal y) st with
  | Ok st' => r_maze st' = r_maze st
  | Raise e => e = KeyError
  | OutOfFuel => False
  end.
Proof.
  induction xs as [|x xs IH]; intros st; [done|]. simpl.
  pose proof (render_cell_keeps path start goal y x st) as Hc.
  destruct (render_cell path start goal y x st) as [st1| |]; simpl; [|done|done].
  specialize (IH st1).
  destruct (for_each xs _ st1); [congruence|done|done].
Qed.

Lemma render_row_keeps width path start goal y st :
  match render_row width path start goal y st with
  | Ok st' => r_maze st' = r_maze st
  | Raise e => e = KeyError
  | OutOfFuel => False
  end.
Proof.
  unfold render_row.
  pose proof (render_cells_keeps path start goal y (range width) st) as Hc.
  by destruct (for_each (range width) _ st).
Qed.

(** The symbol of a cell when its state is in the maze or is not looked
    up. *)
Lemma render_cell_read maze path start goal x y st :
  (looked_up path start goal (x, y) -> is_Some (maze !! (x, y))) ->
  r_maze st = maze ->
  render_cell path start goal y x st =
    Ok (RenderState maze (r_grid st +:+ spec_symbol maze path start goal (x, y))).
Proof.
  intros Hcov Hm. unfold render_cell, spec_symbol, looked_up in *.
  rewrite on_path_in_path, Hm.
  destruct (bool_decide (Some (x, y) = start)) eqn:Es; simpl.
  { rewrite andb_false_r. reflexivity. }
  destruct (bool_decide (Some (x, y) = goal)) eqn:Eg; simpl.
  { rewrite andb_false_r. reflexivity. }
  rewrite andb_true_r.
  destruct (in_path path (x, y)); [reflexivity|].
  apply bool_decide_eq_false in Es, Eg.
  destruct Hcov as [v Hv]; [done|]. unfold getitem. rewrite Hv. simpl.
  destruct (decide (v = WALL)) as [->|Hne].
  - rewrite !bool_decide_eq_true_2 by done. reflexivity.
  - rewrite (bool_decide_eq_false_2 (v = WALL)) by done.
    rewrite bool_decide_eq_false_2 by congruence. reflexivity.
Qed.

Lemma render_cells_read maze path start goal y xs :
  (forall x, x ∈ xs -> looked_up path start goal (x, y) ->
             is_Some (maze !! (x, y))) ->
  forall st, r_maze st = maze ->
  for_each xs (render_cell path start goal y) st =
    Ok (RenderState maze
          (r_grid st +:+
           foldr String.append ""
             ((fun x => spec_symbol maze path start goal (x, y)) <$> xs))).
Proof.
  induction xs as [|x xs IH]; intros Hin st Hm.
  - simpl. rewrite string_app_nil_r. destruct st; simpl in *; by subst.
  - simpl. rewrite (render_cell_read maze) by (auto; apply Hin; left).
    simpl. rewrite IH; [|intros; apply Hin; [by right|done]|done].
    simpl. by rewrite string_app_assoc.
Qed.

Lemma render_row_read maze width path start goal y st :
  (forall x, x ∈ range width -> looked_up path start goal (x, y) ->
             is_Some (maze !! (x, y))) ->
  r_maze st = maze ->
  render_row width path start goal y st =
    Ok (RenderState maze
          (r_grid st +:+
           foldr String.append ""
             ((fun x => spec_symbol maze path start goal (x, y)) <$> range width)
           +:+ "
")).
Proof.
  intros Hin Hm. unfold render_row.
  rewrite (render_cells_read maze); auto.
  simpl. by rewrite string_app_assoc.
Qed.

Lemma render_rows_read maze width path start goal ys :
  (forall x y, x ∈ range width -> y ∈ ys -> looked_up path start goal (x, y) ->
               is_Some (maze !! (x, y))) ->
  forall st, r_maze st = maze ->
  for_each ys (render_row width path start goal) st =
    Ok (RenderState maze
          (r_grid st +:+
           text_of_rows
             ((fun y => (fun x => spec_symbol maze path start goal (x, y))
                          <$> range width) <$> ys))).
Proof.
  induction ys as [|y ys IH]; intros Hin st Hm.
  - simpl. rewrite string_app_nil_r. destruct st; simpl in *; by subst.
  - cbn [for_each].
    rewrite (render_row_read maze); [|intros; apply Hin; [done|left|done]|done].
    cbn [mbind result_bind].
    rewrite IH; [|intros; apply Hin; [done|by right|done]|done].
    cbn [r_grid fmap list_fmap text_of_rows foldr].
    by rewrite !string_app_assoc.
Qed.

(** X10.  [render_maze] looks up only the cells of the rectangle that are
    not the start, not the goal and not on the path.  When each of them is a
    key of the maze it returns the text of the specification and leaves the
    maze as it was; when one of them is no key it raises [KeyError]. *)
Theorem render_maze_lookups (maze : gmap (Z * Z) string) (width height : Z)
    (path : option (list Cell)) (start goal : option Cell) :
  ((forall c, in_bounds width height c = true -> looked_up path start goal c ->
              is_Some (maze !! c)) ->
   render_maze maze width height path start goal =
     Ok (text_of_rows (spec_rows maze width height path start goal), maze)) /\
  (forall c, in_bounds width height c = true -> looked_up path start goal c ->
             maze !! c = None ->
   render_maze maze width height path start goal = Raise KeyError).
Proof.
  split.
  - intros Hcov. unfold render_maze.
    rewrite (render_rows_read maze width path start goal); [done| |done].
    intros x y Hx Hy. apply Hcov. apply in_bounds_spec. simpl.
    unfold range in *. apply elem_of_seqZ in Hx, Hy. lia.
  - intros [x y] Hc Hread Hnone. apply in_bounds_spec in Hc. simpl in Hc.
    unfold render_maze.
    rewrite (for_each_raises (fun st => r_maze st = maze) KeyError _ y);
      [done| |done| |].
    + unfold range. apply elem_of_seqZ. lia.
    + intros y' st Hst.
      pose proof (render_row_keeps width path start goal y' st) as Hk.
      destruct (render_row width path start goal y' st); [congruence|done|done].
    + intros st Hst. unfold render_row.
      rewrite (for_each_raises (fun st => r_maze st = maze) KeyError _ x);
        [done| |done| |].
      * unfold range. apply elem_of_seqZ. lia.
      * intros x' st' Hst'.
        pose proof (render_cell_keeps path start goal y x' st') as Hk.
        destruct (render_cell path start goal y x' st'); [congruence|done|done].
      * intros st' Hst'. destruct Hread as (Hs & Hg & Hp).
        unfold render_cell. rewrite on_path_in_path, Hp. simpl.
        rewrite !bool_decide_eq_false_2 by done.
        unfold getitem. by rewrite Hst', Hnone.
Qed.

(** X11.  The rendering depends on the path only through the cells of the
    rectangle it marks: two paths with the same cells, apart from the start
    and the goal, give the same text.  So a reversed path renders like the
    path, and the one-cell path [[goal]] renders like no path. *)
Theorem render_maze_path_cells (maze : gmap (Z * Z) string) (width height : Z)
    (start goal : option Cell) :
  (forall p1 p2,
     (forall c, in_bounds width height c = true -> Some c <> start ->
                Some c <> goal -> in_path p1 c = in_path p2 c) ->
     render_maze maze width height p1 start goal =
     render_maze maze width height p2 start goal) /\
  (forall p, render_maze maze width height (Some (reverse p)) start goal =
             render_maze maze width height (Some p) start goal) /\
  (forall g, goal = Some g ->
     render_maze maze width height (Some [g]) start goal =
     render_maze maze width height None start goal).
Proof.
  assert (Hext : forall p1 p2,
     (forall c, in_bounds width height c = true -> Some c <> start ->
                Some c <> goal -> in_path p1 c = in_path p2 c) ->
     render_maze maze width height p1 start goal =
     render_maze maze width height p2 start goal).
  { intros p1 p2 Hsame. unfold render_maze. f_equal.
    apply for_each_ext. intros y st Hy. unfold render_row. f_equal.
    apply for_each_ext. intros x st' Hx. unfold render_cell.
    rewrite !on_path_in_path.
    destruct (decide (Some (x, y) = start)) as [Es|Es].
    { rewrite !(bool_decide_eq_true_2 _ Es). simpl.
      by rewrite !andb_false_r. }
    destruct (decide (Some (x, y) = goal)) as [Eg|Eg].
    { rewrite !(bool_decide_eq_true_2 _ Eg). rewrite !orb_true_r. simpl.
      by rewrite !andb_false_r. }
    rewrite (Hsame (x, y)); [done| |done|done].
    apply in_bounds_spec. simpl. unfold range in *.
    apply elem_of_seqZ in Hx, Hy. lia. }
  split; [done|]. split.
  - intros p. apply Hext. intros c _ _ _. simpl.
    apply bool_decide_ext. apply elem_of_reverse.
  - intros g -> . apply Hext. intros c _ _ Hg. simpl.
    apply bool_decide_eq_false_2. intros ->%list_elem_of_singleton. done.
Qed.

Lemma render_maze_lookups_witness :
  render_maze (delete (1, 1) open_grid) 3 3 None None None = Raise KeyError.
Proof.
  apply (proj2 (render_maze_lookups (delete (1, 1) open_grid) 3 3 None None None)
           (1, 1)).
  - reflexivity.
  - unfold looked_up. split; [discriminate|split; [discriminate|reflexivity]].
  - vm_compute. reflexivity.
Defined.

Lemma render_maze_path_cells_witness :
  render_maze open_grid 3 3 (Some [(1, 1); (0, 0); (1, 1); (5, 5)])
              (Some (0, 0)) (Some (2, 2)) =
  render_maze open_grid 3 3 (Some [(1, 1)]) (Some (0, 0)) (Some (2, 2)).
Proof.
  apply (proj1 (render_maze_path_cells open_grid 3 3 (Some (0, 0)) (Some (2, 2)))).
  intros c Hc Hs Hg. simpl. apply bool_decide_ext.
  apply in_bounds_spec in Hc. rewrite !elem_of_cons, elem_of_nil.
  split.
  - intros [->|[->|[->|[->|[]]]]]; [by left|done|by left|simpl in Hc; lia].
  - intros [->|[]]. by left.
Defined.

(** * The page *)

Lemma astar_fuel_bounds width height :
  (search_fuel width height <= astar_fuel width height)%nat /\
  (carve_fuel width height <= astar_fuel width height)%nat.
Proof.
  split; [apply search_fuel_le_astar|].
  pose proof (length_rooms_le width height).
  unfold carve_fuel, astar_fuel. nia.
Qed.

Lemma render_maze_covered maze width height path start goal :
  covered maze width height ->
  render_maze maze width height path start goal =
    Ok (text_of_rows (spec_rows maze width height path start goal), maze).
Proof.
  intros Hcov. unfold render_maze.
  rewrite (render_rows_spec maze width height); [done|done| |done].
  intros y Hy. apply elem_of_seqZ in Hy. lia.
Qed.

Section PageFacts.
Context `{PyRandom}.

(** The maze handed to the solvers: dense, open at the start, and with the
    goal room reachable from the start room. *)
Lemma generate_maze_solvable (width height seed loops : Z) (fuel : nat)
    (r0 : rng_state) :
  Z.odd width = true -> Z.odd height = true -> 3 <= width -> 3 <= height ->
  (carve_fuel width height <= fuel)%nat ->
  exists maze r,
    generate_maze fuel width height seed loops r0 = Ok (maze, r) /\
    dense maze width height /\
    maze !! (1, 1) = Some EMPTY /\
    reachable maze width height (1, 1) (width - 2, height - 2).
Proof.
  intros Hwodd Hhodd Hw3 Hh3 Hfuel.
  destruct (generate_maze_run width height Hwodd Hhodd Hw3 Hh3 seed loops fuel
              r0 Hfuel) as (s & maze & r & Hrun & Hs & Hi & Hall & Ho).
  exists maze, r. split; [done|].
  split; [eapply only_opens_dense; [done|by eapply ci_dense]|].
  assert (H1 : room_in width height (1, 1)).
  { unfold room_in. simpl. repeat split; lia. }
  assert (H2 : room_in width height (width - 2, height - 2)).
  { unfold room_in. simpl. rewrite !Z.odd_sub, Hwodd, Hhodd.
    repeat split; lia. }
  split.
  - apply (proj1 Ho). apply (ci_empty _ _ _ Hi _ H1). by apply Hall.
  - destruct (ci_reach _ _ _ Hi _ (Hall _ H2)) as [[n Hn] _].
    eapply walk_reachable, walk_mono; [|exact Hn].
    intros c. by apply only_opens_passable.
Qed.

(** Pressing the button for odd width and height of at least 3. *)
Lemma generate_and_solve_run (width height loops seed : Z) (fuel : nat)
    (r0 : rng_state) :
  Z.odd width = true -> Z.odd height = true -> 3 <= width -> 3 <= height ->
  (astar_fuel width height <= fuel)%nat ->
  exists maze r pb pd pa,
    generate_maze fuel width height seed loops r0 = Ok (maze, r) /\
    generate_and_solve fuel width height loops seed r0 =
      Ok ([Subheader "🟠 DFS Solution"; Text (solution_text maze width height pd);
           Subheader "🔵 BFS Solution"; Text (solution_text maze width height pb);
           Subheader "🟢 A* Solution"; Text (solution_text maze width height pa)],
          r) /\
    (forall p, p ∈ [pb; pd; pa] ->
       valid_path maze width height (1, 1) (width - 2, height - 2) p /\
       wall_free maze p) /\
    (forall q, valid_path maze width height (1, 1) (width - 2, height - 2) q ->
       (length pb <= length q)%nat) /\
    length pa = length pb /\
    (length pb <= length pd)%nat.
Proof.
  intros Hwodd Hhodd Hw3 Hh3 Hfuel.
  destruct (astar_fuel_bounds width height) as [Hsf Hcf].
  destruct (generate_maze_solvable width height seed loops fuel r0)
    as (maze & r & Hgen & Hd & Hstart & Hreach); [done|done|done|done|lia|].
  pose proof (dense_covered _ _ _ Hd) as Hcov.
  destruct (bfs_spec maze width height (1, 1) (width - 2, height - 2) fuel Hcov)
    as (pb & Hb & _ & Hby); [lia|].
  destruct (dfs_spec maze width height (1, 1) (width - 2, height - 2) fuel Hcov)
    as (pd & Hdf & _ & Hdy); [lia|].
  destruct (astar_spec maze width height (1, 1) (width - 2, height - 2) fuel Hcov)
    as (pa & Ha & _ & Hay); [lia|].
  destruct (Hby Hreach) as [Hvb Hminb]. destruct (Hay Hreach) as [Hva Hmina].
  specialize (Hdy Hreach).
  exists maze, r, pb, pd, pa. split; [done|]. split; [|split; [|split; [done|split]]].
  - unfold generate_and_solve. rewrite Hgen. cbn [mbind result_bind].
    rewrite Hb. cbn [mbind result_bind]. rewrite Hdf. cbn [mbind result_bind].
    rewrite Ha. cbn [mbind result_bind].
    rewrite !(render_maze_covered maze width height) by done.
    reflexivity.
  - assert (Hne : maze !! (1, 1) <> Some WALL).
    { rewrite Hstart. intros E. apply WALL_neq_EMPTY. congruence. }
    intros p Hp. rewrite !elem_of_cons, elem_of_nil in Hp.
    destruct Hp as [->|[->|[->|[]]]];
      (split; [done|by eapply valid_path_wall_free]).
  - apply Nat.le_antisymm; [by apply Hmina|by apply Hminb].
  - by apply Hminb.
Qed.
Lemma slider_odd (max_value v : Z) :
  slider_value 9 max_value 2 v -> Z.odd v = true /\ 3 <= v.
Proof.
  intros [Hr Hm]. split; [|lia].
  assert (E : v = 2 * ((v - 9) / 2) + 9).
  { pose proof (Z.div_mod (v - 9) 2). lia. }
  rewrite E, Z.odd_add, Z.odd_mul. reflexivity.
Qed.

End PageFacts.


(** * More loops *)

Section MoreLoops.
Context `{PyRandom}.

(** The iterations of the loop phase, split in two. *)
Lemma add_loops_add (n k : nat) (width height : Z) : forall s,
  add_loops (n + k) width height s =
  s1 ← add_loops n width height s; add_loops k width height s1.
Proof.
  induction n as [|n IH]; intros s; [done|]. simpl.
  destruct (add_loop width height s) as [s'| |]; simpl; [apply IH|done|done].
Qed.

(** X13.  Asking for more loops with the same width, height and seed never
    closes a passage: the second grid differs from the first only at
    interior cells that were [WALL] and are now [EMPTY], at most as many as
    the extra loops asked for. *)
Theorem more_loops_only_open (width height seed loops loops' : Z) (fuel : nat)
    (r0 : rng_state) (maze maze' : gmap (Z * Z) string) (r r' : rng_state) :
  generate_maze fuel width height seed loops r0 = Ok (maze, r) ->
  generate_maze fuel width height seed loops' r0 = Ok (maze', r') ->
  loops <= loops' ->
  (forall c, maze !! c = Some EMPTY -> maze' !! c = Some EMPTY) /\
  (forall c, maze' !! c <> maze !! c ->
     interior width height c /\
     maze !! c = Some WALL /\ maze' !! c = Some EMPTY) /\
  Z.of_nat (length (changed_cells maze maze' width height)) <= loops' - loops.
Proof.
  unfold generate_maze. intros H1 H2 Hle.
  apply bind_Ok in H1 as (s & Hs & H1). rewrite Hs in H2. simpl in H2.
  apply bind_Ok in H1 as (s1 & Hs1 & H1). injection H1 as <- <-.
  apply bind_Ok in H2 as (s2 & Hs2 & H2). injection H2 as <- <-.
  replace (Z.to_nat loops') with
    (Z.to_nat loops + (Z.to_nat loops' - Z.to_nat loops))%nat in Hs2 by lia.
  rewrite add_loops_add, Hs1 in Hs2. simpl in Hs2.
  destruct (add_loops_spec _ _ _ _ _ Hs2) as ([Hkeep Hchg] & _ & Hlen).
  split; [done|]. split; [done|]. lia.
Qed.
End MoreLoops.

Lemma more_loops_only_open_witness :
  (forall c, carved_grid !! c = Some EMPTY -> looped_grid !! c = Some EMPTY) /\
  (forall c, looped_grid !! c <> carved_grid !! c ->
     interior 9 9 c /\
     carved_grid !! c = Some WALL /\ looped_grid !! c = Some EMPTY) /\
  Z.of_nat (length (changed_cells carved_grid looped_grid 9 9)) <= 40 - 0.
Proof.
  apply (@more_loops_only_open lcg_random 9 9 1 0 40 32%nat 0
           carved_grid looped_grid 2111915288 1800624392).
  - vm_compute. reflexivity.
  - vm_compute. reflexivity.
  - lia.
Defined.

(** * Mazes without loops *)

(** ** Attaching a dead end keeps paths unique *)

Lemma adjacent_sym (a b : Cell) : adjacent a b -> adjacent b a.
Proof.
  rewrite !adjacent_char. destruct a as [x y], b as [x' y']. simpl.
  intros [E|[E|[E|E]]]; injection E as -> ->;
    [right; left|left|right; right; right|right; right; left]; f_equal; lia.
Qed.

Lemma linked_tail (R : Cell -> Cell -> Prop) (c : Cell) (p : list Cell) :
  linked R (c :: p) -> linked R p.
Proof. destruct p; [done|]. by intros [_ ?]. Qed.

Lemma linked_weaken_in (R R' : Cell -> Cell -> Prop) (p : list Cell) :
  (forall a b, b ∈ p -> R a b -> R' a b) -> linked R p -> linked R' p.
Proof.
  induction p as [|c p IH]; intros HR Hl; [done|].
  destruct p as [|c' p]; [done|]. destruct Hl as [Hc Hl]. split.
  - apply HR; [|done]. right. left.
  - apply IH; [|done]. intros a b Hb. apply HR. by right.
Qed.

(** Every cell of a path that starts at a passable cell is passable. *)
Lemma path_passable maze width height (p : list Cell) :
  linked (step maze width height) p ->
  (forall a, head p = Some a -> passable maze width height a) ->
  forall c, c ∈ p -> passable maze width height c.
Proof.
  induction p as [|x p IH]; intros Hl Hhead c Hc; [by apply elem_of_nil in Hc|].
  apply elem_of_cons in Hc as [->|Hc]; [by apply Hhead|].
  apply IH; [by eapply linked_tail| |done].
  destruct p as [|y p]; [done|]. intros a [= <-]. by destruct Hl as [[_ ?] _].
Qed.

(** A path without repeated cells that returns to its first cell has one
    cell. *)
Lemma simple_loop (a : Cell) (p : list Cell) :
  head p = Some a -> last p = Some a -> NoDup p -> p = [a].
Proof.
  destruct p as [|x p]; [done|]. intros [= ->] Hlast Hnd.
  destruct p as [|y p]; [done|]. exfalso.
  apply NoDup_cons in Hnd as [Hnotin _]. apply Hnotin.
  rewrite last_cons_cons in Hlast. by eapply last_Some_elem_of.
Qed.

Section Pendant.
Variables (maze : gmap (Z * Z) string) (width height : Z) (v u : Cell).
Let maze' : gmap (Z * Z) string := <[v := EMPTY]> maze.
Hypothesis Hu : forall x, adjacent v x -> passable maze' width height x -> x = u.

Lemma passable_before (c : Cell) :
  passable maze' width height c -> c <> v -> passable maze width height c.
Proof.
  intros (Hb & x & Hx & Hne) Hcv. split; [done|]. exists x.
  unfold maze' in Hx. by rewrite lookup_insert_ne in Hx.
Qed.

Lemma linked_before (p : list Cell) :
  linked (step maze' width height) p -> v ∉ p ->
  linked (step maze width height) p.
Proof.
  intros Hl Hv. eapply linked_weaken_in; [|exact Hl].
  intros a b Hb [Hadj Hp]. split; [done|]. apply passable_before; [done|].
  by intros ->.
Qed.

(** The new cell is at an end of every path without repeated cells. *)
Lemma pendant_ends (a b : Cell) (p : list Cell) :
  passable maze' width height a ->
  simple_path maze' width height a b p -> v ∈ p -> a = v \/ b = v.
Proof.
  intros Ha [(Hhead & Hlast & Hl) Hnd] Hv.
  apply list_elem_of_split in Hv as (l1 & l2 & ->).
  destruct l1 as [|x0 l1 _] using rev_ind.
  { left. simpl in Hhead. congruence. }
  destruct l2 as [|y l2].
  { right. rewrite last_app in Hlast. simpl in Hlast. congruence. }
  exfalso.
  assert (Hpass : forall c, c ∈ (l1 ++ [x0]) ++ v :: y :: l2 ->
                            passable maze' width height c).
  { apply path_passable; [done|]. intros a' Ha'. congruence. }
  assert (Hx : step maze' width height x0 v /\ step maze' width height v y).
  { clear -Hl. induction l1 as [|z l1 IH].
    - simpl in Hl. destruct Hl as [? [? _]]. done.
    - apply IH. simpl in Hl. destruct (l1 ++ [x0]) eqn:E.
      + by destruct l1.
      + simpl in *. by destruct Hl. }
  destruct Hx as [[Hxv _] [Hvy Hy]].
  assert (x0 = u) as ->.
  { apply Hu; [by apply adjacent_sym|]. apply Hpass.
    rewrite !elem_of_app. left. right. by left. }
  assert (y = u) as -> by (by apply Hu).
  rewrite <- app_assoc in Hnd. apply NoDup_app in Hnd as (_ & _ & Hnd).
  simpl in Hnd. apply NoDup_cons in Hnd as [Hnotin _]. apply Hnotin.
  right. left.
Qed.

(** Opening a cell with a single passable neighbour keeps paths unique. *)
Lemma pendant_unique :
  unique_paths maze width height -> unique_paths maze' width height.
Proof.
  intros HQ a b p q Ha Hp Hq.
  destruct (decide (a = v)) as [->|Hav].
  - destruct Hp as [(Hhp & Hlp & Hlkp) Hndp], Hq as [(Hhq & Hlq & Hlkq) Hndq].
    destruct (decide (b = v)) as [->|Hbv].
    { rewrite (simple_loop v p), (simple_loop v q); done. }
    destruct p as [|x p]; [done|]. destruct q as [|x' q]; [done|].
    injection Hhp as ->. injection Hhq as ->.
    destruct p as [|y p]; [simpl in Hlp; congruence|].
    destruct q as [|y' q]; [simpl in Hlq; congruence|].
    destruct Hlkp as [[Hvy Hy] Hlkp], Hlkq as [[Hvy' Hy'] Hlkq].
    pose proof (Hu _ Hvy Hy) as ->. pose proof (Hu _ Hvy' Hy') as ->.
    apply NoDup_cons in Hndp as [Hvp Hndp], Hndq as [Hvq Hndq].
    rewrite last_cons_cons in Hlp, Hlq.
    f_equal. apply (HQ u b).
    + apply passable_before; [done|].
      intros ->. apply Hvp. left.
    + split; [|done]. split; [done|]. split; [done|]. by apply linked_before.
    + split; [|done]. split; [done|]. split; [done|]. by apply linked_before.
  - destruct (decide (b = v)) as [->|Hbv].
    + assert (Hcut : forall p, simple_path maze' width height a v p ->
                exists p0, p = p0 ++ [v] /\ simple_path maze width height a u p0).
      { clear p q Hp Hq. intros p [(Hhp & Hlp & Hlkp) Hndp].
        assert (Hpass : forall c, c ∈ p -> passable maze' width height c).
        { apply path_passable; [done|]. intros a' Ha'. congruence. }
        destruct p as [|z p0 _] using rev_ind; [done|].
        rewrite last_snoc in Hlp. injection Hlp as ->.
        destruct p0 as [|x p0]; [simpl in Hhp; congruence|].
        apply linked_snoc_inv in Hlkp as [Hlk0 (x0 & Hx0 & Hstep)]; [|done].
        apply NoDup_app in Hndp as (Hnd0 & Hdisj & _).
        assert (Hv0 : v ∉ x :: p0).
        { intros Hin. apply (Hdisj v Hin). left. }
        assert (x0 = u) as ->.
        { apply Hu; [apply adjacent_sym; by destruct Hstep|].
          apply Hpass. apply elem_of_app. left. by eapply last_Some_elem_of. }
        exists (x :: p0). split; [done|]. split; [|done].
        split; [done|]. split; [done|]. by apply linked_before. }
      destruct (Hcut p Hp) as (p0 & -> & Hp0).
      destruct (Hcut q Hq) as (q0 & -> & Hq0).
      f_equal. apply (HQ a u); [by apply passable_before|done|done].
    + assert (Hvp : v ∉ p).
      { intros Hin. by destruct (pendant_ends a b p Ha Hp Hin). }
      assert (Hvq : v ∉ q).
      { intros Hin. by destruct (pendant_ends a b q Ha Hq Hin). }
      destruct Hp as [(Hhp & Hlp & Hlkp) Hndp], Hq as [(Hhq & Hlq & Hlkq) Hndq].
      apply (HQ a b); [by apply passable_before| |].
      * split; [|done]. split; [done|]. split; [done|]. by apply linked_before.
      * split; [|done]. split; [done|]. split; [done|]. by apply linked_before.
Qed.
End Pendant.

(** ** The carving phase keeps paths unique *)

(** The cells next to the cell between two rooms: the two rooms, and two
    cells with even coordinates. *)
Lemma wall_neighbours (width height : Z) (c n w x : Cell) :
  room_in width height c -> two_apart c n w -> adjacent w x ->
  x = c \/ x = n \/ (Z.odd x.1 = false /\ Z.odd x.2 = false).
Proof.
  intros (Hx & Hy & _) Hta Hadj. apply adjacent_char in Hadj.
  destruct c as [cx cy]. simpl in *.
  destruct Hta as [[-> ->] | [[-> ->] | [[-> ->] | [-> ->]]]]; simpl in *;
    destruct Hadj as [-> | [-> | [-> | ->]]];
    first [ left; f_equal; lia
          | right; left; f_equal; lia
          | right; right; simpl;
            rewrite ?odd_plus_one, ?odd_minus_one, ?Hx, ?Hy; done ].
Qed.

(** A cell next to a room is no room: it lies between the room and the cell
    on its other side. *)
Lemma room_neighbours (width height : Z) (n x : Cell) :
  room_in width height n -> adjacent n x ->
  is_room x = false /\ two_apart n (2 * x.1 - n.1, 2 * x.2 - n.2) x.
Proof.
  intros (Hx & Hy & _) Hadj. apply adjacent_char in Hadj.
  destruct n as [nx ny]. simpl in *. unfold is_room, two_apart.
  destruct Hadj as [-> | [-> | [-> | ->]]]; simpl;
    rewrite ?odd_plus_one, ?odd_minus_one, ?Hx, ?Hy; (split; [done|]).
  - do 3 right. split; f_equal; lia.
  - do 2 right. left. split; f_equal; lia.
  - right. left. split; f_equal; lia.
  - left. split; f_equal; lia.
Qed.

Lemma unique_paths_start (width height : Z) :
  unique_paths (<[(1, 1) := EMPTY]> (all_wall width height)) width height.
Proof.
  assert (Hnone : forall c, ~ passable (all_wall width height) width height c).
  { intros c (Hb & v & Hv & Hne). rewrite lookup_all_wall, Hb in Hv. congruence. }
  apply (pendant_unique _ _ _ _ (1, 1)).
  - intros x Hadj Hp. exfalso. apply (Hnone x).
    apply (passable_before _ _ _ (1, 1)); [done|]. by apply adjacent_neq.
  - intros a b p q Ha. by destruct (Hnone a).
Qed.

Section Acyclic.
Context `{PyRandom}.
Variables width height : Z.
Hypothesis Hwodd : Z.odd width = true.
Hypothesis Hhodd : Z.odd height = true.
Hypothesis Hw3 : 3 <= width.
Hypothesis Hh3 : 3 <= height.

(** During the carving phase the cells that can be entered are [EMPTY]. *)
Lemma carve_passable (s : gen_state) (c : Cell) :
  carve_inv width height s -> passable (g_maze s) width height c ->
  in_bounds width height c = true /\ g_maze s !! c = Some EMPTY.
Proof.
  intros Hi (Hb & v & Hv & Hne). split; [done|].
  destruct (ci_dense _ _ _ Hi c Hb) as [E|E]; [congruence|done].
Qed.

(** Carving a wall and the room behind it keeps paths unique. *)
Lemma carve_step_unique (s : gen_state) (c n w : Cell) :
  carve_inv width height s -> c ∈ g_visited s -> two_apart c n w ->
  room_in width height n -> n ∉ g_visited s ->
  unique_paths (g_maze s) width height ->
  unique_paths (<[n := EMPTY]> (<[w := EMPTY]> (g_maze s))) width height.
Proof.
  intros Hi Hc Hta Hn Hnv HQ.
  pose proof (ci_rooms _ _ _ Hi c Hc) as Hrc.
  destruct (two_apart_wall width height c n w Hrc Hn Hta)
    as (Hwb & Hwr & _ & _ & _ & _ & _ & Hnc & Hwc & Hwn).
  assert (Hclosed : ~ passable (g_maze s) width height n).
  { intros Hp. apply carve_passable in Hp as [_ He]; [|done].
    apply Hnv. by apply (ci_empty _ _ _ Hi n Hn). }
  apply (pendant_unique _ _ _ _ w); [|apply (pendant_unique _ _ _ _ c); [|done]].
  - intros x Hadj Hp.
    destruct (decide (x = w)) as [|Hxw]; [done|]. exfalso.
    apply passable_before in Hp; [|by apply adjacent_neq].
    apply passable_before in Hp; [|done].
    apply carve_passable in Hp as [Hxb He]; [|done].
    destruct (room_neighbours width height n x Hn Hadj) as [Hroom Hta'].
    destruct (ci_wall _ _ _ Hi x Hxb Hroom He) as (a & b & Ha & Hb & Hab).
    pose proof (ci_rooms _ _ _ Hi a Ha) as Hra.
    destruct (two_apart_unique width height a b n _ x Hra Hn Hab Hta')
      as [[-> _]|[_ ->]]; done.
  - intros x Hadj Hp.
    apply passable_before in Hp; [|by apply adjacent_neq].
    destruct (wall_neighbours width height c n w x Hrc Hta Hadj)
      as [-> | [-> | [Hx Hy]]]; [done|done|]. exfalso.
    apply carve_passable in Hp as [Hxb He]; [|done].
    destruct (carved_cell width height Hwodd Hhodd s x Hi Hxb He) as [_ [Ho|Ho]];
      congruence.
Qed.

(** The loop of [visit] keeps the invariant of the carving phase and keeps
    paths unique. *)
Lemma visit_while_unique (fuel : nat) : forall x y s s',
  visit_while fuel width height x y s = Ok s' ->
  carve_inv width height s -> (x, y) ∈ g_visited s ->
  unique_paths (g_maze s) width height ->
  carve_inv width height s' /\ g_visited s ⊆ g_visited s' /\
  unique_paths (g_maze s') width height.
Proof.
  induction fuel as [fuel IH] using lt_wf_ind. intros x y s s' Hrun Hi Hxy HQ.
  destruct fuel as [|fuel]; [done|]. simpl in Hrun.
  pose proof (ci_rooms _ _ _ Hi _ Hxy) as Hroom.
  pose proof (fun nx ny wx wy =>
    neighbors_of_spec width height Hwodd Hhodd x y (g_visited s) nx ny wx wy
      Hroom) as Hspec.
  destruct (neighbors_of width height x y (g_visited s)) as [|p l] eqn:En.
  { injection Hrun as <-. done. }
  destruct (choice_Ok (g_rng s) (p :: l)) as ([[[nx ny] wx] wy] & r & Hch & Hin);
    [done|].
  rewrite Hch in Hrun. simpl in Hrun.
  apply Hspec in Hin as (Hta & Hn & Hnv).
  destruct fuel as [|fuel]; [done|]. simpl in Hrun.
  pose proof (carve_step width height s (x, y) (nx, ny) (wx, wy) r Hi Hxy Hta Hn Hnv)
    as Hi2.
  pose proof (carve_step_unique s (x, y) (nx, ny) (wx, wy) Hi Hxy Hta Hn Hnv HQ)
    as HQ2.
  apply bind_Ok in Hrun as (s3 & Hrun3 & Hrun4).
  destruct (IH fuel ltac:(lia) nx ny _ s3 Hrun3 Hi2) as (Hi3 & Hsub3 & HQ3);
    [simpl; apply elem_of_union_l; by apply elem_of_singleton|done|].
  destruct (IH (S fuel) ltac:(lia) x y s3 s' Hrun4 Hi3) as (Hi4 & Hsub4 & HQ4);
    [apply Hsub3; simpl; by apply elem_of_union_r|done|].
  split; [done|]. split; [|done].
  intros c Hc. apply Hsub4, Hsub3. simpl. by apply elem_of_union_r.
Qed.

(** The grid left by the carving phase has unique paths. *)
Lemma carve_unique (fuel : nat) (seed : Z) (r0 : rng_state) (s : gen_state) :
  carve fuel width height seed r0 = Ok s ->
  unique_paths (g_maze s) width height.
Proof.
  unfold carve. intros Hrun. destruct fuel as [|fuel]; [done|]. simpl in Hrun.
  eapply visit_while_unique; [exact Hrun| | |].
  - apply (carve_inv_init width height Hw3 Hh3).
  - simpl. by apply elem_of_singleton.
  - simpl. apply unique_paths_start.
Qed.
End Acyclic.

(** ** The solvers in a maze without loops *)

(** Whether the goal can be reached is settled by running [bfs]. *)
Lemma reachable_decidable maze width height start goal :
  covered maze width height ->
  reachable maze width height start goal \/
  ~ reachable maze width height start goal.
Proof.
  intros Hcov.
  pose proof (bfs_run maze width height start goal (search_fuel width height)
                Hcov) as Hrun.
  destruct (bfs_loop _ _ _ _ _) as [st| |]; [|done|lia].
  destruct Hrun as (_ & lv & done & cur & Ht & _ & [Hs|Hn]); [left|by right].
  destruct (tree_inv_path maze width height start lv done cur st goal Ht Hs)
    as (l & _ & _ & Hv).
  by exists (reverse l).
Qed.

Section OneRoute.
Context `{PyRandom}.

End OneRoute.

